(** * x402 payment flow of the web3-login-payment client

    A shallow embedding of the payment negotiation code of the ethers-based
    payment view ([NETWORK_MAP], [ensureNetwork], [createPaymentToken],
    [executePayment], [findBestPaymentOption], [handlePayment],
    [handleSuccess] and the template that renders the view's state), and
    the properties of it that the specification states.

    JavaScript strings are sequences of UTF-16 code units; numbers that the
    code uses as integers (chain ids, token amounts, confirmation counts)
    are [Z]; [BigInt] values are [Z]. *)

From Stdlib Require Import ZArith NArith List String Ascii Bool Lia.
From Stdlib Require Import Decimal DecimalZ.
Import ListNotations.

Local Open Scope list_scope.

(** ** JavaScript strings *)

Definition jsstring := list N.

Definition js (s : string) : jsstring :=
  map N_of_ascii (list_ascii_of_string s).
Arguments js s%_string.

Fixpoint str_eqb (a b : jsstring) : bool :=
  match a, b with
  | [], [] => true
  | x :: a', y :: b' => N.eqb x y && str_eqb a' b'
  | _, _ => false
  end.

(** [Array.prototype.join] on an array of strings. *)
Fixpoint join (sep : jsstring) (l : list jsstring) : jsstring :=
  match l with
  | [] => []
  | [x] => x
  | x :: rest => x ++ sep ++ join sep rest
  end.

(** Every code unit is a Latin-1 character (what [btoa] accepts). *)
Definition latin1 (s : jsstring) : Prop := Forall (fun u => (u < 256)%N) s.

(** ** Thrown values

    What the code reads from a caught value: [e.code], [e.error?.code],
    [e.message] and, for axios errors, [e.response] with its status and
    the parts of the body the view looks at. *)

Inductive code_value :=
| CodeNum (n : Z)
| CodeStr (s : jsstring).

Definition code_is_num (c : option code_value) (n : Z) : bool :=
  match c with Some (CodeNum m) => Z.eqb m n | _ => false end.

Definition code_is_str (c : option code_value) (s : jsstring) : bool :=
  match c with Some (CodeStr t) => str_eqb t s | _ => false end.

(** ** 1. Type definitions *)

Record X402Extra := {
  extra_name : option jsstring;
  extra_decimals : option Z
}.

Record X402Option := {
  scheme : jsstring;
  network : jsstring;
  resource : jsstring;
  payTo : jsstring;
  asset : jsstring;
  maxAmountRequired : jsstring;
  extra : option X402Extra
}.

Record NativeCurrency := {
  nc_name : jsstring;
  nc_symbol : jsstring;
  nc_decimals : Z
}.

Record ChainConfig := {
  chainIdHex : jsstring;
  chainIdDec : Z;
  chainName : jsstring;
  nativeCurrency : NativeCurrency;
  rpcUrls : list jsstring;
  blockExplorerUrls : list jsstring
}.

(** The body of an HTTP response, as far as the view reads it:
    [data.accepts] (absent, or not an array, is [None]), the [url] that
    [handleSuccess] finds in [getResponseData] (absent or falsy is
    [None]), and [data.error].  A response always has a [data], as axios
    provides it. *)
Record body := {
  accepts_of : option (list X402Option);
  url_of : option jsstring;
  error_of : option jsstring
}.

Record response := {
  status : Z;
  data : body
}.

Record js_error := {
  code : option code_value;
  inner_code : option code_value;
  message : option jsstring;
  err_response : option response
}.

(** [new Error(msg)] *)
Definition new_Error (msg : jsstring) : js_error :=
  {| code := None; inner_code := None; message := Some msg;
     err_response := None |}.

Inductive result (A : Type) :=
| Ok (a : A)
| Err (e : js_error).
Arguments Ok {A} a.
Arguments Err {A} e.

(** ** 2. Configuration *)

Definition base_sepolia : ChainConfig :=
  {| chainIdHex := js "0x14a34";
     chainIdDec := 84532;
     chainName := js "Base Sepolia";
     nativeCurrency :=
       {| nc_name := js "ETH"; nc_symbol := js "ETH"; nc_decimals := 18 |};
     rpcUrls := [js "https://sepolia.base.org"];
     blockExplorerUrls := [js "https://sepolia.basescan.org"] |}.

Definition sepolia : ChainConfig :=
  {| chainIdHex := js "0xaa36a7";
     chainIdDec := 11155111;
     chainName := js "Sepolia";
     nativeCurrency :=
       {| nc_name := js "SepoliaETH"; nc_symbol := js "ETH";
          nc_decimals := 18 |};
     rpcUrls := [js "https://rpc.sepolia.org"];
     blockExplorerUrls := [js "https://sepolia.etherscan.io"] |}.

(** The entries written in the object literal [NETWORK_MAP]. *)
Definition NETWORK_MAP : list (jsstring * ChainConfig) :=
  [ (js "base-sepolia", base_sepolia);
    (js "sepolia", sepolia) ].

(** [NETWORK_MAP] is a plain object literal, so its prototype is
    [Object.prototype] and a property read that finds no own entry
    continues there.  These are the names [Object.prototype] defines;
    each holds a function, or for [__proto__] the prototype object itself:
    all of them truthy. *)
Definition Object_prototype_names : list jsstring :=
  [ js "constructor"; js "hasOwnProperty"; js "isPrototypeOf";
    js "propertyIsEnumerable"; js "toLocaleString"; js "toString";
    js "valueOf"; js "__proto__"; js "__defineGetter__";
    js "__defineSetter__"; js "__lookupGetter__"; js "__lookupSetter__" ].

(** What a read [NETWORK_MAP[key]] evaluates to when it is not
    [undefined]. *)
Inductive registry_value :=
| OwnConfig (c : ChainConfig)
| Inherited (name : jsstring).

Fixpoint own_lookup (key : jsstring) (entries : list (jsstring * ChainConfig))
  : option ChainConfig :=
  match entries with
  | [] => None
  | (k, c) :: rest => if str_eqb k key then Some c else own_lookup key rest
  end.

(** The registry proper: the ChainConfig written for a network token. *)
Definition registry (key : jsstring) : option ChainConfig :=
  own_lookup key NETWORK_MAP.

(** [NETWORK_MAP[key]]; [None] is [undefined]. *)
Definition NETWORK_MAP_get (key : jsstring) : option registry_value :=
  match own_lookup key NETWORK_MAP with
  | Some c => Some (OwnConfig c)
  | None =>
      if existsb (str_eqb key) Object_prototype_names
      then Some (Inherited key)
      else None
  end.

(** [config.chainIdDec], [config.chainIdHex] and [config.chainName] on the
    value the matcher hands on; a function or [Object.prototype] has no
    such property, and the read gives [undefined] ([None]). *)
Definition get_chainIdDec (config : registry_value) : option Z :=
  match config with OwnConfig c => Some (chainIdDec c) | Inherited _ => None end.

Definition get_chainIdHex (config : registry_value) : option jsstring :=
  match config with OwnConfig c => Some (chainIdHex c) | Inherited _ => None end.

(** ** 6. findBestPaymentOption *)

Fixpoint first_supported (accepts : list X402Option)
  : option (X402Option * registry_value) :=
  match accepts with
  | [] => None
  | option :: rest =>
      match NETWORK_MAP_get (network option) with
      | Some config => Some (option, config)
      | None => first_supported rest
      end
  end.

Definition no_network_message (accepts : list X402Option) : jsstring :=
  js "No supported payment network found. Server accepts: "
  ++ join (js ", ") (map network accepts).

Definition findBestPaymentOption (accepts : list X402Option)
  : result (X402Option * registry_value) :=
  match first_supported accepts with
  | Some found => Ok found
  | None => Err (new_Error (no_network_message accepts))
  end.

(** ** Numbers and their text *)

Fixpoint uint_digits (d : uint) : jsstring :=
  match d with
  | Nil => []
  | D0 d => 48%N :: uint_digits d
  | D1 d => 49%N :: uint_digits d
  | D2 d => 50%N :: uint_digits d
  | D3 d => 51%N :: uint_digits d
  | D4 d => 52%N :: uint_digits d
  | D5 d => 53%N :: uint_digits d
  | D6 d => 54%N :: uint_digits d
  | D7 d => 55%N :: uint_digits d
  | D8 d => 56%N :: uint_digits d
  | D9 d => 57%N :: uint_digits d
  end.

(** [BigInt.prototype.toString], and [Number::toString] on an integer in
    the safe range: the decimal digits, after a minus sign when negative. *)
Definition Z_to_string (z : Z) : jsstring :=
  match Z.to_int z with
  | Pos d => uint_digits d
  | Neg d => 45%N :: uint_digits d
  end.

(** [Number.isSafeInteger] *)
Definition safe_integer (z : Z) : Prop :=
  (- (2 ^ 53 - 1) <= z <= 2 ^ 53 - 1)%Z.

(** The white space and line terminators that [StringToBigInt] trims. *)
Definition is_white_space (u : N) : bool :=
  existsb (N.eqb u)
    [9; 10; 11; 12; 13; 32; 160; 5760; 8192; 8193; 8194; 8195; 8196; 8197;
     8198; 8199; 8200; 8201; 8202; 8232; 8233; 8239; 8287; 12288; 65279]%N.

Fixpoint trim_start (s : jsstring) : jsstring :=
  match s with
  | [] => []
  | u :: rest => if is_white_space u then trim_start rest else s
  end.

Definition trim (s : jsstring) : jsstring :=
  List.rev (trim_start (List.rev (trim_start s))).

Definition digit_value (radix : Z) (u : N) : option Z :=
  let v :=
    if ((48 <=? u) && (u <=? 57))%N then (Z.of_N u - 48)%Z
    else if ((97 <=? u) && (u <=? 102))%N then (Z.of_N u - 87)%Z
    else if ((65 <=? u) && (u <=? 70))%N then (Z.of_N u - 55)%Z
    else radix in
  if (v <? radix)%Z then Some v else None.

Fixpoint digits_value (radix acc : Z) (s : jsstring) : option Z :=
  match s with
  | [] => Some acc
  | u :: rest =>
      match digit_value radix u with
      | Some d => digits_value radix (acc * radix + d)%Z rest
      | None => None
      end
  end.

Definition parse_digits (radix : Z) (s : jsstring) : option Z :=
  match s with
  | [] => None
  | _ => digits_value radix 0 s
  end.

(** [StringToBigInt]: the value of [BigInt(s)] for a string [s], or [None]
    where [BigInt] throws a SyntaxError. *)
Definition StringToBigInt (s : jsstring) : option Z :=
  match trim s with
  | [] => Some 0%Z
  | u :: rest =>
      if N.eqb u 43 then parse_digits 10 rest
      else if N.eqb u 45 then option_map Z.opp (parse_digits 10 rest)
      else
        match rest with
        | p :: body =>
            if N.eqb u 48 && (N.eqb p 120 || N.eqb p 88)
            then parse_digits 16 body
            else if N.eqb u 48 && (N.eqb p 111 || N.eqb p 79)
            then parse_digits 8 body
            else if N.eqb u 48 && (N.eqb p 98 || N.eqb p 66)
            then parse_digits 2 body
            else parse_digits 10 (u :: rest)
        | [] => parse_digits 10 (u :: rest)
        end
  end.

Definition BigInt (s : jsstring) : result Z :=
  match StringToBigInt s with
  | Some z => Ok z
  | None =>
      Err (new_Error (js "Cannot convert " ++ s ++ js " to a BigInt"))
  end.

(** ** JSON text and Base64 *)

Definition hex_digit (v : N) : N :=
  if (v <? 10)%N then (48 + v)%N else (87 + v)%N.

(** [UnicodeEscape]: a backslash, [u] and four lowercase hex digits. *)
Definition unicode_escape (u : N) : jsstring :=
  [92; 117; hex_digit (u / 4096); hex_digit ((u / 256) mod 16);
   hex_digit ((u / 16) mod 16); hex_digit (u mod 16)]%N.

Definition is_leading_surrogate (u : N) : bool :=
  ((55296 <=? u) && (u <=? 56319))%N.

Definition is_trailing_surrogate (u : N) : bool :=
  ((56320 <=? u) && (u <=? 57343))%N.

(** One code unit that is not half of a surrogate pair, as
    [QuoteJSONString] writes it. *)
Definition quote_unit (u : N) : jsstring :=
  if N.eqb u 8 then [92; 98]%N
  else if N.eqb u 9 then [92; 116]%N
  else if N.eqb u 10 then [92; 110]%N
  else if N.eqb u 12 then [92; 102]%N
  else if N.eqb u 13 then [92; 114]%N
  else if N.eqb u 34 then [92; 34]%N
  else if N.eqb u 92 then [92; 92]%N
  else if (u <? 32)%N || is_leading_surrogate u || is_trailing_surrogate u
  then unicode_escape u
  else [u].

(** The characters of [QuoteJSONString] between the two quotes: a
    well-formed surrogate pair is one code point and is copied, a lone
    surrogate is escaped. *)
Fixpoint quote_units (s : jsstring) : jsstring :=
  match s with
  | [] => []
  | u :: rest =>
      match rest with
      | v :: rest' =>
          if is_leading_surrogate u && is_trailing_surrogate v
          then u :: v :: quote_units rest'
          else quote_unit u ++ quote_units rest
      | [] => quote_unit u
      end
  end.

Definition QuoteJSONString (s : jsstring) : jsstring :=
  [34%N] ++ quote_units s ++ [34%N].

(** [JSON.stringify({ hash: txHash, chainId: chainId })]: the members in
    the order the literal writes them, without white space; a member whose
    value is [undefined] is left out. *)
Definition stringify_payload (txHash : jsstring) (chainId : option Z)
  : jsstring :=
  js "{"
  ++ join (js ",")
       ((QuoteJSONString (js "hash") ++ js ":" ++ QuoteJSONString txHash)
        :: match chainId with
           | Some n => [QuoteJSONString (js "chainId") ++ js ":" ++ Z_to_string n]
           | None => []
           end)
  ++ js "}".

(** The Base64 alphabet of RFC 4648. *)
Definition b64_char (v : N) : N :=
  if (v <? 26)%N then (65 + v)%N
  else if (v <? 52)%N then (71 + v)%N
  else if (v <? 62)%N then (v - 4)%N
  else if N.eqb v 62 then 43%N
  else 47%N.

Fixpoint b64_encode (bytes : list N) : jsstring :=
  match bytes with
  | [] => []
  | a :: rest1 =>
      match rest1 with
      | [] =>
          [b64_char (a / 4); b64_char ((a mod 4) * 16); 61; 61]%N
      | b :: rest2 =>
          match rest2 with
          | [] =>
              [b64_char (a / 4); b64_char ((a mod 4) * 16 + b / 16);
               b64_char ((b mod 16) * 4); 61]%N
          | c :: rest3 =>
              [b64_char (a / 4); b64_char ((a mod 4) * 16 + b / 16);
               b64_char ((b mod 16) * 4 + c / 64); b64_char (c mod 64)]%N
              ++ b64_encode rest3
          end
      end
  end.

(** [window.btoa]: throws (InvalidCharacterError) when a code unit is
    outside Latin-1, and otherwise encodes the code units as bytes. *)
Definition btoa (s : jsstring) : result jsstring :=
  if forallb (fun u => (u <? 256)%N) s
  then Ok (b64_encode s)
  else Err (new_Error
              (js "The string to be encoded contains characters outside of the Latin1 range.")).

(** ** 5. createPaymentToken *)

Definition createPaymentToken (txHash : jsstring) (chainId : option Z)
  : result jsstring :=
  let jsonString := stringify_payload txHash chainId in
  btoa jsonString.

(** ** Reading a payment token back

    The resource server decodes the token; its code is not part of the
    client.  These are [atob] and [JSON.parse] as far as the tokens of
    [createPaymentToken] need them: Base64 with padding and no white
    space, and the JSON text of a payload object, with every escape that
    a JSON string may hold. *)

Definition b64_value (c : N) : option N :=
  if ((65 <=? c) && (c <=? 90))%N then Some (c - 65)%N
  else if ((97 <=? c) && (c <=? 122))%N then Some (c - 71)%N
  else if ((48 <=? c) && (c <=? 57))%N then Some (c + 4)%N
  else if N.eqb c 43 then Some 62%N
  else if N.eqb c 47 then Some 63%N
  else None.

Fixpoint atob (s : jsstring) : option jsstring :=
  match s with
  | [] => Some []
  | w :: x :: y :: z :: rest =>
      match b64_value w, b64_value x with
      | Some p, Some q =>
          if N.eqb y 61 then
            match N.eqb z 61, rest with
            | true, [] => Some [p * 4 + q / 16]%N
            | _, _ => None
            end
          else
            match b64_value y with
            | Some r =>
                if N.eqb z 61 then
                  match rest with
                  | [] => Some [p * 4 + q / 16; (q mod 16) * 16 + r / 4]%N
                  | _ => None
                  end
                else
                  match b64_value z, atob rest with
                  | Some t, Some tail =>
                      Some ((p * 4 + q / 16) :: ((q mod 16) * 16 + r / 4)
                            :: ((r mod 4) * 64 + t) :: tail)%N
                  | _, _ => None
                  end
            | None => None
            end
      | _, _ => None
      end
  | _ => None
  end.

Definition hex_value (c : N) : option N :=
  if ((48 <=? c) && (c <=? 57))%N then Some (c - 48)%N
  else if ((97 <=? c) && (c <=? 102))%N then Some (c - 87)%N
  else if ((65 <=? c) && (c <=? 70))%N then Some (c - 55)%N
  else None.

Definition hex4 (a b c d : N) : option N :=
  match hex_value a, hex_value b, hex_value c, hex_value d with
  | Some p, Some q, Some r, Some s => Some (((p * 16 + q) * 16 + r) * 16 + s)%N
  | _, _, _, _ => None
  end.

(** The character a two-character JSON escape stands for. *)
Definition unescape (e : N) : option N :=
  if N.eqb e 34 then Some 34%N
  else if N.eqb e 92 then Some 92%N
  else if N.eqb e 47 then Some 47%N
  else if N.eqb e 98 then Some 8%N
  else if N.eqb e 102 then Some 12%N
  else if N.eqb e 110 then Some 10%N
  else if N.eqb e 114 then Some 13%N
  else if N.eqb e 116 then Some 9%N
  else None.

(** A JSON string after its opening quote: its value, and the text after
    the closing quote. *)
Fixpoint parse_string_chars (s : jsstring) : option (jsstring * jsstring) :=
  match s with
  | [] => None
  | u :: rest =>
      if N.eqb u 34 then Some ([], rest)
      else if N.eqb u 92 then
        match rest with
        | [] => None
        | e :: rest1 =>
            if N.eqb e 117 then
              match rest1 with
              | h1 :: h2 :: h3 :: h4 :: rest2 =>
                  match hex4 h1 h2 h3 h4, parse_string_chars rest2 with
                  | Some v, Some (str, tl) => Some (v :: str, tl)
                  | _, _ => None
                  end
              | _ => None
              end
            else
              match unescape e, parse_string_chars rest1 with
              | Some v, Some (str, tl) => Some (v :: str, tl)
              | _, _ => None
              end
        end
      else if (u <? 32)%N then None
      else
        match parse_string_chars rest with
        | Some (str, tl) => Some (u :: str, tl)
        | None => None
        end
  end.

(** What the parser makes of one more character in front. *)
Definition cons_parsed (u : N) (r : option (jsstring * jsstring))
  : option (jsstring * jsstring) :=
  match r with
  | Some (str, tl) => Some (u :: str, tl)
  | None => None
  end.

Definition digit_cons (u : N) (d : uint) : uint :=
  if N.eqb u 48 then D0 d else if N.eqb u 49 then D1 d
  else if N.eqb u 50 then D2 d else if N.eqb u 51 then D3 d
  else if N.eqb u 52 then D4 d else if N.eqb u 53 then D5 d
  else if N.eqb u 54 then D6 d else if N.eqb u 55 then D7 d
  else if N.eqb u 56 then D8 d else D9 d.

Definition is_digit (u : N) : bool := ((48 <=? u) && (u <=? 57))%N.

(** The longest run of decimal digits at the start of a text. *)
Fixpoint read_uint (s : jsstring) : uint * jsstring :=
  match s with
  | [] => (Nil, [])
  | u :: rest =>
      if is_digit u
      then let (d, tl) := read_uint rest in (digit_cons u d, tl)
      else (Nil, s)
  end.

Definition read_int (s : jsstring) : option (Z * jsstring) :=
  match s with
  | [] => None
  | u :: rest =>
      if N.eqb u 45 then
        match read_uint rest with
        | (Nil, _) => None
        | (d, tl) => Some (Z.of_int (Neg d), tl)
        end
      else
        match read_uint s with
        | (Nil, _) => None
        | (d, tl) => Some (Z.of_int (Pos d), tl)
        end
  end.

Fixpoint strip_prefix (p s : jsstring) : option jsstring :=
  match p, s with
  | [], _ => Some s
  | a :: p', b :: s' => if N.eqb a b then strip_prefix p' s' else None
  | _ :: _, [] => None
  end.

Definition parse_payload (text : jsstring) : option (jsstring * option Z) :=
  match strip_prefix
          (js "{" ++ QuoteJSONString (js "hash") ++ js ":" ++ [34%N]) text with
  | None => None
  | Some after_open =>
      match parse_string_chars after_open with
      | None => None
      | Some (hash, after_hash) =>
          if str_eqb after_hash (js "}") then Some (hash, None)
          else
            match strip_prefix
                    (js "," ++ QuoteJSONString (js "chainId") ++ js ":")
                    after_hash with
            | None => None
            | Some digits =>
                match read_int digits with
                | Some (n, after_int) =>
                    if str_eqb after_int (js "}") then Some (hash, Some n)
                    else None
                | None => None
                end
            end
      end
  end.

Definition decodePaymentToken (token : jsstring)
  : option (jsstring * option Z) :=
  match atob token with
  | Some text => parse_payload text
  | None => None
  end.

(** ** The wallet, the chain and the server

    Every [await] of the payment flow is one call to the wallet provider,
    the signer, the token contract, the pending transaction or the HTTP
    client. *)

(** The members of a ChainConfig that the rest pattern
    [{ chainIdDec, chainIdHex, ...params }] collects. *)
Record chain_params := {
  p_chainName : jsstring;
  p_nativeCurrency : NativeCurrency;
  p_rpcUrls : list jsstring;
  p_blockExplorerUrls : list jsstring
}.

Definition rest_params (config : registry_value) : option chain_params :=
  match config with
  | OwnConfig c =>
      Some {| p_chainName := chainName c;
              p_nativeCurrency := nativeCurrency c;
              p_rpcUrls := rpcUrls c;
              p_blockExplorerUrls := blockExplorerUrls c |}
  | Inherited _ => None
  end.

(** The two requests of [provider.send], with the fields of their one
    parameter object. *)
Inductive rpc :=
| wallet_switchEthereumChain (chainId : option jsstring)
| wallet_addEthereumChain (chainId : option jsstring)
    (params : option chain_params).

Inductive call :=
| provider_getNetwork
| provider_send (request : rpc)
| provider_getSigner
| signer_getAddress
| token_balanceOf (token owner : jsstring)
| token_transfer (token to amount : jsstring)
| tx_wait (hash : jsstring) (confirms : Z)
| api_get (url : jsstring) (headers : list (jsstring * jsstring)).

(** What each call resolves to: the chain id of [getNetwork] and the
    balance are bigints, [transfer] resolves to a transaction, of which
    the flow uses the hash. *)
Definition reply (c : call) : Type :=
  match c with
  | provider_getNetwork => Z
  | provider_send _ => unit
  | provider_getSigner => unit
  | signer_getAddress => jsstring
  | token_balanceOf _ _ => Z
  | token_transfer _ _ _ => jsstring
  | tx_wait _ _ => unit
  | api_get _ _ => response
  end.

(** The synchronous effects of the view: writes to its refs, navigation
    and the alert box. *)
Inductive action :=
| set_loading (b : bool)
| set_error (s : jsstring)
| set_location_href (url : jsstring)
| alert (msg : jsstring).

Inductive event :=
| Called (c : call)
| Did (a : action).

(** ** Programs

    An async function is a tree: it returns, throws, awaits a call and
    continues with its outcome, reads [window.ethereum], or performs a
    synchronous effect. *)
Inductive prog (A : Type) : Type :=
| Ret (a : A)
| Throw (e : js_error)
| Await (c : call) (k : result (reply c) -> prog A)
| HasEthereum (k : bool -> prog A)
| Do (a : action) (k : prog A).
Arguments Ret {A} a.
Arguments Throw {A} e.
Arguments Await {A} c k.
Arguments HasEthereum {A} k.
Arguments Do {A} a k.

Fixpoint bind {A B} (p : prog A) (f : A -> prog B) : prog B :=
  match p with
  | Ret a => f a
  | Throw e => Throw e
  | Await c k => Await c (fun r => bind (k r) f)
  | HasEthereum k => HasEthereum (fun b => bind (k b) f)
  | Do a k => Do a (bind k f)
  end.

(** [try { p } catch (e) { h e }] *)
Fixpoint try_catch {A} (p : prog A) (h : js_error -> prog A) : prog A :=
  match p with
  | Ret a => Ret a
  | Throw e => h e
  | Await c k => Await c (fun r => try_catch (k r) h)
  | HasEthereum k => HasEthereum (fun b => try_catch (k b) h)
  | Do a k => Do a (try_catch k h)
  end.

(** [try { p } finally { q }] for a [q] that neither returns nor throws
    on its own account. *)
Fixpoint finally {A} (p : prog A) (q : prog unit) : prog A :=
  match p with
  | Ret a => bind q (fun _ => Ret a)
  | Throw e => bind q (fun _ => Throw e)
  | Await c k => Await c (fun r => finally (k r) q)
  | HasEthereum k => HasEthereum (fun b => finally (k b) q)
  | Do a k => Do a (finally k q)
  end.

(** [await c]: the value the call resolves to, or its rejection thrown. *)
Definition await (c : call) : prog (reply c) :=
  Await c (fun r => match r with Ok v => Ret v | Err e => Throw e end).

Definition lift {A} (r : result A) : prog A :=
  match r with Ok a => Ret a | Err e => Throw e end.

Definition effect (a : action) : prog unit := Do a (Ret tt).

Notation "x <- p ;; q" := (bind p (fun x => q))
  (at level 61, p at next level, right associativity).
Notation "p ;;; q" := (bind p (fun _ => q))
  (at level 61, right associativity).

(** ** 5. ensureNetwork *)

(** [Number(chainId) === chainIdDec] for a bigint [chainId] and a
    [chainIdDec] in the safe range, as the registry's are: [Number] keeps
    a bigint of the safe range as it is and makes of any other a number of
    magnitude [2 ^ 53] or more, so the two are equal exactly when the
    bigint is that integer.  What is proved of the comparison assumes
    [safe_integer] of [chainIdDec].  [undefined] equals no number. *)
Definition same_chain (chainId : Z) (chainIdDec : option Z) : bool :=
  match chainIdDec with
  | Some n => Z.eqb chainId n
  | None => false
  end.

Definition is_4902 (switchError : js_error) : bool :=
  code_is_num (code switchError) 4902
  || code_is_num (inner_code switchError) 4902.

Definition ensureNetwork (config : registry_value) : prog unit :=
  chainId <- await provider_getNetwork ;;
  if same_chain chainId (get_chainIdDec config) then Ret tt
  else
    try_catch
      (await (provider_send
                (wallet_switchEthereumChain (get_chainIdHex config))))
      (fun switchError =>
         if is_4902 switchError
         then await (provider_send
                       (wallet_addEthereumChain (get_chainIdHex config)
                          (rest_params config)))
         else Throw switchError).

(** ** 5. executePayment *)

Definition insufficient_message (requiredAmount balance : Z) : jsstring :=
  js "Insufficient Token Balance. You need " ++ Z_to_string requiredAmount
  ++ js " units of the token, but you only have " ++ Z_to_string balance
  ++ js ".".

Definition executePayment (option : X402Option) (config : registry_value)
  : prog jsstring :=
  HasEthereum (fun present =>
    if negb present then Throw (new_Error (js "No crypto wallet found"))
    else
      ensureNetwork config ;;;
      _ <- await provider_getSigner ;;
      userAddress <- await signer_getAddress ;;
      balance <- await (token_balanceOf (asset option) userAddress) ;;
      requiredAmount <- lift (BigInt (maxAmountRequired option)) ;;
      if (balance <? requiredAmount)%Z
      then Throw (new_Error (insufficient_message requiredAmount balance))
      else
        tx <- await (token_transfer (asset option) (payTo option)
                       (maxAmountRequired option)) ;;
        await (tx_wait tx 1) ;;;
        Ret tx).

(** ** 6. handlePayment *)

Definition handleSuccess (res : response) : prog unit :=
  match url_of (data res) with
  | Some url => effect (set_location_href url)
  | None =>
      effect (alert
            (js "Payment validated successfully! Resource is now accessible."))
  end.

(** [a || b] on an optional string: the empty string and [undefined] are
    falsy. *)
Definition or_else (a : option jsstring) (b : jsstring) : jsstring :=
  match a with
  | Some (u :: s) => u :: s
  | _ => b
  end.

Definition payment_url (plan : jsstring) : jsstring := js "/payment/" ++ plan.

Definition is_402 (err : js_error) : option response :=
  match err_response err with
  | Some r => if Z.eqb (status r) 402 then Some r else None
  | None => None
  end.

(** The body of the inner [try]: from the 402 response to the retried
    request. *)
Definition pay_and_retry (plan : jsstring) (res402 : response) : prog unit :=
  match accepts_of (data res402) with
  | None => Throw (new_Error (js "Invalid payment parameters"))
  | Some accepts =>
      found <- lift (findBestPaymentOption accepts) ;;
      let (option, config) := found in
      txHash <- executePayment option config ;;
      paymentToken <- lift (createPaymentToken txHash (get_chainIdDec config)) ;;
      retryRes <- await (api_get (payment_url plan)
                           [(js "X-Payment", paymentToken)]) ;;
      handleSuccess retryRes
  end.

Definition rejected_message : jsstring := js "You rejected the transaction.".

(** The inner [catch]. *)
Definition on_payment_error (payErr : js_error) : prog unit :=
  if code_is_str (code payErr) (js "ACTION_REJECTED")
  then effect (set_error rejected_message)
  else effect (set_error (or_else (message payErr) (js "Payment execution failed"))).

(** The [else] branch of the outer [catch]. *)
Definition on_request_error (err : js_error) : prog unit :=
  effect (set_error
        (or_else (match err_response err with
                  | Some r => error_of (data r)
                  | None => None
                  end)
           (or_else (message err) (js "Request failed")))).

(** The outer [try] with its [catch]. *)
Definition request_resource (plan : jsstring) : prog unit :=
  try_catch
    (res <- await (api_get (payment_url plan) []) ;;
     handleSuccess res)
    (fun err =>
       match is_402 err with
       | Some res402 => try_catch (pay_and_retry plan res402) on_payment_error
       | None => on_request_error err
       end).

Definition handlePayment (plan : jsstring) : prog unit :=
  effect (set_loading true) ;;;
  effect (set_error []) ;;;
  finally (request_resource plan) (effect (set_loading false)).

(** ** Running a program to completion *)

(** The state of the view, and everything that has happened so far. *)
Record world := {
  history : list event;
  loading : bool;
  error : jsstring;
  user : bool
}.

(** The world outside the program: whether a wallet is installed, and
    what each call resolves or rejects with, given all that came before
    it. *)
Record Env := {
  ethereum : bool;
  answer : list event -> forall c : call, result (reply c)
}.

Definition record (ev : event) (w : world) : world :=
  {| history := history w ++ [ev]; loading := loading w; error := error w;
     user := user w |}.

Definition perform (a : action) (w : world) : world :=
  let w' := record (Did a) w in
  match a with
  | set_loading b =>
      {| history := history w'; loading := b; error := error w';
         user := user w' |}
  | set_error s =>
      {| history := history w'; loading := loading w'; error := s;
         user := user w' |}
  | set_location_href _ => w'
  | alert _ => w'
  end.

Fixpoint run {A} (env : Env) (p : prog A) (w : world) : result A * world :=
  match p with
  | Ret a => (Ok a, w)
  | Throw e => (Err e, w)
  | Await c k => run env (k (answer env (history w) c)) (record (Called c) w)
  | HasEthereum k => run env (k (ethereum env)) w
  | Do a k => run env k (perform a w)
  end.

(** ** The template *)

Inductive panel :=
| LoadingBox
| ContentBox
| LoginBox.

(** [v-if="loading"], [v-else-if="user"], [v-else]: the pay button is part
    of the content box. *)
Definition render_panel (w : world) : panel :=
  if loading w then LoadingBox
  else if user w then ContentBox
  else LoginBox.

Record message_box := {
  css_class : jsstring;
  text : jsstring
}.

(** [<div v-if="error" class="error-msg">] with a warning sign before the
    text: the one place where the view shows the outcome of a failure. *)
Definition render_error (w : world) : option message_box :=
  match error w with
  | [] => None
  | u :: s =>
      Some {| css_class := js "error-msg";
              text := [9888; 65039; 32]%N ++ u :: s |}
  end.

(** ** Invocations side by side

    An async function runs until its next [await] and then yields; other
    handlers run in between.  A session is the view together with the
    invocations that are waiting for a call to settle. *)

Record task := {
  waiting_for : call;
  continuation : result (reply waiting_for) -> prog unit
}.

(** Run a program up to its next [await], or to its end. *)
Fixpoint advance (eth : bool) (p : prog unit) (w : world)
  : option task * world :=
  match p with
  | Ret _ => (None, w)
  | Throw _ => (None, w)
  | Await c k =>
      (Some {| waiting_for := c; continuation := k |}, record (Called c) w)
  | HasEthereum k => advance eth (k eth) w
  | Do a k => advance eth k (perform a w)
  end.

Record session := {
  view : world;
  pending : list task
}.

(** A handler is called, or a continuation is resumed. *)
Definition start (eth : bool) (p : prog unit) (s : session) : session :=
  match advance eth p (view s) with
  | (Some t, w) => {| view := w; pending := pending s ++ [t] |}
  | (None, w) => {| view := w; pending := pending s |}
  end.

(** What can happen in a session of the rendered view: the user clicks the
    pay button, which exists only in the content box, or the call that
    some invocation waits for settles. *)
Inductive step (eth : bool) : session -> session -> Prop :=
| step_click_pay (plan : jsstring) (s : session) :
    render_panel (view s) = ContentBox ->
    step eth s (start eth (handlePayment plan) s)
| step_settle (s : session) (before after : list task) (t : task)
    (r : result (reply (waiting_for t))) :
    pending s = before ++ t :: after ->
    step eth s
      (start eth (continuation t r)
         {| view := view s; pending := before ++ after |}).

Inductive steps (eth : bool) : session -> session -> Prop :=
| steps_refl (s : session) : steps eth s s
| steps_next (s1 s2 s3 : session) :
    steps eth s1 s2 -> step eth s2 s3 -> steps eth s1 s3.

(** The calls that have been made. *)
Fixpoint calls (h : list event) : list call :=
  match h with
  | [] => []
  | Called c :: rest => c :: calls rest
  | Did _ :: rest => calls rest
  end.

Definition is_transfer (c : call) : bool :=
  match c with token_transfer _ _ _ => true | _ => false end.


(** A program that never writes the [loading] ref. *)
Fixpoint quiet {A} (p : prog A) : Prop :=
  match p with
  | Ret _ => True
  | Throw _ => True
  | Await c k => forall r, quiet (k r)
  | HasEthereum k => forall b, quiet (k b)
  | Do a k =>
      match a with set_loading _ => False | _ => quiet k end
  end.

(** A program that has no [await] left. *)
Fixpoint immediate {A} (p : prog A) : Prop :=
  match p with
  | Ret _ => True
  | Throw _ => True
  | Await _ _ => False
  | HasEthereum k => forall b, immediate (k b)
  | Do a k => match a with set_loading _ => False | _ => immediate k end
  end.

(** A program that clears [loading] as the last thing it does, and does
    not write it before. *)
Fixpoint releases (p : prog unit) : Prop :=
  match p with
  | Ret _ => False
  | Throw _ => False
  | Await c k => forall r, releases (k r)
  | HasEthereum k => forall b, releases (k b)
  | Do a k =>
      match a with
      | set_loading false => immediate k
      | set_loading true => False
      | _ => releases k
      end
  end.

(** What holds of every session of the rendered view: nothing is in
    flight, or one invocation is, which holds [loading]. *)
Definition serialized (s : session) : Prop :=
  pending s = []
  \/ exists t,
       pending s = [t] /\ loading (view s) = true
       /\ forall r, releases (continuation t r).

(** ** Environments of the scenarios *)

Definition basic : jsstring := js "basic".

Definition usdc_option (net : jsstring) : X402Option :=
  {| scheme := js "exact";
     network := net;
     resource := js "/api/payment/basic";
     payTo := js "0xMerchant";
     asset := js "0xUSDC";
     maxAmountRequired := js "1000000";
     extra := None |}.

Definition no_body : body :=
  {| accepts_of := None; url_of := None; error_of := None |}.

Definition payment_required (accepts : list X402Option) : js_error :=
  {| code := Some (CodeStr (js "ERR_BAD_REQUEST"));
     inner_code := None;
     message := Some (js "Request failed with status code 402");
     err_response :=
       Some {| status := 402;
               data := {| accepts_of := Some accepts; url_of := None;
                          error_of := None |} |} |}.

Definition tx_hash : jsstring := js "0xabc".

(** A wallet on chain [chain] holding [balance] units, in front of a
    server that asks for payment until a request carries a payment header,
    and then answers [retry]; the transfer call settles as [transfer]. *)
Definition scenario (chain balance : Z) (accepts : list X402Option)
    (transfer : result jsstring) (retry : result response) : Env :=
  {| ethereum := true;
     answer := fun _ c =>
       match c return result (reply c) with
       | provider_getNetwork => Ok chain
       | provider_send _ => Ok tt
       | provider_getSigner => Ok tt
       | signer_getAddress => Ok (js "0xPayer")
       | token_balanceOf _ _ => Ok balance
       | token_transfer _ _ _ => transfer
       | tx_wait _ _ => Ok tt
       | api_get _ [] => Err (payment_required accepts)
       | api_get _ (_ :: _) => retry
       end |}.

Definition resource_response : response :=
  {| status := 200;
     data := {| accepts_of := None; url_of := Some (js "https://resource");
                error_of := None |} |}.

(** A wallet on chain 1 that does not know the chain it is asked to switch
    to (error 4902) and accepts to add it. *)
Definition unknown_chain_wallet : Env :=
  {| ethereum := true;
     answer := fun _ c =>
       match c return result (reply c) with
       | provider_getNetwork => Ok 1%Z
       | provider_send (wallet_switchEthereumChain _) =>
           Err {| code := Some (CodeNum 4902); inner_code := None;
                  message := Some (js "Unrecognized chain ID");
                  err_response := None |}
       | provider_send (wallet_addEthereumChain _ _) => Ok tt
       | provider_getSigner => Ok tt
       | signer_getAddress => Ok (js "0xPayer")
       | token_balanceOf _ _ => Ok 2000000%Z
       | token_transfer _ _ _ => Ok tx_hash
       | tx_wait _ _ => Ok tt
       | api_get _ _ => Ok resource_response
       end |}.

(** A wallet on chain 1 that knows the chain and accepts the switch. *)
Definition switching_wallet : Env :=
  {| ethereum := true;
     answer := fun _ c =>
       match c return result (reply c) with
       | provider_getNetwork => Ok 1%Z
       | provider_send _ => Ok tt
       | provider_getSigner => Ok tt
       | signer_getAddress => Ok (js "0xPayer")
       | token_balanceOf _ _ => Ok 2000000%Z
       | token_transfer _ _ _ => Ok tx_hash
       | tx_wait _ _ => Ok tt
       | api_get _ _ => Ok resource_response
       end |}.

(** The user dismisses the prompt of the switch: code 4001. *)
Definition switch_refused : js_error :=
  {| code := Some (CodeNum 4001); inner_code := None;
     message := Some (js "User rejected the request.");
     err_response := None |}.

(** A wallet on chain 1 whose user refuses every request to switch. *)
Definition refusing_wallet : Env :=
  {| ethereum := true;
     answer := fun _ c =>
       match c return result (reply c) with
       | provider_getNetwork => Ok 1%Z
       | provider_send (wallet_switchEthereumChain _) => Err switch_refused
       | provider_send (wallet_addEthereumChain _ _) => Ok tt
       | provider_getSigner => Ok tt
       | signer_getAddress => Ok (js "0xPayer")
       | token_balanceOf _ _ => Ok 2000000%Z
       | token_transfer _ _ _ => Ok tx_hash
       | tx_wait _ _ => Ok tt
       | api_get _ _ => Ok resource_response
       end |}.

(** The text that the inner [catch] of [handlePayment] writes to
    [error]. *)
Definition payment_error_text (payErr : js_error) : jsstring :=
  if code_is_str (code payErr) (js "ACTION_REJECTED")
  then js "You rejected the transaction."
  else or_else (message payErr) (js "Payment execution failed").

(** The view after the first two statements of [handlePayment], and after
    the first request has gone out. *)
Definition entered (w : world) : world :=
  perform (set_error []) (perform (set_loading true) w).

Definition requested (plan : jsstring) (w : world) : world :=
  record (Called (api_get (payment_url plan) [])) (entered w).

(** The wallet reports that the user dismissed the signing prompt, as
    ethers does. *)
Definition user_rejection : js_error :=
  {| code := Some (CodeStr (js "ACTION_REJECTED"));
     inner_code := None;
     message := Some (js "user rejected action");
     err_response := None |}.

(** A transfer that fails for another reason, with a message of its
    own. *)
Definition call_exception (msg : jsstring) : js_error :=
  {| code := Some (CodeStr (js "CALL_EXCEPTION"));
     inner_code := None;
     message := Some msg;
     err_response := None |}.

Definition start_world : world :=
  {| history := []; loading := false; error := []; user := true |}.

Definition start_session : session :=
  {| view := start_world; pending := [] |}.

(** ** Effects of a run *)

(** A program without synchronous effects: it awaits calls and reads
    [window.ethereum], and does nothing else. *)
Fixpoint effectless {A} (p : prog A) : Prop :=
  match p with
  | Ret _ => True
  | Throw _ => True
  | Await c k => forall r, effectless (k r)
  | HasEthereum k => forall b, effectless (k b)
  | Do _ _ => False
  end.

(** The two things [handleSuccess] can do. *)
Definition is_delivery (ev : event) : bool :=
  match ev with
  | Did (set_location_href _) => true
  | Did (alert _) => true
  | _ => false
  end.

Definition is_surrogate (u : N) : bool :=
  is_leading_surrogate u || is_trailing_surrogate u.

(** * The other components

    The login and session functions of the payment view, the access-key
    manager and the wallet set-up of the interceptor variant run on other
    calls and other refs than the payment flow.  Their programs are the
    same kind of tree, over the calls [C] of the component, what each
    resolves to, and the refs and variables [S] that the component reads
    and writes. *)

Module Async.

Section Programs.

Variable C : Type.
Variable R : C -> Type.
Variable S : Type.

Inductive async (A : Type) : Type :=
| Return (a : A)
| Raise (e : js_error)
| Wait (c : C) (k : result (R c) -> async A)
| Read (k : S -> async A)
| Write (f : S -> S) (k : async A).

Arguments Return {A} a.
Arguments Raise {A} e.
Arguments Wait {A} c k.
Arguments Read {A} k.
Arguments Write {A} f k.

Fixpoint bind {A B} (p : async A) (f : A -> async B) : async B :=
  match p with
  | Return a => f a
  | Raise e => Raise e
  | Wait c k => Wait c (fun r => bind (k r) f)
  | Read k => Read (fun s => bind (k s) f)
  | Write g k => Write g (bind k f)
  end.

(** [try { p } catch (e) { h e }] *)
Fixpoint try_catch {A} (p : async A) (h : js_error -> async A) : async A :=
  match p with
  | Return a => Return a
  | Raise e => h e
  | Wait c k => Wait c (fun r => try_catch (k r) h)
  | Read k => Read (fun s => try_catch (k s) h)
  | Write g k => Write g (try_catch k h)
  end.

(** [try { p } finally { q }] for a [q] that only writes. *)
Fixpoint finally {A} (p : async A) (q : async unit) : async A :=
  match p with
  | Return a => bind q (fun _ => Return a)
  | Raise e => bind q (fun _ => Raise e)
  | Wait c k => Wait c (fun r => finally (k r) q)
  | Read k => Read (fun s => finally (k s) q)
  | Write g k => Write g (finally k q)
  end.

Definition wait (c : C) : async (R c) :=
  Wait c (fun r => match r with Ok v => Return v | Err e => Raise e end).

Definition write (f : S -> S) : async unit := Write f (Return tt).

Definition read : async S := Read (fun s => Return s).

(** What each call resolves or rejects with, given the calls made
    before it. *)
Definition oracle : Type := list C -> forall c : C, result (R c).

(** Running to completion: the outcome, the calls made in order, and
    the refs at the end. *)
Fixpoint exec {A} (answer : oracle) (p : async A) (made : list C) (s : S)
  : result A * (list C * S) :=
  match p with
  | Return a => (Ok a, (made, s))
  | Raise e => (Err e, (made, s))
  | Wait c k => exec answer (k (answer made c)) (made ++ [c]) s
  | Read k => exec answer (k s) made s
  | Write f k => exec answer k made (f s)
  end.

(** An invocation that waits for a call to settle. *)
Record suspended := {
  awaited : C;
  resume : result (R awaited) -> async unit
}.

(** Running up to the next [await], or to the end. *)
Fixpoint advance (p : async unit) (made : list C) (s : S)
  : option suspended * (list C * S) :=
  match p with
  | Return _ => (None, (made, s))
  | Raise _ => (None, (made, s))
  | Wait c k => (Some {| awaited := c; resume := k |}, (made ++ [c], s))
  | Read k => advance (k s) made s
  | Write f k => advance k made (f s)
  end.

(** ** Holding a flag

    [busy] is the ref that a handler sets while it runs, [loading] in
    the views here. *)
Variable busy : S -> bool.

Definition keeps (f : S -> S) : Prop := forall s, busy (f s) = busy s.
Definition sets (f : S -> S) : Prop := forall s, busy (f s) = true.
Definition clears (f : S -> S) : Prop := forall s, busy (f s) = false.

(** A program that never changes the flag. *)
Fixpoint untouched {A} (p : async A) : Prop :=
  match p with
  | Return _ => True
  | Raise _ => True
  | Wait c k => forall r, untouched (k r)
  | Read k => forall s, untouched (k s)
  | Write f k => keeps f /\ untouched k
  end.

(** A program that never changes the flag and has no [await] left. *)
Fixpoint finishing {A} (p : async A) : Prop :=
  match p with
  | Return _ => True
  | Raise _ => True
  | Wait _ _ => False
  | Read k => forall s, finishing (k s)
  | Write f k => keeps f /\ finishing k
  end.

(** A program that clears the flag as the last thing it does, and does
    not change it before. *)
Fixpoint releasing (p : async unit) : Prop :=
  match p with
  | Return _ => False
  | Raise _ => False
  | Wait c k => forall r, releasing (k r)
  | Read k => forall s, releasing (k s)
  | Write f k => (keeps f /\ releasing k) \/ (clears f /\ finishing k)
  end.

(** A handler that sets the flag before its first [await] and clears it
    as the last thing it does. *)
Fixpoint bracketing (p : async unit) : Prop :=
  match p with
  | Return _ => False
  | Raise _ => False
  | Wait _ _ => False
  | Read k => forall s, bracketing (k s)
  | Write f k => (keeps f /\ bracketing k) \/ (sets f /\ releasing k)
  end.

End Programs.

Arguments Return {C R S A} a.
Arguments Raise {C R S A} e.
Arguments Wait {C R S A} c k.
Arguments Read {C R S A} k.
Arguments Write {C R S A} f k.
Arguments bind {C R S A B} p f.
Arguments try_catch {C R S A} p h.
Arguments finally {C R S A} p q.
Arguments wait {C R S} c.
Arguments write {C R S} f.
Arguments read {C R S}.
Arguments exec {C R S A} answer p made s.
Arguments advance {C R S} p made s.
Arguments awaited {C R S} s.
Arguments resume {C R S} s r.
Arguments untouched {C R S} busy {A} p.
Arguments finishing {C R S} busy {A} p.
Arguments releasing {C R S} busy p.
Arguments bracketing {C R S} busy p.
Arguments keeps {S} busy f.
Arguments sets {S} busy f.
Arguments clears {S} busy f.

Definition lift {C R S A} (r : result A) : async C R S A :=
  match r with Ok a => Return a | Err e => Raise e end.

End Async.

Declare Scope async_scope.
Delimit Scope async_scope with async.
Notation "x <- p ;; q" := (Async.bind p (fun x => q))
  (at level 61, p at next level, right associativity) : async_scope.
Notation "p ;;; q" := (Async.bind p (fun _ => q))
  (at level 61, right associativity) : async_scope.

(** ** The access-key manager *)

Module AccessKeyManager.

Local Open Scope async_scope.

(** The six counters that a key and the overview both carry. *)
Record Usage := {
  dayCount : Z;
  dayCredits : Z;
  monthCount : Z;
  monthCredits : Z;
  totalCount : Z;
  totalCredits : Z
}.

Record AccessKey := {
  id : Z;
  name : jsstring;
  type : jsstring;
  accessKey : jsstring;
  secret : jsstring;
  usage : Usage
}.

(** A [KeyListResponse] without its keys. *)
Record Overview := {
  total : Usage;
  remainDays : Z;
  remainCredits : Z;
  rateLimit : Z;
  dailyLimit : Z;
  keyLimit : Z
}.

Record KeyListResponse := {
  overview_of : Overview;
  keys_of : list AccessKey
}.

(** The refs of the component. *)
Record refs := {
  loading : bool;
  error : jsstring;
  success : jsstring;
  keys : list AccessKey;
  overview : option Overview;
  showCreateDialog : bool;
  showEditDialog : bool;
  showDeleteConfirm : bool;
  newKeyName : jsstring;
  newKeyType : jsstring;
  editingKey : option AccessKey;
  editKeyName : jsstring;
  deletingKey : option AccessKey;
  visibleSecrets : list jsstring
}.

Definition set_loading (v : bool) (s : refs) : refs :=
  {| loading := v;
     error := error s;
     success := success s;
     keys := keys s;
     overview := overview s;
     showCreateDialog := showCreateDialog s;
     showEditDialog := showEditDialog s;
     showDeleteConfirm := showDeleteConfirm s;
     newKeyName := newKeyName s;
     newKeyType := newKeyType s;
     editingKey := editingKey s;
     editKeyName := editKeyName s;
     deletingKey := deletingKey s;
     visibleSecrets := visibleSecrets s |}.

Definition set_error (v : jsstring) (s : refs) : refs :=
  {| loading := loading s;
     error := v;
     success := success s;
     keys := keys s;
     overview := overview s;
     showCreateDialog := showCreateDialog s;
     showEditDialog := showEditDialog s;
     showDeleteConfirm := showDeleteConfirm s;
     newKeyName := newKeyName s;
     newKeyType := newKeyType s;
     editingKey := editingKey s;
     editKeyName := editKeyName s;
     deletingKey := deletingKey s;
     visibleSecrets := visibleSecrets s |}.

Definition set_success (v : jsstring) (s : refs) : refs :=
  {| loading := loading s;
     error := error s;
     success := v;
     keys := keys s;
     overview := overview s;
     showCreateDialog := showCreateDialog s;
     showEditDialog := showEditDialog s;
     showDeleteConfirm := showDeleteConfirm s;
     newKeyName := newKeyName s;
     newKeyType := newKeyType s;
     editingKey := editingKey s;
     editKeyName := editKeyName s;
     deletingKey := deletingKey s;
     visibleSecrets := visibleSecrets s |}.

Definition set_keys (v : list AccessKey) (s : refs) : refs :=
  {| loading := loading s;
     error := error s;
     success := success s;
     keys := v;
     overview := overview s;
     showCreateDialog := showCreateDialog s;
     showEditDialog := showEditDialog s;
     showDeleteConfirm := showDeleteConfirm s;
     newKeyName := newKeyName s;
     newKeyType := newKeyType s;
     editingKey := editingKey s;
     editKeyName := editKeyName s;
     deletingKey := deletingKey s;
     visibleSecrets := visibleSecrets s |}.

Definition set_overview (v : option Overview) (s : refs) : refs :=
  {| loading := loading s;
     error := error s;
     success := success s;
     keys := keys s;
     overview := v;
     showCreateDialog := showCreateDialog s;
     showEditDialog := showEditDialog s;
     showDeleteConfirm := showDeleteConfirm s;
     newKeyName := newKeyName s;
     newKeyType := newKeyType s;
     editingKey := editingKey s;
     editKeyName := editKeyName s;
     deletingKey := deletingKey s;
     visibleSecrets := visibleSecrets s |}.

Definition set_showCreateDialog (v : bool) (s : refs) : refs :=
  {| loading := loading s;
     error := error s;
     success := success s;
     keys := keys s;
     overview := overview s;
     showCreateDialog := v;
     showEditDialog := showEditDialog s;
     showDeleteConfirm := showDeleteConfirm s;
     newKeyName := newKeyName s;
     newKeyType := newKeyType s;
     editingKey := editingKey s;
     editKeyName := editKeyName s;
     deletingKey := deletingKey s;
     visibleSecrets := visibleSecrets s |}.

Definition set_showEditDialog (v : bool) (s : refs) : refs :=
  {| loading := loading s;
     error := error s;
     success := success s;
     keys := keys s;
     overview := overview s;
     showCreateDialog := showCreateDialog s;
     showEditDialog := v;
     showDeleteConfirm := showDeleteConfirm s;
     newKeyName := newKeyName s;
     newKeyType := newKeyType s;
     editingKey := editingKey s;
     editKeyName := editKeyName s;
     deletingKey := deletingKey s;
     visibleSecrets := visibleSecrets s |}.

Definition set_showDeleteConfirm (v : bool) (s : refs) : refs :=
  {| loading := loading s;
     error := error s;
     success := success s;
     keys := keys s;
     overview := overview s;
     showCreateDialog := showCreateDialog s;
     showEditDialog := showEditDialog s;
     showDeleteConfirm := v;
     newKeyName := newKeyName s;
     newKeyType := newKeyType s;
     editingKey := editingKey s;
     editKeyName := editKeyName s;
     deletingKey := deletingKey s;
     visibleSecrets := visibleSecrets s |}.

Definition set_newKeyName (v : jsstring) (s : refs) : refs :=
  {| loading := loading s;
     error := error s;
     success := success s;
     keys := keys s;
     overview := overview s;
     showCreateDialog := showCreateDialog s;
     showEditDialog := showEditDialog s;
     showDeleteConfirm := showDeleteConfirm s;
     newKeyName := v;
     newKeyType := newKeyType s;
     editingKey := editingKey s;
     editKeyName := editKeyName s;
     deletingKey := deletingKey s;
     visibleSecrets := visibleSecrets s |}.

Definition set_newKeyType (v : jsstring) (s : refs) : refs :=
  {| loading := loading s;
     error := error s;
     success := success s;
     keys := keys s;
     overview := overview s;
     showCreateDialog := showCreateDialog s;
     showEditDialog := showEditDialog s;
     showDeleteConfirm := showDeleteConfirm s;
     newKeyName := newKeyName s;
     newKeyType := v;
     editingKey := editingKey s;
     editKeyName := editKeyName s;
     deletingKey := deletingKey s;
     visibleSecrets := visibleSecrets s |}.

Definition set_editingKey (v : option AccessKey) (s : refs) : refs :=
  {| loading := loading s;
     error := error s;
     success := success s;
     keys := keys s;
     overview := overview s;
     showCreateDialog := showCreateDialog s;
     showEditDialog := showEditDialog s;
     showDeleteConfirm := showDeleteConfirm s;
     newKeyName := newKeyName s;
     newKeyType := newKeyType s;
     editingKey := v;
     editKeyName := editKeyName s;
     deletingKey := deletingKey s;
     visibleSecrets := visibleSecrets s |}.

Definition set_editKeyName (v : jsstring) (s : refs) : refs :=
  {| loading := loading s;
     error := error s;
     success := success s;
     keys := keys s;
     overview := overview s;
     showCreateDialog := showCreateDialog s;
     showEditDialog := showEditDialog s;
     showDeleteConfirm := showDeleteConfirm s;
     newKeyName := newKeyName s;
     newKeyType := newKeyType s;
     editingKey := editingKey s;
     editKeyName := v;
     deletingKey := deletingKey s;
     visibleSecrets := visibleSecrets s |}.

Definition set_deletingKey (v : option AccessKey) (s : refs) : refs :=
  {| loading := loading s;
     error := error s;
     success := success s;
     keys := keys s;
     overview := overview s;
     showCreateDialog := showCreateDialog s;
     showEditDialog := showEditDialog s;
     showDeleteConfirm := showDeleteConfirm s;
     newKeyName := newKeyName s;
     newKeyType := newKeyType s;
     editingKey := editingKey s;
     editKeyName := editKeyName s;
     deletingKey := v;
     visibleSecrets := visibleSecrets s |}.

Definition set_visibleSecrets (v : list jsstring) (s : refs) : refs :=
  {| loading := loading s;
     error := error s;
     success := success s;
     keys := keys s;
     overview := overview s;
     showCreateDialog := showCreateDialog s;
     showEditDialog := showEditDialog s;
     showDeleteConfirm := showDeleteConfirm s;
     newKeyName := newKeyName s;
     newKeyType := newKeyType s;
     editingKey := editingKey s;
     editKeyName := editKeyName s;
     deletingKey := deletingKey s;
     visibleSecrets := v |}.

(** The body of a response: the payload under [data], or the payload
    itself. *)
Inductive envelope (T : Type) :=
| enveloped (payload : T)
| bare (payload : T).
Arguments enveloped {T} payload.
Arguments bare {T} payload.

Definition getResponseData {T} (response : envelope T) : T :=
  match response with
  | enveloped payload => payload
  | bare payload => payload
  end.

(** What is sent with a POST or a PUT. *)
Inductive sent :=
| create_fields (name type : jsstring)
| update_fields (id : Z) (name : jsstring).

Inductive call :=
| api_get (url : jsstring)
| api_post (url : jsstring) (fields : sent)
| api_put (url : jsstring) (fields : sent)
| api_delete (url : jsstring).

Definition reply (c : call) : Type :=
  match c with
  | api_get _ => envelope KeyListResponse
  | _ => unit
  end.

Definition program := Async.async call reply refs.

(** [err.response?.data?.error || err.message || fallback] *)
Definition failure_text (err : js_error) (fallback : jsstring) : jsstring :=
  or_else (match err_response err with
           | Some r => error_of (data r)
           | None => None
           end)
    (or_else (message err) fallback).

Definition is_empty (s : jsstring) : bool :=
  match s with [] => true | _ => false end.

Definition fetchKeys : program unit :=
  Async.write (set_loading true) ;;;
  Async.write (set_error []) ;;;
  Async.finally
    (Async.try_catch
       (res <- Async.wait (api_get (js "/access-key")) ;;
        let data := getResponseData res in
        Async.write (set_keys (keys_of data)) ;;;
        Async.write (set_overview (Some (overview_of data))))
       (fun err =>
          Async.write (set_error (failure_text err (js "Failed to fetch keys")))))
    (Async.write (set_loading false)).

Definition createKey : program unit :=
  Async.Read (fun s =>
    if is_empty (trim (newKeyName s))
    then Async.write (set_error (js "Please enter a key name"))
    else
      Async.write (set_loading true) ;;;
      Async.write (set_error []) ;;;
      Async.finally
        (Async.try_catch
           (now <- Async.read ;;
            Async.wait (api_post (js "/access-key")
                          (create_fields (trim (newKeyName now))
                             (newKeyType now))) ;;;
            Async.write (set_success (js "Key created successfully")) ;;;
            Async.write (set_showCreateDialog false) ;;;
            Async.write (set_newKeyName []) ;;;
            fetchKeys)
           (fun err =>
              Async.write
                (set_error (failure_text err (js "Failed to create key")))))
        (Async.write (set_loading false))).

Definition openEditDialog (key : AccessKey) : program unit :=
  Async.write (set_editingKey (Some key)) ;;;
  Async.write (set_editKeyName (name key)) ;;;
  Async.write (set_showEditDialog true).

Definition updateKey : program unit :=
  Async.Read (fun s =>
    match editingKey s with
    | None => Async.write (set_error (js "Please enter a key name"))
    | Some _ =>
        if is_empty (trim (editKeyName s))
        then Async.write (set_error (js "Please enter a key name"))
        else
          Async.write (set_loading true) ;;;
          Async.write (set_error []) ;;;
          Async.finally
            (Async.try_catch
               (now <- Async.read ;;
                match editingKey now with
                | None =>
                    Async.Raise
                      (new_Error
                         (js "Cannot read properties of null (reading 'id')"))
                | Some key =>
                    Async.wait (api_put (js "/access-key")
                                  (update_fields (id key)
                                     (trim (editKeyName now)))) ;;;
                    Async.write (set_success (js "Key updated successfully")) ;;;
                    Async.write (set_showEditDialog false) ;;;
                    Async.write (set_editingKey None) ;;;
                    Async.write (set_editKeyName []) ;;;
                    fetchKeys
                end)
               (fun err =>
                  Async.write
                    (set_error (failure_text err (js "Failed to update key")))))
            (Async.write (set_loading false))
    end).

Definition openDeleteConfirm (key : AccessKey) : program unit :=
  Async.write (set_deletingKey (Some key)) ;;;
  Async.write (set_showDeleteConfirm true).

(** The URL is [`/access-key/${deletingKey.value.id}`]: the template
    literal writes an id of the safe range as its decimal digits, which
    [Z_to_string] gives.  What is proved of the URL assumes
    [safe_integer] of the id. *)
Definition deleteKey : program unit :=
  Async.Read (fun s =>
    match deletingKey s with
    | None => Async.Return tt
    | Some _ =>
        Async.write (set_loading true) ;;;
        Async.write (set_error []) ;;;
        Async.finally
          (Async.try_catch
             (now <- Async.read ;;
              match deletingKey now with
              | None =>
                  Async.Raise
                    (new_Error
                       (js "Cannot read properties of null (reading 'id')"))
              | Some key =>
                  Async.wait (api_delete (js "/access-key/"
                                          ++ Z_to_string (id key))) ;;;
                  Async.write (set_success (js "Key deleted successfully")) ;;;
                  Async.write (set_showDeleteConfirm false) ;;;
                  Async.write (set_deletingKey None) ;;;
                  fetchKeys
              end)
             (fun err =>
                Async.write
                  (set_error (failure_text err (js "Failed to delete key")))))
          (Async.write (set_loading false))
    end).

(** A JavaScript [Set] of strings: its elements in insertion order, each
    once. *)
Definition set_has (x : jsstring) (s : list jsstring) : bool :=
  existsb (str_eqb x) s.

Definition set_delete (x : jsstring) (s : list jsstring) : list jsstring :=
  filter (fun y => negb (str_eqb x y)) s.

Definition set_add (x : jsstring) (s : list jsstring) : list jsstring :=
  if set_has x s then s else s ++ [x].

(** [toggleSecretVisibility] on the content of [visibleSecrets]; the copy
    into a new [Set] holds the same elements in the same order. *)
Definition toggle (accessKey : jsstring) (visible : list jsstring)
  : list jsstring :=
  if set_has accessKey visible
  then set_delete accessKey visible
  else set_add accessKey visible.

Definition toggleSecretVisibility (accessKey : jsstring) : program unit :=
  Async.Read (fun s =>
    Async.write (set_visibleSecrets (toggle accessKey (visibleSecrets s)))).

(** Eight bullets, U+2022. *)
Definition bullets : jsstring := repeat 8226%N 8.

(** [secret.slice(0, 4)] and [secret.slice(-4)] *)
Definition slice_head (s : jsstring) : jsstring := firstn 4 s.
Definition slice_tail (s : jsstring) : jsstring :=
  skipn (List.length s - 4) s.

Definition maskSecret (secret : jsstring) : jsstring :=
  if (List.length secret <=? 8)%nat then bullets
  else slice_head secret ++ bullets ++ slice_tail secret.

(** The text in the secret's cell of a key card. *)
Definition shown_secret (s : refs) (key : AccessKey) : jsstring :=
  if set_has (accessKey key) (visibleSecrets s)
  then secret key
  else maskSecret (secret key).

(** The refs when the component is set up. *)
Definition initial : refs :=
  {| loading := false; error := []; success := [];
     keys := []; overview := None;
     showCreateDialog := false; showEditDialog := false;
     showDeleteConfirm := false;
     newKeyName := []; newKeyType := js "AI_ORACLE";
     editingKey := None; editKeyName := [];
     deletingKey := None; visibleSecrets := [] |}.

(** The toggle buttons of these keys, clicked one after the other. *)
Fixpoint clicks (accessKeys : list jsstring) : program unit :=
  match accessKeys with
  | [] => Async.Return tt
  | accessKey :: rest => toggleSecretVisibility accessKey ;;; clicks rest
  end.

(** A text with no white space at either end. *)
Definition trimmed (s : jsstring) : Prop :=
  match s with [] => True | u :: _ => is_white_space u = false end
  /\ match List.rev s with [] => True | u :: _ => is_white_space u = false end.

(** A server with one key, and a server that is down. *)
Definition sample_key : AccessKey :=
  {| id := 7; name := js "Production"; type := js "AI_ORACLE";
     accessKey := js "ak_1"; secret := js "s3cr3t-0123456789";
     usage := {| dayCount := 1; dayCredits := 2; monthCount := 3;
                 monthCredits := 4; totalCount := 5; totalCredits := 6 |} |}.

Definition sample_list : KeyListResponse :=
  {| overview_of :=
       {| total := usage sample_key; remainDays := 30; remainCredits := 100;
          rateLimit := 10; dailyLimit := 1000; keyLimit := 5 |};
     keys_of := [sample_key] |}.

Definition server_up : Async.oracle call reply :=
  fun _ c =>
    match c return result (reply c) with
    | api_get _ => Ok (enveloped sample_list)
    | api_post _ _ => Ok tt
    | api_put _ _ => Ok tt
    | api_delete _ => Ok tt
    end.

Definition server_down : Async.oracle call reply :=
  fun _ c =>
    match c return result (reply c) with
    | api_get _ => Err (new_Error (js "Network Error"))
    | api_post _ _ => Err (new_Error (js "Network Error"))
    | api_put _ _ => Err (new_Error (js "Network Error"))
    | api_delete _ => Err (new_Error (js "Network Error"))
    end.

End AccessKeyManager.

(** ** The payment view as a whole: session, login and logout *)

Module PaymentView.

Local Open Scope async_scope.

Record User := {
  publicAddress : jsstring
}.

(** The fields handed to [new SiweMessage]. *)
Record SiweFields := {
  domain : jsstring;
  address : jsstring;
  statement : jsstring;
  uri : jsstring;
  version : jsstring;
  chainId : Z;
  nonce : jsstring
}.

(** The calls of the view: those of the payment flow, which include the
    wallet calls of the login, and the requests of the session. *)
Inductive request :=
| payment (c : call)
| user_me
| user_nonce (address : jsstring)
| signer_signMessage (message : jsstring)
| user_verify (message signature : jsstring)
| user_logout.

(** What each resolves to; for [/user/me] and [/user/verify] the [user]
    of [getResponseData], [None] when it is absent or null. *)
Definition answer_of (c : request) : Type :=
  match c with
  | payment c => reply c
  | user_me => option User
  | user_nonce _ => jsstring
  | signer_signMessage _ => jsstring
  | user_verify _ _ => option User
  | user_logout => unit
  end.

(** The refs of the view, what it reads of [window], and what it has
    shown by navigation and alert. *)
Record page := {
  user : option User;
  loading : bool;
  error : jsstring;
  ethereum : bool;
  location_host : jsstring;
  location_origin : jsstring;
  shown : list action
}.

Definition with_user (v : option User) (s : page) : page :=
  {| user := v; loading := loading s; error := error s;
     ethereum := ethereum s; location_host := location_host s;
     location_origin := location_origin s; shown := shown s |}.

Definition with_loading (v : bool) (s : page) : page :=
  {| user := user s; loading := v; error := error s;
     ethereum := ethereum s; location_host := location_host s;
     location_origin := location_origin s; shown := shown s |}.

Definition with_error (v : jsstring) (s : page) : page :=
  {| user := user s; loading := loading s; error := v;
     ethereum := ethereum s; location_host := location_host s;
     location_origin := location_origin s; shown := shown s |}.

Definition show (a : action) (s : page) : page :=
  {| user := user s; loading := loading s; error := error s;
     ethereum := ethereum s; location_host := location_host s;
     location_origin := location_origin s; shown := shown s ++ [a] |}.

Definition program := Async.async request answer_of page.

Definition checkSession : program unit :=
  Async.try_catch
    (me <- Async.wait user_me ;;
     Async.write (with_user me))
    (fun _ => Async.write (with_user None)).

Definition logout : program unit :=
  Async.try_catch
    (Async.wait user_logout ;;;
     Async.write (with_user None))
    (fun _ => Async.Return tt).

Section Login.

(** [new SiweMessage(fields).prepareMessage()]: the text that the siwe
    library makes of the fields, or what it throws. *)
Variable prepareMessage : SiweFields -> result jsstring.

Definition connectAndLogin : program unit :=
  Async.write (with_error []) ;;;
  Async.write (with_loading true) ;;;
  Async.finally
    (Async.try_catch
       (window <- Async.read ;;
        if negb (ethereum window)
        then Async.Raise (new_Error (js "Please install MetaMask."))
        else
          Async.wait (payment provider_getSigner) ;;;
          address <- Async.wait (payment signer_getAddress) ;;
          chainId <- Async.wait (payment provider_getNetwork) ;;
          nonce <- Async.wait (user_nonce address) ;;
          location <- Async.read ;;
          preparedMessage <-
            Async.lift
              (prepareMessage
                 {| domain := location_host location;
                    address := address;
                    statement := js "Sign in to Access Resources";
                    uri := location_origin location;
                    version := js "1";
                    chainId := chainId;
                    nonce := nonce |}) ;;
          signature <- Async.wait (signer_signMessage preparedMessage) ;;
          verified <- Async.wait (user_verify preparedMessage signature) ;;
          Async.write (with_user verified))
       (fun err =>
          Async.write
            (with_error
               (or_else (match err_response err with
                         | Some r => error_of (data r)
                         | None => None
                         end)
                  (or_else (message err) (js "Login failed"))))))
    (Async.write (with_loading false)).

End Login.

(** The payment flow inside the view: its calls are calls of the view,
    its writes go to the view's refs. *)
Definition apply (a : action) (s : page) : page :=
  match a with
  | set_loading b => with_loading b s
  | set_error text => with_error text s
  | set_location_href _ => show a s
  | alert _ => show a s
  end.

Fixpoint embed {A} (p : prog A) : program A :=
  match p with
  | Ret a => Async.Return a
  | Throw e => Async.Raise e
  | Await c k => Async.Wait (payment c) (fun r => embed (k r))
  | HasEthereum k => Async.Read (fun s => embed (k (ethereum s)))
  | Do a k => Async.Write (apply a) (embed k)
  end.

(** The click handler of the pay button: [handlePayment('basic')]. *)
Definition pay : program unit := embed (handlePayment basic).

(** The template: [v-if="loading"], [v-else-if="user"], [v-else]. *)
Definition render (s : page) : panel :=
  if loading s then LoadingBox
  else match user s with
       | Some _ => ContentBox
       | None => LoginBox
       end.

(** ** Sessions of the view

    An invocation that holds [loading] ([connectAndLogin],
    [handlePayment]) or one that does not ([checkSession], [logout]). *)
Inductive role :=
| holder
| bystander.

Record invocation := {
  role_of : role;
  waiting : Async.suspended request answer_of page
}.

Record session := {
  made : list request;
  now : page;
  pending : list invocation
}.

Definition start (r : role) (p : program unit) (s : session) : session :=
  match Async.advance p (made s) (now s) with
  | (Some t, (calls, s')) =>
      {| made := calls; now := s';
         pending := pending s ++ [{| role_of := r; waiting := t |}] |}
  | (None, (calls, s')) =>
      {| made := calls; now := s'; pending := pending s |}
  end.

Section Steps.

Variable prepareMessage : SiweFields -> result jsstring.

(** What can happen: the component is mounted, the user clicks a button
    that is on screen, or a call settles. *)
Inductive step : session -> session -> Prop :=
| step_mounted (s : session) :
    step s (start bystander checkSession s)
| step_connect (s : session) :
    render (now s) = LoginBox ->
    step s (start holder (connectAndLogin prepareMessage) s)
| step_pay (s : session) :
    render (now s) = ContentBox ->
    step s (start holder pay s)
| step_disconnect (s : session) :
    render (now s) = ContentBox ->
    step s (start bystander logout s)
| step_settle (s : session) (before after : list invocation)
    (i : invocation)
    (r : result (answer_of (Async.awaited (waiting i)))) :
    pending s = before ++ i :: after ->
    step s
      (start (role_of i) (Async.resume (waiting i) r)
         {| made := made s; now := now s; pending := before ++ after |}).

Inductive steps : session -> session -> Prop :=
| steps_refl (s : session) : steps s s
| steps_next (s1 s2 s3 : session) :
    steps s1 s2 -> step s2 s3 -> steps s1 s3.

End Steps.

Definition is_holder (i : invocation) : bool :=
  match role_of i with holder => true | bystander => false end.

(** What holds of every session: the invocations that do not hold
    [loading] never write it; at most one invocation holds it, and then
    it is set and will be cleared by that invocation's last write. *)
Definition serialized (s : session) : Prop :=
  (forall i, In i (pending s) -> role_of i = bystander ->
             forall r, Async.untouched loading (Async.resume (waiting i) r))
  /\ (filter is_holder (pending s) = []
      \/ exists i,
           filter is_holder (pending s) = [i]
           /\ loading (now s) = true
           /\ forall r, Async.releasing loading (Async.resume (waiting i) r)).

(** A page of a visitor with a wallet, before anything has happened. *)
Definition fresh : page :=
  {| user := None; loading := false; error := [];
     ethereum := true; location_host := js "example.org";
     location_origin := js "https://example.org"; shown := [] |}.

Definition fresh_session : session :=
  {| made := []; now := fresh; pending := [] |}.

(** A stand-in for the text of the siwe library, and a wallet and
    server that go along with the login. *)
Definition sample_message (f : SiweFields) : result jsstring :=
  Ok (domain f ++ js " wants you to sign in: " ++ address f
      ++ js " nonce " ++ nonce f).

Definition agreeable : Async.oracle request answer_of :=
  fun _ c =>
    match c return result (answer_of c) with
    | payment c =>
        answer (scenario 84532 2000000 [usdc_option (js "base-sepolia")]
                  (Ok tx_hash) (Ok resource_response)) [] c
    | user_me => Ok None
    | user_nonce _ => Ok (js "n0nce")
    | signer_signMessage _ => Ok (js "0xsigned")
    | user_verify _ _ => Ok (Some {| publicAddress := js "0xPayer" |})
    | user_logout => Ok tt
    end.

End PaymentView.

(** ** The wallet client of the interceptor variant *)

Module Interceptor.

(** The module variables [walletClient] and [interceptorInstalled], and
    the wallet clients that have been handed to
    [withPaymentInterceptor], each by its account. *)
Record variables := {
  walletClient : option jsstring;
  interceptorInstalled : bool;
  intercepted : list jsstring
}.

Definition initial : variables :=
  {| walletClient := None; interceptorInstalled := false;
     intercepted := [] |}.

(** [setupWallet(address)] in a window with or without [ethereum]. *)
Definition setupWallet (ethereum : bool) (address : jsstring)
    (v : variables) : variables :=
  if negb ethereum then v
  else if interceptorInstalled v
  then {| walletClient := Some address;
          interceptorInstalled := interceptorInstalled v;
          intercepted := intercepted v |}
  else {| walletClient := Some address;
          interceptorInstalled := true;
          intercepted := intercepted v ++ [address] |}.

(** A series of calls, each with the state of the window and the
    address. *)
Definition setups (calls : list (bool * jsstring)) (v : variables)
  : variables :=
  fold_left (fun v c => setupWallet (fst c) (snd c) v) calls v.

End Interceptor.

(** * Properties *)

(** ** Strings *)

Lemma str_eqb_eq (a b : jsstring) : str_eqb a b = true <-> a = b.
Proof.
  revert b; induction a as [|x a IH]; intros [|y b]; simpl;
    try (split; (reflexivity || discriminate)).
  rewrite andb_true_iff, N.eqb_eq, IH.
  split; [intros [-> ->]; reflexivity | intros E; inversion E; auto].
Qed.

Lemma str_eqb_refl (a : jsstring) : str_eqb a a = true.
Proof. apply str_eqb_eq; reflexivity. Qed.

Lemma str_eqb_neq (a b : jsstring) : str_eqb a b = false <-> a <> b.
Proof.
  rewrite <- str_eqb_eq. destruct (str_eqb a b); split; intros H;
    congruence.
Qed.

(** ** The matcher *)

(** A token with an entry in the registry reads that entry's ChainConfig
    from [NETWORK_MAP]. *)
Lemma NETWORK_MAP_get_own (key : jsstring) (c : ChainConfig) :
  registry key = Some c -> NETWORK_MAP_get key = Some (OwnConfig c).
Proof. unfold registry, NETWORK_MAP_get; intros ->; reflexivity. Qed.

(** A read that yields a ChainConfig found it in the registry. *)
Lemma NETWORK_MAP_get_config (key : jsstring) (c : ChainConfig) :
  NETWORK_MAP_get key = Some (OwnConfig c) <-> registry key = Some c.
Proof.
  unfold registry, NETWORK_MAP_get.
  destruct (own_lookup key NETWORK_MAP) as [c'|].
  - split; intros E; inversion E; reflexivity.
  - destruct (existsb _ _); split; discriminate.
Qed.

(** Away from the names of [Object.prototype], [NETWORK_MAP[key]] is the
    registry. *)
Lemma NETWORK_MAP_get_plain (key : jsstring) :
  ~ In key Object_prototype_names ->
  NETWORK_MAP_get key = option_map OwnConfig (registry key).
Proof.
  intros Hn. unfold registry, NETWORK_MAP_get.
  destruct (own_lookup key NETWORK_MAP); [reflexivity|].
  destruct (existsb (str_eqb key) Object_prototype_names) eqn:E; [|reflexivity].
  apply existsb_exists in E. destruct E as (n & Hin & Heq).
  apply str_eqb_eq in Heq. subst n. contradiction.
Qed.

(** The loop of the matcher returns the leftmost option whose token reads
    as something from [NETWORK_MAP], with what was read. *)
Lemma first_supported_leftmost (before after : list X402Option)
    (option : X402Option) (config : registry_value) :
  (forall o, In o before -> NETWORK_MAP_get (network o) = None) ->
  NETWORK_MAP_get (network option) = Some config ->
  first_supported (before ++ option :: after) = Some (option, config).
Proof.
  intros Hb Ho. induction before as [|o before IH]; simpl.
  - rewrite Ho. reflexivity.
  - rewrite (Hb o (or_introl eq_refl)). apply IH.
    intros o' Hin. apply Hb. right. exact Hin.
Qed.

Lemma first_supported_none (accepts : list X402Option) :
  (forall o, In o accepts -> NETWORK_MAP_get (network o) = None) <->
  first_supported accepts = None.
Proof.
  induction accepts as [|o accepts IH]; simpl.
  - split; [reflexivity | intros _ o []].
  - split.
    + intros H. rewrite (H o (or_introl eq_refl)). apply IH.
      intros o' Hin. apply H. right. exact Hin.
    + destruct (NETWORK_MAP_get (network o)) eqn:E; [discriminate|].
      intros H o' [<- | Hin]; [exact E | apply IH; assumption].
Qed.

(** What the matcher selects is an element of the list whose token reads
    as the value it is paired with. *)
Lemma first_supported_sound (accepts : list X402Option)
    (option : X402Option) (config : registry_value) :
  first_supported accepts = Some (option, config) ->
  exists before after,
    accepts = before ++ option :: after
    /\ (forall o, In o before -> NETWORK_MAP_get (network o) = None)
    /\ NETWORK_MAP_get (network option) = Some config.
Proof.
  induction accepts as [|o accepts IH]; simpl; [discriminate|].
  destruct (NETWORK_MAP_get (network o)) as [v|] eqn:E.
  - intros H. inversion H; subst. exists [], accepts.
    split; [reflexivity | split; [intros ? [] | exact E]].
  - intros H. destruct (IH H) as (before & after & -> & Hb & Ho).
    exists (o :: before), after. split; [reflexivity | split; [|exact Ho]].
    intros o' [<- | Hin]; [exact E | apply Hb; exact Hin].
Qed.

(** X1: the leftmost-match law, where no offered token is a name of
    [Object.prototype]: the first option with a registry entry is
    returned, whatever stands after it, with the entry's ChainConfig. *)
Lemma findBestPaymentOption_leftmost (before after : list X402Option)
    (option : X402Option) (c : ChainConfig) :
  (forall o, In o before -> ~ In (network o) Object_prototype_names) ->
  (forall o, In o before -> registry (network o) = None) ->
  registry (network option) = Some c ->
  findBestPaymentOption (before ++ option :: after)
  = Ok (option, OwnConfig c).
Proof.
  intros Hp Hb Ho. unfold findBestPaymentOption.
  rewrite (first_supported_leftmost before after option (OwnConfig c));
    [reflexivity| |apply NETWORK_MAP_get_own; exact Ho].
  intros o Hin. rewrite NETWORK_MAP_get_plain by (apply Hp; exact Hin).
  rewrite (Hb o Hin). reflexivity.
Qed.

(** X2: the failure of the matcher, where no offered token is a name of
    [Object.prototype]: with no registry entry for any option it throws,
    and the message lists the offered tokens in order. *)
Lemma findBestPaymentOption_unsupported (accepts : list X402Option) :
  (forall o, In o accepts -> ~ In (network o) Object_prototype_names) ->
  (forall o, In o accepts -> registry (network o) = None) ->
  findBestPaymentOption accepts
  = Err (new_Error
           (js "No supported payment network found. Server accepts: "
            ++ join (js ", ") (map network accepts))).
Proof.
  intros Hp Hr. unfold findBestPaymentOption.
  replace (first_supported accepts) with (@None (X402Option * registry_value));
    [reflexivity|].
  symmetry. apply first_supported_none. intros o Hin.
  rewrite NETWORK_MAP_get_plain by (apply Hp; exact Hin).
  rewrite (Hr o Hin). reflexivity.
Qed.

(** C1, at the input where the code departs from it: the server offers a
    token named like a member of [Object.prototype] before a supported
    one.  The read [NETWORK_MAP[option.network]] finds the inherited
    member, which is truthy, and the matcher returns that option, paired
    with the member instead of a ChainConfig; the first option with a
    registry entry is the second. *)
Theorem findBestPaymentOption_inherited_first :
  registry (js "toString") = None
  /\ registry (js "base-sepolia") = Some base_sepolia
  /\ findBestPaymentOption
       [usdc_option (js "toString"); usdc_option (js "base-sepolia")]
     = Ok (usdc_option (js "toString"), Inherited (js "toString")).
Proof. repeat split. Qed.

(** C2, at the input where the code departs from it: the only offered
    token has no registry entry but names a member of [Object.prototype].
    The matcher does not throw; it selects the unsupported option. *)
Theorem findBestPaymentOption_inherited_only :
  (forall o, In o [usdc_option (js "constructor")] ->
             registry (network o) = None)
  /\ findBestPaymentOption [usdc_option (js "constructor")]
     = Ok (usdc_option (js "constructor"), Inherited (js "constructor")).
Proof.
  split; [|reflexivity].
  intros o [<- | []]. reflexivity.
Qed.

(** ** The payment token *)

Ltac split_tests :=
  repeat (match goal with
          | |- context [N.ltb ?a ?b] => destruct (N.ltb_spec a b)
          | |- context [N.leb ?a ?b] => destruct (N.leb_spec a b)
          | |- context [N.eqb ?a ?b] => destruct (N.eqb_spec a b)
          end; cbn [andb orb negb]).

Ltac div_lia := zify; Z.to_euclidean_division_equations; lia.

Lemma b64_value_char (v : N) :
  (v < 64)%N -> b64_value (b64_char v) = Some v.
Proof.
  intros Hv. unfold b64_char.
  destruct (N.ltb_spec v 26); [|destruct (N.ltb_spec v 52);
    [|destruct (N.ltb_spec v 62); [|destruct (N.eqb_spec v 62)]]];
    unfold b64_value; split_tests; try lia; f_equal; lia.
Qed.

Lemma b64_char_not_pad (v : N) : N.eqb (b64_char v) 61 = false.
Proof.
  unfold b64_char.
  destruct (N.ltb_spec v 26); [|destruct (N.ltb_spec v 52);
    [|destruct (N.ltb_spec v 62); [|destruct (N.eqb_spec v 62)]]];
    apply N.eqb_neq; lia.
Qed.

Lemma b64_char_latin1 (v : N) : (v < 64)%N -> (b64_char v < 256)%N.
Proof. intros Hv. unfold b64_char. split_tests; lia. Qed.

Lemma atob_group (w x y z : N) (rest : jsstring) :
  atob (w :: x :: y :: z :: rest)
  = match b64_value w, b64_value x with
    | Some p, Some q =>
        if N.eqb y 61 then
          match N.eqb z 61, rest with
          | true, [] => Some [p * 4 + q / 16]%N
          | _, _ => None
          end
        else
          match b64_value y with
          | Some r =>
              if N.eqb z 61 then
                match rest with
                | [] => Some [p * 4 + q / 16; (q mod 16) * 16 + r / 4]%N
                | _ => None
                end
              else
                match b64_value z, atob rest with
                | Some t, Some tail =>
                    Some ((p * 4 + q / 16) :: ((q mod 16) * 16 + r / 4)
                          :: ((r mod 4) * 64 + t) :: tail)%N
                | _, _ => None
                end
          | None => None
          end
    | _, _ => None
    end.
Proof. reflexivity. Qed.

(** Base64 loses nothing: [atob] undoes [b64_encode] on bytes. *)
Lemma atob_b64_encode (bytes : list N) :
  latin1 bytes -> atob (b64_encode bytes) = Some bytes.
Proof.
  assert (G : forall n bytes, (List.length bytes <= n)%nat -> latin1 bytes ->
                              atob (b64_encode bytes) = Some bytes).
  { clear bytes. induction n as [|n IH]; intros bytes Hlen Hl.
    - destruct bytes; [reflexivity | simpl in Hlen; lia].
    - destruct bytes as [|a [|b [|c rest]]]; [reflexivity| | |].
      + inversion Hl as [|? ? Ha _]; subst.
        cbn [b64_encode]. rewrite atob_group.
        rewrite !b64_value_char by div_lia.
        change (N.eqb 61 61) with true. cbv beta iota.
        repeat f_equal. div_lia.
      + inversion Hl as [|? ? Ha Hl1]; subst.
        inversion Hl1 as [|? ? Hb _]; subst.
        cbn [b64_encode]. rewrite atob_group.
        rewrite !b64_value_char by div_lia.
        rewrite b64_char_not_pad. change (N.eqb 61 61) with true.
        cbv beta iota. repeat f_equal; div_lia.
      + inversion Hl as [|? ? Ha Hl1]; subst.
        inversion Hl1 as [|? ? Hb Hl2]; subst.
        inversion Hl2 as [|? ? Hc Hl3]; subst.
        cbn [b64_encode List.app]. rewrite atob_group.
        rewrite !b64_value_char by div_lia.
        rewrite !b64_char_not_pad.
        rewrite IH by (try assumption; simpl in Hlen |- *; lia).
        repeat f_equal; div_lia. }
  apply (G (List.length bytes)). lia.
Qed.

Lemma b64_encode_latin1 (bytes : list N) :
  latin1 bytes -> latin1 (b64_encode bytes).
Proof.
  assert (G : forall n bytes, (List.length bytes <= n)%nat -> latin1 bytes ->
                              latin1 (b64_encode bytes)).
  { clear bytes. induction n as [|n IH]; intros bytes Hlen Hl.
    - destruct bytes; [constructor | simpl in Hlen; lia].
    - destruct bytes as [|a [|b [|c rest]]]; [constructor| | |].
      + inversion Hl as [|? ? Ha _]; subst.
        cbn [b64_encode].
        repeat (constructor; try (apply b64_char_latin1; div_lia); try lia).
      + inversion Hl as [|? ? Ha Hl1]; subst.
        inversion Hl1 as [|? ? Hb _]; subst.
        cbn [b64_encode].
        repeat (constructor; try (apply b64_char_latin1; div_lia); try lia).
      + inversion Hl as [|? ? Ha Hl1]; subst.
        inversion Hl1 as [|? ? Hb Hl2]; subst.
        inversion Hl2 as [|? ? Hc Hl3]; subst.
        cbn [b64_encode List.app].
        repeat (constructor; try (apply b64_char_latin1; div_lia)).
        apply IH; [simpl in Hlen |- *; lia | assumption]. }
  apply (G (List.length bytes)). lia.
Qed.

Lemma latin1_forallb (s : jsstring) :
  latin1 s <-> forallb (fun u => (u <? 256)%N) s = true.
Proof.
  unfold latin1. rewrite forallb_forall, Forall_forall.
  split; intros H u Hin; specialize (H u Hin).
  - apply N.ltb_lt. exact H.
  - apply N.ltb_lt in H. exact H.
Qed.

Lemma btoa_latin1 (s : jsstring) : latin1 s -> btoa s = Ok (b64_encode s).
Proof.
  intros H. unfold btoa. apply latin1_forallb in H. rewrite H. reflexivity.
Qed.

(** [btoa] throws exactly on the strings with a code unit above 255. *)
Lemma btoa_throws (s : jsstring) :
  ~ latin1 s <-> exists e, btoa s = Err e.
Proof.
  unfold btoa. rewrite latin1_forallb.
  destruct (forallb _ s); split.
  - intros H. exfalso. apply H. reflexivity.
  - intros [e H]. discriminate.
  - intros _. eexists. reflexivity.
  - intros _. discriminate.
Qed.

Lemma hex_value_digit (v : N) :
  (v < 16)%N -> hex_value (hex_digit v) = Some v.
Proof.
  intros Hv. unfold hex_digit.
  destruct (N.ltb_spec v 10); unfold hex_value; split_tests; try lia;
    f_equal; lia.
Qed.

Lemma hex4_unicode_escape (u : N) (rest : jsstring) :
  (u < 65536)%N ->
  exists h1 h2 h3 h4,
    unicode_escape u ++ rest = 92%N :: 117%N :: h1 :: h2 :: h3 :: h4 :: rest
    /\ hex4 h1 h2 h3 h4 = Some u.
Proof.
  intros Hu. do 4 eexists. split; [reflexivity|].
  unfold hex4. rewrite !hex_value_digit by div_lia.
  f_equal. div_lia.
Qed.

Lemma parse_literal (u : N) (rest : jsstring) :
  N.eqb u 34 = false -> N.eqb u 92 = false -> (u <? 32)%N = false ->
  parse_string_chars (u :: rest) = cons_parsed u (parse_string_chars rest).
Proof.
  intros H1 H2 H3. cbn [parse_string_chars]. rewrite H1, H2, H3.
  unfold cons_parsed. destruct (parse_string_chars rest) as [[str tl]|];
    reflexivity.
Qed.

Lemma parse_unicode_escape (h1 h2 h3 h4 v : N) (rest : jsstring) :
  hex4 h1 h2 h3 h4 = Some v ->
  parse_string_chars (92%N :: 117%N :: h1 :: h2 :: h3 :: h4 :: rest)
  = cons_parsed v (parse_string_chars rest).
Proof.
  intros H. cbn [parse_string_chars].
  change (N.eqb 92 34) with false. change (N.eqb 92 92) with true.
  change (N.eqb 117 117) with true. cbv beta iota. rewrite H.
  unfold cons_parsed. destruct (parse_string_chars rest) as [[str tl]|];
    reflexivity.
Qed.

Lemma parse_short_escape (e v : N) (rest : jsstring) :
  N.eqb e 117 = false -> unescape e = Some v ->
  parse_string_chars (92%N :: e :: rest)
  = cons_parsed v (parse_string_chars rest).
Proof.
  intros H1 H2. cbn [parse_string_chars].
  change (N.eqb 92 34) with false. change (N.eqb 92 92) with true.
  cbv beta iota. rewrite H1, H2.
  unfold cons_parsed. destruct (parse_string_chars rest) as [[str tl]|];
    reflexivity.
Qed.

(** The parser reads back each character as [QuoteJSONString] wrote it. *)
Lemma parse_quote_unit (u : N) (rest : jsstring) :
  parse_string_chars (quote_unit u ++ rest)
  = cons_parsed u (parse_string_chars rest).
Proof.
  unfold quote_unit.
  destruct (N.eqb_spec u 8) as [->|N8];
    [apply parse_short_escape; reflexivity|].
  destruct (N.eqb_spec u 9) as [->|N9];
    [apply parse_short_escape; reflexivity|].
  destruct (N.eqb_spec u 10) as [->|N10];
    [apply parse_short_escape; reflexivity|].
  destruct (N.eqb_spec u 12) as [->|N12];
    [apply parse_short_escape; reflexivity|].
  destruct (N.eqb_spec u 13) as [->|N13];
    [apply parse_short_escape; reflexivity|].
  destruct (N.eqb_spec u 34) as [->|N34];
    [apply parse_short_escape; reflexivity|].
  destruct (N.eqb_spec u 92) as [->|N92];
    [apply parse_short_escape; reflexivity|].
  destruct ((u <? 32)%N || is_leading_surrogate u || is_trailing_surrogate u)
    eqn:E.
  - assert (Hu : (u < 65536)%N).
    { unfold is_leading_surrogate, is_trailing_surrogate in E.
      rewrite !orb_true_iff, !andb_true_iff, N.ltb_lt, !N.leb_le in E. lia. }
    destruct (hex4_unicode_escape u rest Hu) as (h1 & h2 & h3 & h4 & -> & H).
    apply parse_unicode_escape. exact H.
  - rewrite !orb_false_iff in E. destruct E as [[E _] _].
    apply parse_literal; [apply N.eqb_neq| apply N.eqb_neq |]; assumption.
Qed.

Lemma quote_units_pair (u v : N) (rest : jsstring) :
  quote_units (u :: v :: rest)
  = if is_leading_surrogate u && is_trailing_surrogate v
    then u :: v :: quote_units rest
    else quote_unit u ++ quote_units (v :: rest).
Proof. reflexivity. Qed.

Lemma parse_surrogate (u : N) (rest : jsstring) :
  is_leading_surrogate u || is_trailing_surrogate u = true ->
  parse_string_chars (u :: rest) = cons_parsed u (parse_string_chars rest).
Proof.
  intros H. unfold is_leading_surrogate, is_trailing_surrogate in H.
  rewrite orb_true_iff, !andb_true_iff, !N.leb_le in H.
  apply parse_literal; [apply N.eqb_neq | apply N.eqb_neq | apply N.ltb_ge];
    lia.
Qed.

(** [JSON.parse] undoes [QuoteJSONString], on every string. *)
Lemma parse_quote_units (s tl : jsstring) :
  parse_string_chars (quote_units s ++ 34%N :: tl) = Some (s, tl).
Proof.
  assert (G : forall n s, (List.length s <= n)%nat ->
                          parse_string_chars (quote_units s ++ 34%N :: tl)
                          = Some (s, tl)).
  { clear s. induction n as [|n IH]; intros s Hlen.
    - destruct s; [reflexivity | simpl in Hlen; lia].
    - destruct s as [|u [|v rest]]; [reflexivity| |].
      + cbn [quote_units]. rewrite parse_quote_unit. reflexivity.
      + rewrite quote_units_pair.
        destruct (is_leading_surrogate u && is_trailing_surrogate v) eqn:E.
        * apply andb_true_iff in E. destruct E as [Eu Ev].
          cbn [List.app].
          rewrite parse_surrogate by (rewrite Eu; reflexivity).
          rewrite parse_surrogate by (rewrite Ev; apply orb_true_r).
          rewrite IH by (simpl in Hlen |- *; lia). reflexivity.
        * rewrite <- app_assoc, parse_quote_unit.
          rewrite IH by (simpl in Hlen |- *; lia). reflexivity. }
  apply (G (List.length s)). lia.
Qed.

Lemma quote_unit_latin1 (u : N) : (u < 256)%N -> latin1 (quote_unit u).
Proof.
  intros Hu. unfold quote_unit, latin1.
  repeat match goal with
         | |- context [if N.eqb u ?k then _ else _] =>
             destruct (N.eqb u k); [repeat constructor|]
         end.
  destruct (_ || _ || _); [|repeat constructor; assumption].
  unfold unicode_escape, hex_digit.
  repeat constructor; split_tests; div_lia.
Qed.

Lemma latin1_app (a b : jsstring) : latin1 a -> latin1 b -> latin1 (a ++ b).
Proof. intros Ha Hb. apply Forall_app. split; assumption. Qed.

Lemma quote_units_latin1 (s : jsstring) : latin1 s -> latin1 (quote_units s).
Proof.
  assert (G : forall n s, (List.length s <= n)%nat -> latin1 s ->
                          latin1 (quote_units s)).
  { clear s. induction n as [|n IH]; intros s Hlen Hl.
    - destruct s; [constructor | simpl in Hlen; lia].
    - destruct s as [|u [|v rest]]; [constructor| |].
      + inversion Hl; subst. apply quote_unit_latin1. assumption.
      + inversion Hl as [|? ? Hu Hl1]; subst.
        inversion Hl1 as [|? ? Hv Hl2]; subst.
        rewrite quote_units_pair.
        destruct (is_leading_surrogate u && is_trailing_surrogate v).
        * constructor; [assumption|]. constructor; [assumption|].
          apply IH; [simpl in Hlen |- *; lia | assumption].
        * apply latin1_app; [apply quote_unit_latin1; assumption|].
          apply IH; [simpl in Hlen |- *; lia | assumption]. }
  apply (G (List.length s)). lia.
Qed.

Lemma uint_digits_latin1 (d : uint) : latin1 (uint_digits d).
Proof. induction d; simpl; constructor; (lia || assumption). Qed.

Lemma Z_to_string_latin1 (z : Z) : latin1 (Z_to_string z).
Proof.
  unfold Z_to_string. destruct (Z.to_int z).
  - apply uint_digits_latin1.
  - constructor; [lia | apply uint_digits_latin1].
Qed.

(** The digits are read back as they were written, up to the first
    character that is no digit. *)
Lemma read_uint_digits (d : uint) (tl : jsstring) :
  match tl with [] => True | u :: _ => is_digit u = false end ->
  read_uint (uint_digits d ++ tl) = (d, tl).
Proof.
  intros Htl. induction d; cbn [uint_digits List.app read_uint];
    try (change (is_digit _) with true; cbv beta iota; rewrite IHd;
         reflexivity).
  destruct tl as [|u tl]; [reflexivity|].
  cbn [read_uint]. rewrite Htl. reflexivity.
Qed.

Lemma uint_digits_head (d : uint) :
  d <> Nil ->
  exists u rest, uint_digits d = u :: rest /\ is_digit u = true.
Proof.
  destruct d; [congruence|..]; intros _; do 2 eexists;
    (split; [reflexivity | reflexivity]).
Qed.

Lemma to_int_nonnil (z : Z) :
  match Z.to_int z with Pos d => d <> Nil | Neg d => d <> Nil end.
Proof.
  destruct z; simpl; [discriminate | |];
    apply DecimalPos.Unsigned.to_uint_nonnil.
Qed.

Lemma read_int_Z_to_string (z : Z) (tl : jsstring) :
  match tl with [] => True | u :: _ => is_digit u = false end ->
  read_int (Z_to_string z ++ tl) = Some (z, tl).
Proof.
  intros Htl. pose proof (to_int_nonnil z) as Hn.
  pose proof (DecimalZ.of_to z) as Hz.
  unfold Z_to_string. destruct (Z.to_int z) as [d|d].
  - destruct (uint_digits_head d Hn) as (u & rest & E & Hu).
    unfold read_int. rewrite E. cbn [List.app].
    assert (N45 : N.eqb u 45 = false).
    { unfold is_digit in Hu. apply andb_true_iff in Hu.
      rewrite !N.leb_le in Hu. apply N.eqb_neq. lia. }
    rewrite N45. change (u :: rest ++ tl) with ((u :: rest) ++ tl).
    rewrite <- E, read_uint_digits by exact Htl.
    destruct d; [congruence|..]; rewrite <- Hz; reflexivity.
  - unfold read_int. cbn [List.app]. change (N.eqb 45 45) with true.
    cbv beta iota. rewrite read_uint_digits by exact Htl.
    destruct d; [congruence|..]; rewrite <- Hz; reflexivity.
Qed.

Lemma strip_prefix_app (p s : jsstring) : strip_prefix p (p ++ s) = Some s.
Proof.
  induction p as [|a p IH]; [destruct s; reflexivity|].
  cbn [List.app strip_prefix]. rewrite N.eqb_refl. exact IH.
Qed.

Lemma stringify_payload_shape (txHash : jsstring) (chainId : Z) :
  stringify_payload txHash (Some chainId)
  = (js "{" ++ QuoteJSONString (js "hash") ++ js ":" ++ [34%N])
    ++ quote_units txHash
    ++ 34%N :: (js "," ++ QuoteJSONString (js "chainId") ++ js ":")
    ++ Z_to_string chainId ++ js "}".
Proof.
  unfold stringify_payload, QuoteJSONString. cbn [join].
  rewrite <- !app_assoc. reflexivity.
Qed.

Lemma stringify_payload_shape_undefined (txHash : jsstring) :
  stringify_payload txHash None
  = (js "{" ++ QuoteJSONString (js "hash") ++ js ":" ++ [34%N])
    ++ quote_units txHash ++ 34%N :: js "}".
Proof.
  unfold stringify_payload, QuoteJSONString. cbn [join].
  rewrite <- !app_assoc. reflexivity.
Qed.

(** The JSON text of a payload parses back to the hash and the chain id
    it was written from. *)
Lemma parse_stringify_payload (txHash : jsstring) (chainId : option Z) :
  parse_payload (stringify_payload txHash chainId) = Some (txHash, chainId).
Proof.
  destruct chainId as [n|].
  - rewrite stringify_payload_shape. unfold parse_payload.
    rewrite strip_prefix_app, parse_quote_units.
    change (str_eqb ((js "," ++ QuoteJSONString (js "chainId") ++ js ":")
                       ++ Z_to_string n ++ js "}") (js "}")) with false.
    cbv beta iota. rewrite strip_prefix_app.
    rewrite read_int_Z_to_string by reflexivity.
    reflexivity.
  - rewrite stringify_payload_shape_undefined. unfold parse_payload.
    rewrite strip_prefix_app, parse_quote_units. reflexivity.
Qed.

Lemma stringify_payload_latin1 (txHash : jsstring) (chainId : option Z) :
  latin1 txHash -> latin1 (stringify_payload txHash chainId).
Proof.
  intros Hl.
  assert (Hs : forall s, latin1 (js s)).
  { intros s. unfold js, latin1. apply Forall_forall. intros u Hin.
    apply in_map_iff in Hin. destruct Hin as (a & <- & _).
    pose proof (N_ascii_bounded a). lia. }
  unfold stringify_payload, QuoteJSONString.
  destruct chainId as [n|]; cbn [join];
    repeat apply latin1_app;
    first [ apply Hs
          | apply Z_to_string_latin1
          | apply quote_units_latin1; first [exact Hl | apply Hs]
          | repeat constructor ].
Qed.

(** On a hash within Latin-1 [createPaymentToken] returns the Base64 text
    of the payload's JSON, and that token decodes to the hash and the
    chain id. *)
Lemma createPaymentToken_decodes (txHash : jsstring) (chainId : option Z) :
  latin1 txHash ->
  createPaymentToken txHash chainId
  = Ok (b64_encode (stringify_payload txHash chainId))
  /\ decodePaymentToken (b64_encode (stringify_payload txHash chainId))
     = Some (txHash, chainId).
Proof.
  intros Hl. pose proof (stringify_payload_latin1 txHash chainId Hl) as Hp.
  split.
  - unfold createPaymentToken. apply btoa_latin1. exact Hp.
  - unfold decodePaymentToken. rewrite atob_b64_encode by exact Hp.
    apply parse_stringify_payload.
Qed.

(** Where [createPaymentToken] returns at all, it returns the Base64 text
    of the payload's JSON. *)
Lemma createPaymentToken_ok (txHash token : jsstring) (chainId : option Z) :
  createPaymentToken txHash chainId = Ok token ->
  token = b64_encode (stringify_payload txHash chainId).
Proof.
  unfold createPaymentToken, btoa.
  destruct (forallb _ _); intros H; inversion H; reflexivity.
Qed.

(** C5: for every transaction hash (a string of hexadecimal digits, and so
    within Latin-1, which is what [btoa] accepts) and every chain id (a
    safe integer), [createPaymentToken] returns the Base64 encoding of the
    JSON text of [{hash, chainId}]; decoding the token gives back the hash
    and the chain id, and encoding what was decoded gives the same token
    again.  Tokens of different payloads differ. *)
Theorem createPaymentToken_round_trip (txHash : jsstring) (chainId : Z)
    (Hhash : latin1 txHash) (Hid : safe_integer chainId) :
  exists token,
    createPaymentToken txHash (Some chainId) = Ok token
    /\ token
       = b64_encode
           (js "{" ++ QuoteJSONString (js "hash") ++ js ":"
            ++ QuoteJSONString txHash ++ js ","
            ++ QuoteJSONString (js "chainId") ++ js ":"
            ++ Z_to_string chainId ++ js "}")
    /\ decodePaymentToken token = Some (txHash, Some chainId)
    /\ (forall hash id,
          decodePaymentToken token = Some (hash, id) ->
          createPaymentToken hash id = Ok token)
    /\ (forall txHash' chainId',
          latin1 txHash' ->
          createPaymentToken txHash' (Some chainId') = Ok token ->
          txHash' = txHash /\ chainId' = chainId).
Proof.
  destruct (createPaymentToken_decodes txHash (Some chainId) Hhash)
    as [Henc Hdec].
  exists (b64_encode (stringify_payload txHash (Some chainId))).
  split; [exact Henc|]. split.
  - f_equal. unfold stringify_payload. cbn [join].
    rewrite <- !app_assoc. reflexivity.
  - split; [exact Hdec|]. split.
    + intros hash id H. rewrite Hdec in H. inversion H; subst. exact Henc.
    + intros txHash' chainId' Hl' H.
      destruct (createPaymentToken_decodes txHash' (Some chainId') Hl')
        as [Henc' Hdec'].
      assert (E : b64_encode (stringify_payload txHash' (Some chainId'))
                  = b64_encode (stringify_payload txHash (Some chainId)))
        by congruence.
      rewrite E, Hdec in Hdec'. split; congruence.
Qed.

(** The token of scenario A. *)
Lemma createPaymentToken_round_trip_witness :
  exists token,
    createPaymentToken (js "0xabc") (Some 84532%Z) = Ok token
    /\ token
       = b64_encode
           (js "{" ++ QuoteJSONString (js "hash") ++ js ":"
            ++ QuoteJSONString (js "0xabc") ++ js ","
            ++ QuoteJSONString (js "chainId") ++ js ":"
            ++ Z_to_string 84532 ++ js "}")
    /\ decodePaymentToken token = Some (js "0xabc", Some 84532%Z)
    /\ (forall hash id,
          decodePaymentToken token = Some (hash, id) ->
          createPaymentToken hash id = Ok token)
    /\ (forall txHash' chainId',
          latin1 txHash' ->
          createPaymentToken txHash' (Some chainId') = Ok token ->
          txHash' = js "0xabc" /\ chainId' = 84532%Z).
Proof.
  apply (createPaymentToken_round_trip (js "0xabc") 84532).
  - unfold latin1, js; simpl. repeat constructor.
  - unfold safe_integer. lia.
Defined.

(** The token of scenario A, written out. *)
Example createPaymentToken_scenario_A :
  createPaymentToken (js "0xabc") (Some 84532%Z)
  = Ok (js "eyJoYXNoIjoiMHhhYmMiLCJjaGFpbklkIjo4NDUzMn0=").
Proof. reflexivity. Qed.

(** A hash with a character outside Latin-1 makes [btoa], and with it
    [createPaymentToken], throw. *)
Example createPaymentToken_outside_latin1 :
  exists e, createPaymentToken [20013%N] (Some 1%Z) = Err e.
Proof. eexists. reflexivity. Qed.

(** ** Running programs *)

Lemma run_bind {A B} (env : Env) (p : prog A) (f : A -> prog B) (w : world) :
  run env (bind p f) w
  = match run env p w with
    | (Ok a, w1) => run env (f a) w1
    | (Err e, w1) => (Err e, w1)
    end.
Proof.
  revert w. induction p as [a|e|c k IH|k IH|a k IH]; intros w; simpl; auto.
Qed.

Lemma run_try_catch {A} (env : Env) (p : prog A) (h : js_error -> prog A)
    (w : world) :
  run env (try_catch p h) w
  = match run env p w with
    | (Ok a, w1) => (Ok a, w1)
    | (Err e, w1) => run env (h e) w1
    end.
Proof.
  revert w. induction p as [a|e|c k IH|k IH|a k IH]; intros w; simpl; auto.
Qed.

Lemma run_finally {A} (env : Env) (p : prog A) (q : prog unit) (w : world) :
  run env (finally p q) w
  = match run env p w with
    | (r, w1) =>
        match run env q w1 with
        | (Ok _, w2) => (r, w2)
        | (Err e, w2) => (Err e, w2)
        end
    end.
Proof.
  revert w. induction p as [a|e|c k IH|k IH|a k IH]; intros w; simpl; auto.
  - rewrite run_bind. destruct (run env q w) as [[[]|e] w2]; reflexivity.
  - rewrite run_bind. destruct (run env q w) as [[[]|e'] w2]; reflexivity.
Qed.

Lemma run_await (env : Env) (c : call) (w : world) :
  run env (await c) w = (answer env (history w) c, record (Called c) w).
Proof. simpl. destruct (answer env (history w) c); reflexivity. Qed.

(** Rewrite the next [await] into the answer of the environment. *)
Ltac run_await :=
  match goal with
  | |- context [@run ?T ?env (await ?c) ?w] =>
      change (@run T env (await c) w) with (@run (reply c) env (await c) w);
      rewrite (run_await env c w)
  end.

Lemma run_lift {A} (env : Env) (r : result A) (w : world) :
  run env (lift r) w = (r, w).
Proof. destruct r; reflexivity. Qed.

Lemma run_effect (env : Env) (a : action) (w : world) :
  run env (effect a) w = (Ok tt, perform a w).
Proof. reflexivity. Qed.

Lemma history_record (ev : event) (w : world) :
  history (record ev w) = history w ++ [ev].
Proof. reflexivity. Qed.

Lemma history_perform (a : action) (w : world) :
  history (perform a w) = history w ++ [Did a].
Proof. destruct a; reflexivity. Qed.

Lemma calls_app (h1 h2 : list event) : calls (h1 ++ h2) = calls h1 ++ calls h2.
Proof.
  induction h1 as [|[c|a] h1 IH]; simpl; [reflexivity| |exact IH].
  rewrite IH. reflexivity.
Qed.

Lemma calls_record (c : call) (w : world) :
  calls (history (record (Called c) w)) = calls (history w) ++ [c].
Proof. rewrite history_record, calls_app. reflexivity. Qed.

Lemma calls_perform (a : action) (w : world) :
  calls (history (perform a w)) = calls (history w).
Proof. rewrite history_perform, calls_app. simpl. apply app_nil_r. Qed.

(** ** ensureNetwork *)

(** Every run of [ensureNetwork], by what the wallet answers. *)
Lemma ensureNetwork_run (env : Env) (config : registry_value) (w : world) :
  let w1 := record (Called provider_getNetwork) w in
  let switch :=
    provider_send (wallet_switchEthereumChain (get_chainIdHex config)) in
  let w2 := record (Called switch) w1 in
  let add :=
    provider_send
      (wallet_addEthereumChain (get_chainIdHex config) (rest_params config)) in
  run env (ensureNetwork config) w
  = match answer env (history w) provider_getNetwork with
    | Err e => (Err e, w1)
    | Ok chainId =>
        if same_chain chainId (get_chainIdDec config) then (Ok tt, w1)
        else
          match answer env (history w1) switch with
          | Ok done => (Ok done, w2)
          | Err switchError =>
              if is_4902 switchError
              then (answer env (history w2) add, record (Called add) w2)
              else (Err switchError, w2)
          end
    end.
Proof.
  intros w1 switch w2 add. unfold ensureNetwork.
  rewrite run_bind. run_await. fold w1.
  destruct (answer env (history w) provider_getNetwork) as [chainId|e];
    [|reflexivity].
  destruct (same_chain chainId (get_chainIdDec config)); [reflexivity|].
  rewrite run_try_catch. run_await. fold switch w2.
  destruct (answer env (history w1) switch) as [done|switchError];
    [reflexivity|].
  destruct (is_4902 switchError); [|reflexivity].
  apply (run_await env add w2).
Qed.

(** [ensureNetwork] reads the chain once, first, and otherwise only sends
    requests to the provider. *)
Lemma ensureNetwork_calls (env : Env) (config : registry_value)
    (w w1 : world) (r : result unit) :
  run env (ensureNetwork config) w = (r, w1) ->
  exists sends,
    calls (history w1) = calls (history w) ++ provider_getNetwork :: sends
    /\ Forall (fun c => exists request, c = provider_send request) sends.
Proof.
  rewrite ensureNetwork_run.
  destruct (answer env (history w) provider_getNetwork) as [chainId|e].
  - destruct (same_chain chainId (get_chainIdDec config)).
    + intros H; inversion H; subst. exists []. rewrite calls_record.
      split; [reflexivity | constructor].
    + match goal with
      | |- context [answer env ?h ?c] =>
          destruct (answer env h c) as [done|switchError]
      end.
      * intros H; inversion H; subst. eexists [_].
        rewrite !calls_record, <- app_assoc.
        split; [reflexivity | repeat constructor; eexists; reflexivity].
      * destruct (is_4902 switchError); intros H; inversion H; subst.
        -- eexists [_; _]. rewrite !calls_record, <- !app_assoc.
           split; [reflexivity | repeat constructor; eexists; reflexivity].
        -- eexists [_]. rewrite !calls_record, <- app_assoc.
           split; [reflexivity | repeat constructor; eexists; reflexivity].
  - intros H; inversion H; subst. exists []. rewrite calls_record.
    split; [reflexivity | constructor].
Qed.

(** C6: for a config whose [chainIdDec] is a safe integer, as the number
    of a chain is, [ensureNetwork] first reads the wallet's chain id.
    When it equals the config's [chainIdDec] the function returns after
    that one call.  Otherwise it sends [wallet_switchEthereumChain] with [chainIdHex]:
    when the switch succeeds it returns; when the switch fails with code
    4902, in [code] or in [error.code], it sends
    [wallet_addEthereumChain] with [chainIdHex] and the rest of the
    config, and the outcome of that request is its own, with no call
    after it; any other switch error is thrown on to the caller, again
    with no call after it. *)
Theorem ensureNetwork_steps (env : Env) (config : ChainConfig) (w : world)
    (chainId : Z)
    (Hsafe : safe_integer (chainIdDec config))
    (Hread : answer env (history w) provider_getNetwork = Ok chainId) :
  let w1 := record (Called provider_getNetwork) w in
  let switch :=
    provider_send (wallet_switchEthereumChain (Some (chainIdHex config))) in
  let w2 := record (Called switch) w1 in
  let add :=
    provider_send
      (wallet_addEthereumChain (Some (chainIdHex config))
         (Some {| p_chainName := chainName config;
                  p_nativeCurrency := nativeCurrency config;
                  p_rpcUrls := rpcUrls config;
                  p_blockExplorerUrls := blockExplorerUrls config |})) in
  (chainId = chainIdDec config ->
   run env (ensureNetwork (OwnConfig config)) w = (Ok tt, w1))
  /\ (chainId <> chainIdDec config ->
      (answer env (history w1) switch = Ok tt ->
       run env (ensureNetwork (OwnConfig config)) w = (Ok tt, w2))
      /\ (forall switchError,
            answer env (history w1) switch = Err switchError ->
            code switchError = Some (CodeNum 4902)
            \/ inner_code switchError = Some (CodeNum 4902) ->
            run env (ensureNetwork (OwnConfig config)) w
            = (answer env (history w2) add, record (Called add) w2))
      /\ (forall switchError,
            answer env (history w1) switch = Err switchError ->
            code switchError <> Some (CodeNum 4902) ->
            inner_code switchError <> Some (CodeNum 4902) ->
            run env (ensureNetwork (OwnConfig config)) w
            = (Err switchError, w2))).
Proof.
  intros w1 switch w2 add.
  pose proof (ensureNetwork_run env (OwnConfig config) w) as R.
  cbv zeta in R. rewrite Hread in R. cbn [get_chainIdDec get_chainIdHex
    rest_params same_chain] in R. fold w1 switch w2 add in R.
  split.
  - intros ->. rewrite Z.eqb_refl in R. exact R.
  - intros Hne. apply Z.eqb_neq in Hne. rewrite Hne in R.
    split; [|split].
    + intros Hs. rewrite Hs in R. exact R.
    + intros e Hs Hc. rewrite Hs in R.
      replace (is_4902 e) with true in R; [exact R|].
      symmetry. unfold is_4902. apply orb_true_iff.
      destruct Hc as [-> | ->]; [left | right]; reflexivity.
    + intros e Hs Hc Hi. rewrite Hs in R.
      replace (is_4902 e) with false in R; [exact R|].
      symmetry. unfold is_4902. apply orb_false_iff.
      split.
      * destruct (code e) as [[n|s]|]; try reflexivity.
        simpl. apply Z.eqb_neq. congruence.
      * destruct (inner_code e) as [[n|s]|]; try reflexivity.
        simpl. apply Z.eqb_neq. congruence.
Qed.

(** The four ways through [ensureNetwork] for Base Sepolia: the wallet is
    on the chain already (one call); it is on chain 1 and switches; it
    does not know the chain (4902) and the chain is added; its user
    refuses the switch (4001), which is thrown on. *)
Lemma ensureNetwork_steps_witness :
  let w1 := record (Called provider_getNetwork) start_world in
  let switch :=
    provider_send (wallet_switchEthereumChain (Some (js "0x14a34"))) in
  let w2 := record (Called switch) w1 in
  let add :=
    provider_send
      (wallet_addEthereumChain (Some (js "0x14a34"))
         (Some {| p_chainName := chainName base_sepolia;
                  p_nativeCurrency := nativeCurrency base_sepolia;
                  p_rpcUrls := rpcUrls base_sepolia;
                  p_blockExplorerUrls := blockExplorerUrls base_sepolia |})) in
  safe_integer (chainIdDec base_sepolia)
  /\ run (scenario 84532 2000000 [usdc_option (js "base-sepolia")]
            (Ok tx_hash) (Ok resource_response))
       (ensureNetwork (OwnConfig base_sepolia)) start_world
     = (Ok tt, w1)
  /\ run switching_wallet (ensureNetwork (OwnConfig base_sepolia)) start_world
     = (Ok tt, w2)
  /\ run unknown_chain_wallet (ensureNetwork (OwnConfig base_sepolia))
       start_world
     = (Ok tt, record (Called add) w2)
  /\ run refusing_wallet (ensureNetwork (OwnConfig base_sepolia)) start_world
     = (Err switch_refused, w2).
Proof.
  intros w1 switch w2 add.
  assert (Hsafe : safe_integer (chainIdDec base_sepolia))
    by (unfold safe_integer; cbn; lia).
  assert (Hne : 1%Z <> chainIdDec base_sepolia) by (cbn; lia).
  split; [exact Hsafe|]. split; [|split; [|split]].
  - apply (proj1 (ensureNetwork_steps
                    (scenario 84532 2000000 [usdc_option (js "base-sepolia")]
                       (Ok tx_hash) (Ok resource_response))
                    base_sepolia start_world 84532 Hsafe eq_refl)).
    reflexivity.
  - apply (proj1 (proj2 (ensureNetwork_steps switching_wallet base_sepolia
                           start_world 1 Hsafe eq_refl) Hne)).
    reflexivity.
  - apply (proj1 (proj2 (proj2 (ensureNetwork_steps unknown_chain_wallet
                                  base_sepolia start_world 1 Hsafe eq_refl)
                           Hne))
             {| code := Some (CodeNum 4902); inner_code := None;
                message := Some (js "Unrecognized chain ID");
                err_response := None |}
             eq_refl (or_introl eq_refl)).
  - apply (proj2 (proj2 (proj2 (ensureNetwork_steps refusing_wallet
                                  base_sepolia start_world 1 Hsafe eq_refl)
                           Hne))
             switch_refused eq_refl);
      discriminate.
Defined.

(** A wallet that does not know the chain: the switch fails with 4902 and
    the chain is added; the chain id is not read again. *)
Example ensureNetwork_unknown_chain :
  calls (history (snd (run unknown_chain_wallet
                         (ensureNetwork (OwnConfig base_sepolia))
                         start_world)))
  = [ provider_getNetwork;
      provider_send (wallet_switchEthereumChain (Some (js "0x14a34")));
      provider_send
        (wallet_addEthereumChain (Some (js "0x14a34"))
           (Some {| p_chainName := js "Base Sepolia";
                    p_nativeCurrency := nativeCurrency base_sepolia;
                    p_rpcUrls := [js "https://sepolia.base.org"];
                    p_blockExplorerUrls :=
                      [js "https://sepolia.basescan.org"] |})) ].
Proof. reflexivity. Qed.

(** ** executePayment *)

(** Every run of [executePayment], by what the wallet and the chain
    answer. *)
Lemma executePayment_run (env : Env) (option : X402Option)
    (config : registry_value) (w : world) :
  run env (executePayment option config) w
  = if negb (ethereum env)
    then (Err (new_Error (js "No crypto wallet found")), w)
    else
      match run env (ensureNetwork config) w with
      | (Err e, w1) => (Err e, w1)
      | (Ok _, w1) =>
          let w2 := record (Called provider_getSigner) w1 in
          match answer env (history w1) provider_getSigner with
          | Err e => (Err e, w2)
          | Ok _ =>
              let w3 := record (Called signer_getAddress) w2 in
              match answer env (history w2) signer_getAddress with
              | Err e => (Err e, w3)
              | Ok userAddress =>
                  let read := token_balanceOf (asset option) userAddress in
                  let w4 := record (Called read) w3 in
                  match answer env (history w3) read with
                  | Err e => (Err e, w4)
                  | Ok balance =>
                      match BigInt (maxAmountRequired option) with
                      | Err e => (Err e, w4)
                      | Ok requiredAmount =>
                          if (balance <? requiredAmount)%Z
                          then (Err (new_Error
                                       (insufficient_message requiredAmount
                                          balance)), w4)
                          else
                            let send :=
                              token_transfer (asset option) (payTo option)
                                (maxAmountRequired option) in
                            let w5 := record (Called send) w4 in
                            match answer env (history w4) send with
                            | Err e => (Err e, w5)
                            | Ok tx =>
                                let w6 := record (Called (tx_wait tx 1)) w5 in
                                match answer env (history w5) (tx_wait tx 1)
                                with
                                | Err e => (Err e, w6)
                                | Ok _ => (Ok tx, w6)
                                end
                            end
                      end
                  end
              end
          end
      end.
Proof.
  unfold executePayment. cbn [run].
  destruct (negb (ethereum env)); [reflexivity|].
  rewrite run_bind.
  destruct (run env (ensureNetwork config) w) as [[[]|e] w1]; [|reflexivity].
  rewrite run_bind. run_await.
  destruct (answer env (history w1) provider_getSigner) as [[]|e];
    [|reflexivity].
  rewrite run_bind. run_await.
  destruct (answer env _ signer_getAddress) as [userAddress|e];
    [|reflexivity].
  rewrite run_bind. run_await.
  destruct (answer env _ (token_balanceOf (asset option) userAddress))
    as [balance|e]; [|reflexivity].
  rewrite run_bind, run_lift.
  destruct (BigInt (maxAmountRequired option)) as [requiredAmount|e];
    [|reflexivity].
  destruct (balance <? requiredAmount)%Z; [reflexivity|].
  rewrite run_bind. run_await.
  destruct (answer env _ (token_transfer _ _ _)) as [tx|e]; [|reflexivity].
  rewrite run_bind. run_await.
  destruct (answer env _ (tx_wait tx 1)) as [[]|e]; reflexivity.
Qed.

Lemma run_await_inv (env : Env) (c : call) (w w' : world) (v : reply c) :
  run env (await c) w = (Ok v, w') ->
  answer env (history w) c = Ok v /\ w' = record (Called c) w.
Proof.
  rewrite run_await. intros H. inversion H. split; reflexivity.
Qed.

Lemma filter_transfer_sends (sends : list call) :
  Forall (fun c => exists request, c = provider_send request) sends ->
  filter is_transfer sends = [].
Proof.
  induction 1 as [|c sends [request ->] _ IH]; simpl; auto.
Qed.

(** [ensureNetwork] submits no transfer. *)
Lemma ensureNetwork_no_transfer (env : Env) (config : registry_value)
    (w w1 : world) (r : result unit) :
  run env (ensureNetwork config) w = (r, w1) ->
  filter is_transfer (calls (history w1))
  = filter is_transfer (calls (history w)).
Proof.
  intros H. destruct (ensureNetwork_calls env config w w1 r H)
    as (sends & -> & Hs).
  rewrite filter_app. cbn [filter is_transfer].
  rewrite (filter_transfer_sends sends Hs). apply app_nil_r.
Qed.

(** C3: when the wallet is there, the chain is in place, and the balance
    that the token contract reports for the payer is strictly below
    [BigInt(option.maxAmountRequired)] (both are integers of any size,
    compared exactly), [executePayment] throws the insufficient-balance
    error, whose message states the required and the available amount,
    right after the balance was read: the run submits no transfer. *)
Theorem executePayment_insufficient_balance (env : Env)
    (option : X402Option) (config : registry_value)
    (w w1 w2 w3 w4 : world) (userAddress : jsstring)
    (balance requiredAmount : Z)
    (Hwallet : ethereum env = true)
    (Hchain : run env (ensureNetwork config) w = (Ok tt, w1))
    (Hsigner : run env (await provider_getSigner) w1 = (Ok tt, w2))
    (Haddress : run env (await signer_getAddress) w2 = (Ok userAddress, w3))
    (Hbalance : run env (await (token_balanceOf (asset option) userAddress)) w3
                = (Ok balance, w4))
    (Hrequired : BigInt (maxAmountRequired option) = Ok requiredAmount)
    (Hless : (balance < requiredAmount)%Z) :
  run env (executePayment option config) w
  = (Err (new_Error
            (js "Insufficient Token Balance. You need "
             ++ Z_to_string requiredAmount
             ++ js " units of the token, but you only have "
             ++ Z_to_string balance ++ js ".")), w4)
  /\ calls (history w4)
     = calls (history w1)
       ++ [provider_getSigner; signer_getAddress;
           token_balanceOf (asset option) userAddress]
  /\ filter is_transfer (calls (history w4))
     = filter is_transfer (calls (history w)).
Proof.
  apply run_await_inv in Hsigner as [Hs ->].
  apply run_await_inv in Haddress as [Ha ->].
  apply run_await_inv in Hbalance as [Hb ->].
  split; [|split].
  - rewrite executePayment_run, Hwallet, Hchain. cbn [negb].
    cbv zeta. rewrite Hs, Ha, Hb, Hrequired.
    apply Z.ltb_lt in Hless. rewrite Hless. reflexivity.
  - rewrite !calls_record, <- !app_assoc. reflexivity.
  - rewrite !calls_record, !filter_app. cbn [filter is_transfer].
    rewrite !app_nil_r. apply (ensureNetwork_no_transfer env config w w1 _ Hchain).
Qed.

(** Scenario B with amounts beyond the range in which floating point is
    exact: the balance is [2^53], the price [2^53 + 1]. *)
Lemma executePayment_insufficient_balance_witness :
  let option :=
    {| scheme := js "exact"; network := js "base-sepolia";
       resource := js "/api/payment/basic"; payTo := js "0xMerchant";
       asset := js "0xUSDC"; maxAmountRequired := js "9007199254740993";
       extra := None |} in
  let env :=
    scenario 84532 9007199254740992 [option] (Ok tx_hash)
      (Ok resource_response) in
  exists w4,
    run env (executePayment option (OwnConfig base_sepolia)) start_world
    = (Err (new_Error
              (js "Insufficient Token Balance. You need 9007199254740993 units of the token, but you only have 9007199254740992.")),
       w4)
    /\ filter is_transfer (calls (history w4)) = [].
Proof.
  intros option env. eexists.
  pose proof (executePayment_insufficient_balance env option
                (OwnConfig base_sepolia) start_world _ _ _ _
                (js "0xPayer") 9007199254740992 9007199254740993
                eq_refl eq_refl eq_refl eq_refl eq_refl eq_refl eq_refl)
    as (Hrun & _ & Hnone).
  split; [exact Hrun | exact Hnone].
Defined.

(** Whatever else happens, a run in which every balance the contract
    reports is below the price submits no transfer. *)
Lemma executePayment_never_overspends (env : Env) (option : X402Option)
    (config : registry_value) (w w' : world) (r : result jsstring)
    (requiredAmount : Z) :
  BigInt (maxAmountRequired option) = Ok requiredAmount ->
  (forall h token owner balance,
      answer env h (token_balanceOf token owner) = Ok balance ->
      (balance < requiredAmount)%Z) ->
  run env (executePayment option config) w = (r, w') ->
  (exists e, r = Err e)
  /\ filter is_transfer (calls (history w'))
     = filter is_transfer (calls (history w)).
Proof.
  intros Hreq Hlow. rewrite executePayment_run.
  destruct (negb (ethereum env)).
  { intros H; inversion H; subst. split; [eexists; reflexivity|reflexivity]. }
  destruct (run env (ensureNetwork config) w) as [[[]|e] w1] eqn:Hchain;
    pose proof (ensureNetwork_no_transfer env config w w1 _ Hchain) as Hnt.
  2:{ intros H; inversion H; subst. split; [eexists; reflexivity|exact Hnt]. }
  cbv zeta.
  destruct (answer env (history w1) provider_getSigner) as [[]|e].
  2:{ intros H; inversion H; subst. split; [eexists; reflexivity|].
      rewrite calls_record, filter_app, <- Hnt. apply app_nil_r. }
  destruct (answer env _ signer_getAddress) as [userAddress|e].
  2:{ intros H; inversion H; subst. split; [eexists; reflexivity|].
      rewrite !calls_record, !filter_app, <- Hnt. cbn. rewrite !app_nil_r.
      reflexivity. }
  destruct (answer env _ (token_balanceOf (asset option) userAddress))
    as [balance|e] eqn:Hb.
  2:{ intros H; inversion H; subst. split; [eexists; reflexivity|].
      rewrite !calls_record, !filter_app, <- Hnt. cbn. rewrite !app_nil_r.
      reflexivity. }
  rewrite Hreq. apply Hlow in Hb. apply Z.ltb_lt in Hb. rewrite Hb.
  intros H; inversion H; subst. split; [eexists; reflexivity|].
  rewrite !calls_record, !filter_app, <- Hnt. cbn. rewrite !app_nil_r.
  reflexivity.
Qed.

(** A run of [executePayment] that returns went through every step. *)
Lemma executePayment_success (env : Env) (option : X402Option)
    (config : registry_value) (w w' : world) (tx : jsstring) :
  run env (executePayment option config) w = (Ok tx, w') ->
  ethereum env = true
  /\ exists w1 userAddress balance requiredAmount,
       let h3 := history w1 ++ [Called provider_getSigner;
                                Called signer_getAddress] in
       let read := token_balanceOf (asset option) userAddress in
       let send := token_transfer (asset option) (payTo option)
                     (maxAmountRequired option) in
       run env (ensureNetwork config) w = (Ok tt, w1)
       /\ answer env h3 read = Ok balance
       /\ BigInt (maxAmountRequired option) = Ok requiredAmount
       /\ (requiredAmount <= balance)%Z
       /\ answer env (h3 ++ [Called read]) send = Ok tx
       /\ answer env (h3 ++ [Called read; Called send]) (tx_wait tx 1) = Ok tt
       /\ history w' = h3 ++ [Called read; Called send; Called (tx_wait tx 1)]
       /\ loading w' = loading w1 /\ error w' = error w1 /\ user w' = user w1.
Proof.
  rewrite executePayment_run.
  destruct (ethereum env); [|discriminate]. cbn [negb].
  destruct (run env (ensureNetwork config) w) as [[[]|e] w1]; [|discriminate].
  cbv zeta.
  destruct (answer env (history w1) provider_getSigner) as [[]|e];
    [|discriminate].
  destruct (answer env _ signer_getAddress) as [userAddress|e];
    [|discriminate].
  destruct (answer env _ (token_balanceOf (asset option) userAddress))
    as [balance|e] eqn:Hb; [|discriminate].
  destruct (BigInt (maxAmountRequired option)) as [requiredAmount|e];
    [|discriminate].
  destruct (balance <? requiredAmount)%Z eqn:Hlt; [discriminate|].
  destruct (answer env _ (token_transfer _ _ _)) as [tx'|e] eqn:Ht;
    [|discriminate].
  destruct (answer env _ (tx_wait tx' 1)) as [[]|e] eqn:Hw; [|discriminate].
  intros H. inversion H; subst. clear H.
  split; [reflexivity|].
  exists w1, userAddress, balance, requiredAmount. cbv zeta.
  rewrite !history_record, <- !app_assoc in *. cbn [List.app] in *.
  apply Z.ltb_ge in Hlt.
  repeat split; try assumption; try reflexivity.
Qed.

(** C4: every run of [executePayment] that returns has, as its last two
    calls, the transfer of [option.maxAmountRequired] units of
    [option.asset] to [option.payTo] and the wait for one confirmation of
    the transaction that the transfer returned; both resolved, and the
    value returned is the hash of that transaction.  It is the only
    transfer of the run. *)
Theorem executePayment_transfers_and_waits (env : Env) (option : X402Option)
    (config : registry_value) (w w' : world) (txHash : jsstring)
    (Hrun : run env (executePayment option config) w = (Ok txHash, w')) :
  let send :=
    token_transfer (asset option) (payTo option) (maxAmountRequired option) in
  exists h,
    history w' = h ++ [Called send; Called (tx_wait txHash 1)]
    /\ answer env h send = Ok txHash
    /\ answer env (h ++ [Called send]) (tx_wait txHash 1) = Ok tt
    /\ filter is_transfer (calls h) = filter is_transfer (calls (history w)).
Proof.
  intros send.
  destruct (executePayment_success env option config w w' txHash Hrun)
    as (_ & w1 & userAddress & balance & requiredAmount & H).
  cbv zeta in H.
  destruct H as (Hchain & _ & _ & _ & Ht & Hw & Hh & _).
  exists (history w1
          ++ [Called provider_getSigner; Called signer_getAddress;
              Called (token_balanceOf (asset option) userAddress)]).
  rewrite <- !app_assoc in *. cbn [List.app] in *.
  repeat split; try assumption.
  rewrite calls_app, filter_app. cbn. rewrite app_nil_r.
  apply (ensureNetwork_no_transfer env config w w1 _ Hchain).
Qed.

(** Scenario A: the million units go to the merchant, one confirmation
    is awaited, the hash comes back. *)
Lemma executePayment_transfers_and_waits_witness :
  let env :=
    scenario 84532 2000000 [usdc_option (js "base-sepolia")] (Ok tx_hash)
      (Ok resource_response) in
  exists w' h,
    run env (executePayment (usdc_option (js "base-sepolia"))
               (OwnConfig base_sepolia)) start_world
    = (Ok tx_hash, w')
    /\ history w'
       = h ++ [Called (token_transfer (js "0xUSDC") (js "0xMerchant")
                         (js "1000000"));
               Called (tx_wait tx_hash 1)]
    /\ filter is_transfer (calls h) = [].
Proof.
  intros env. eexists.
  destruct (executePayment_transfers_and_waits env
              (usdc_option (js "base-sepolia")) (OwnConfig base_sepolia)
              start_world _ tx_hash eq_refl)
    as (h & Hh & _ & _ & Hone).
  exists h. split; [reflexivity | split; [exact Hh | exact Hone]].
Defined.

(** ** handlePayment *)

(** Every token that [createPaymentToken] returns decodes to the hash and
    the chain id it was made from. *)
Lemma createPaymentToken_decodable (txHash token : jsstring)
    (chainId : option Z) :
  createPaymentToken txHash chainId = Ok token ->
  decodePaymentToken token = Some (txHash, chainId).
Proof.
  intros H. rewrite (createPaymentToken_ok _ _ _ H).
  unfold createPaymentToken, btoa in H.
  destruct (forallb _ (stringify_payload txHash chainId)) eqn:E;
    [|discriminate].
  apply latin1_forallb in E. unfold decodePaymentToken.
  rewrite atob_b64_encode by exact E. apply parse_stringify_payload.
Qed.

Lemma handleSuccess_run (env : Env) (res : response) (w : world) :
  exists a,
    run env (handleSuccess res) w = (Ok tt, perform a w)
    /\ match a with set_location_href _ | alert _ => True | _ => False end.
Proof.
  unfold handleSuccess. destruct (url_of (data res)) as [url|].
  - exists (set_location_href url). split; [reflexivity | exact I].
  - eexists (alert _). split; [reflexivity | exact I].
Qed.

Lemma on_payment_error_run (env : Env) (payErr : js_error) (w : world) :
  run env (on_payment_error payErr) w
  = (Ok tt, perform (set_error (payment_error_text payErr)) w).
Proof.
  unfold on_payment_error, payment_error_text.
  destruct (code_is_str (code payErr) (js "ACTION_REJECTED")); reflexivity.
Qed.

(** Every run of [handlePayment], by the answer to the first request and
    the run of the payment flow. *)
Lemma handlePayment_run (env : Env) (plan : jsstring) (w : world) :
  let w0 := perform (set_error []) (perform (set_loading true) w) in
  let first := api_get (payment_url plan) [] in
  let w1 := record (Called first) w0 in
  run env (handlePayment plan) w
  = match answer env (history w0) first with
    | Ok res =>
        (Ok tt, perform (set_loading false)
                  (snd (run env (handleSuccess res) w1)))
    | Err err =>
        match is_402 err with
        | Some res402 =>
            match run env (pay_and_retry plan res402) w1 with
            | (Ok _, w2) => (Ok tt, perform (set_loading false) w2)
            | (Err payErr, w2) =>
                (Ok tt,
                 perform (set_loading false)
                   (perform (set_error (payment_error_text payErr)) w2))
            end
        | None =>
            (Ok tt,
             perform (set_loading false)
               (snd (run env (on_request_error err) w1)))
        end
    end.
Proof.
  intros w0 first w1. unfold handlePayment, request_resource.
  rewrite run_bind, run_effect, run_bind, run_effect. fold w0.
  rewrite run_finally, run_try_catch, run_bind. run_await. fold first w1.
  destruct (answer env (history w0) first) as [res|err].
  - destruct (handleSuccess_run env res w1) as (a & -> & _). reflexivity.
  - destruct (is_402 err) as [res402|].
    + rewrite run_try_catch.
      destruct (run env (pay_and_retry plan res402) w1) as [[[]|payErr] w2].
      * reflexivity.
      * rewrite on_payment_error_run. reflexivity.
    + reflexivity.
Qed.

(** The payment flow once the transfer is confirmed: the token is made
    and the request is sent again with it. *)
Lemma pay_and_retry_run (env : Env) (plan : jsstring) (res402 : response)
    (accepts : list X402Option) (option : X402Option)
    (config : registry_value) (txHash token : jsstring) (w1 w2 : world) :
  accepts_of (data res402) = Some accepts ->
  findBestPaymentOption accepts = Ok (option, config) ->
  run env (executePayment option config) w1 = (Ok txHash, w2) ->
  createPaymentToken txHash (get_chainIdDec config) = Ok token ->
  let retry := api_get (payment_url plan) [(js "X-Payment", token)] in
  let w3 := record (Called retry) w2 in
  run env (pay_and_retry plan res402) w1
  = match answer env (history w2) retry with
    | Ok retryRes => run env (handleSuccess retryRes) w3
    | Err e => (Err e, w3)
    end.
Proof.
  intros Ha Hf Hp Ht retry w3. unfold pay_and_retry.
  rewrite Ha, Hf. cbn [lift bind]. rewrite run_bind, Hp.
  rewrite Ht. cbn [lift bind]. rewrite run_bind. run_await.
  fold retry w3. destruct (answer env (history w2) retry); reflexivity.
Qed.

Lemma or_else_nonempty (a : option jsstring) (b : jsstring) :
  b <> [] -> or_else a b <> [].
Proof. intros Hb. destruct a as [[|u s]|]; simpl; congruence. Qed.

Lemma payment_error_text_nonempty (payErr : js_error) :
  payment_error_text payErr <> [].
Proof.
  unfold payment_error_text.
  destruct (code_is_str _ _); [discriminate|].
  apply or_else_nonempty. discriminate.
Qed.


(** The calls of a run of [executePayment] that returns: the chain id is
    read first and once, requests to the provider may follow, and then
    signer, address, balance, transfer and confirmation. *)
Lemma executePayment_success_calls (env : Env) (option : X402Option)
    (config : registry_value) (w w' : world) (txHash : jsstring) :
  run env (executePayment option config) w = (Ok txHash, w') ->
  exists sends userAddress,
    calls (history w')
    = calls (history w)
      ++ provider_getNetwork :: sends
      ++ [provider_getSigner; signer_getAddress;
          token_balanceOf (asset option) userAddress;
          token_transfer (asset option) (payTo option)
            (maxAmountRequired option);
          tx_wait txHash 1]
    /\ Forall (fun c => exists request, c = provider_send request) sends
    /\ loading w' = loading w /\ error w' = error w.
Proof.
  intros Hrun.
  destruct (executePayment_success env option config w w' txHash Hrun)
    as (_ & w1 & userAddress & balance & requiredAmount & H).
  cbv zeta in H. destruct H as (Hchain & _ & _ & _ & _ & _ & Hh & Hl & He & _).
  destruct (ensureNetwork_calls env config w w1 _ Hchain) as (sends & Hc & Hs).
  exists sends, userAddress. rewrite Hh, <- !app_assoc, !calls_app, Hc.
  cbn [calls List.app]. rewrite <- !app_assoc. cbn [List.app].
  split; [reflexivity | split; [exact Hs|]].
  rewrite Hl, He. rewrite ensureNetwork_run in Hchain.
  repeat match type of Hchain with
         | context [match ?x with _ => _ end] => destruct x
         end; inversion Hchain; subst; split; reflexivity.
Qed.

Lemma is_402_status (err : js_error) (res402 : response) :
  err_response err = Some res402 -> status res402 = 402%Z ->
  is_402 err = Some res402.
Proof. intros H1 H2. unfold is_402. rewrite H1, H2. reflexivity. Qed.

(** A run of [handlePayment] in which the server asks for payment and the
    payment is made: what is left is the retried request. *)
Lemma handlePayment_paid (env : Env) (plan : jsstring) (w w2 : world)
    (err : js_error) (res402 : response) (accepts : list X402Option)
    (option : X402Option) (config : registry_value)
    (txHash token : jsstring) :
  answer env (history (entered w)) (api_get (payment_url plan) []) = Err err ->
  err_response err = Some res402 -> status res402 = 402%Z ->
  accepts_of (data res402) = Some accepts ->
  findBestPaymentOption accepts = Ok (option, config) ->
  run env (executePayment option config) (requested plan w)
  = (Ok txHash, w2) ->
  createPaymentToken txHash (get_chainIdDec config) = Ok token ->
  let retry := api_get (payment_url plan) [(js "X-Payment", token)] in
  let w3 := record (Called retry) w2 in
  run env (handlePayment plan) w
  = (Ok tt,
     perform (set_loading false)
       match answer env (history w2) retry with
       | Ok retryRes => snd (run env (handleSuccess retryRes) w3)
       | Err e => perform (set_error (payment_error_text e)) w3
       end).
Proof.
  intros Hfirst Hresp Hstatus Haccepts Hfound Hpaid Htoken retry w3.
  pose proof (handlePayment_run env plan w) as R. cbv zeta in R.
  fold (entered w) in R. rewrite Hfirst, (is_402_status _ _ Hresp Hstatus) in R.
  fold (requested plan w) in R.
  rewrite (pay_and_retry_run env plan res402 accepts option config txHash
             token _ w2 Haccepts Hfound Hpaid Htoken) in R.
  fold retry w3 in R. rewrite R.
  destruct (answer env (history w2) retry) as [retryRes|e]; [|reflexivity].
  destruct (handleSuccess_run env retryRes w3) as (a & -> & _). reflexivity.
Qed.

Lemma calls_requested (plan : jsstring) (w : world) :
  calls (history (requested plan w))
  = calls (history w) ++ [api_get (payment_url plan) []].
Proof.
  unfold requested, entered. rewrite calls_record, !calls_perform.
  reflexivity.
Qed.



(** C10: in a run that reaches the token, the chain id in the token is
    the [chainIdDec] read from the value that the matcher returned, for a
    ChainConfig of the registry the [chainIdDec] written there.  The
    wallet's chain id is read once, as the first call of
    [executePayment]; between that and the retried request the run only
    sends requests to the provider, asks for signer, address and balance,
    transfers and waits.  Nothing here depends on what the wallet
    reported. *)
Theorem handlePayment_token_chain_id (env : Env) (plan : jsstring)
    (w w2 : world) (err : js_error) (res402 : response)
    (accepts : list X402Option) (option : X402Option)
    (config : registry_value) (txHash token : jsstring)
    (Hfirst : answer env (history (entered w)) (api_get (payment_url plan) [])
              = Err err)
    (Hresp : err_response err = Some res402)
    (Hstatus : status res402 = 402%Z)
    (Haccepts : accepts_of (data res402) = Some accepts)
    (Hfound : findBestPaymentOption accepts = Ok (option, config))
    (Hpaid : run env (executePayment option config) (requested plan w)
             = (Ok txHash, w2))
    (Htoken : createPaymentToken txHash (get_chainIdDec config) = Ok token) :
  exists w' sends userAddress,
    run env (handlePayment plan) w = (Ok tt, w')
    /\ calls (history w')
       = calls (history w)
         ++ api_get (payment_url plan) [] :: provider_getNetwork :: sends
         ++ [provider_getSigner; signer_getAddress;
             token_balanceOf (asset option) userAddress;
             token_transfer (asset option) (payTo option)
               (maxAmountRequired option);
             tx_wait txHash 1;
             api_get (payment_url plan) [(js "X-Payment", token)]]
    /\ Forall (fun c => exists request, c = provider_send request) sends
    /\ decodePaymentToken token = Some (txHash, get_chainIdDec config)
    /\ (forall c, config = OwnConfig c ->
                  registry (network option) = Some c
                  /\ decodePaymentToken token
                     = Some (txHash, Some (chainIdDec c))).
Proof.
  pose proof (handlePayment_paid env plan w w2 err res402 accepts option
                config txHash token Hfirst Hresp Hstatus Haccepts Hfound
                Hpaid Htoken) as R.
  cbv zeta in R.
  destruct (executePayment_success_calls env option config _ w2 txHash Hpaid)
    as (sends & userAddress & Hcalls & Hsends & _).
  rewrite calls_requested in Hcalls.
  pose proof (createPaymentToken_decodable _ _ _ Htoken) as Hdec.
  eexists. exists sends, userAddress. split; [exact R|].
  split; [|split; [exact Hsends | split; [exact Hdec|]]].
  - rewrite calls_perform.
    match goal with
    | |- calls (history ?x) = _ =>
        assert (E : calls (history x)
                    = calls (history w2)
                      ++ [api_get (payment_url plan)
                            [(js "X-Payment", token)]])
    end.
    { destruct (answer env (history w2) _) as [retryRes|e].
      - destruct (handleSuccess_run env retryRes
                    (record (Called (api_get (payment_url plan)
                                       [(js "X-Payment", token)])) w2))
          as (a & -> & _).
        cbn [snd]. rewrite calls_perform, calls_record. reflexivity.
      - rewrite calls_perform, calls_record. reflexivity. }
    rewrite E, Hcalls, <- !app_assoc. cbn [List.app].
    rewrite <- !app_assoc. reflexivity.
  - intros c ->. split; [|exact Hdec].
    unfold findBestPaymentOption in Hfound.
    destruct (first_supported accepts) as [[o v]|] eqn:Ef; [|discriminate].
    inversion Hfound; subst.
    destruct (first_supported_sound accepts option (OwnConfig c) Ef)
      as (before & after & _ & _ & Hget).
    apply NETWORK_MAP_get_config. exact Hget.
Qed.

(** Scenario D with a wallet that stays on chain 1 (the switch request is
    answered but changes nothing): the token carries 84532 all the same,
    and the chain id was read once. *)
Lemma handlePayment_token_chain_id_witness :
  let env :=
    scenario 1 2000000 [usdc_option (js "base-sepolia")] (Ok tx_hash)
      (Ok resource_response) in
  exists w' token sends userAddress,
    run env (handlePayment basic) start_world = (Ok tt, w')
    /\ answer env [] provider_getNetwork = Ok 1%Z
    /\ decodePaymentToken token = Some (tx_hash, Some 84532%Z)
    /\ calls (history w')
       = api_get (js "/payment/basic") [] :: provider_getNetwork :: sends
         ++ [provider_getSigner; signer_getAddress;
             token_balanceOf (js "0xUSDC") userAddress;
             token_transfer (js "0xUSDC") (js "0xMerchant") (js "1000000");
             tx_wait tx_hash 1;
             api_get (js "/payment/basic") [(js "X-Payment", token)]]
    /\ Forall (fun c => exists request, c = provider_send request) sends.
Proof.
  intros env.
  destruct (handlePayment_token_chain_id env basic start_world _ _ _
              [usdc_option (js "base-sepolia")]
              (usdc_option (js "base-sepolia")) (OwnConfig base_sepolia)
              tx_hash _ eq_refl eq_refl eq_refl eq_refl eq_refl eq_refl
              eq_refl)
    as (w' & sends & userAddress & Hrun & Hcalls & Hsends & Hdec & _).
  exists w'. eexists. exists sends, userAddress.
  split; [exact Hrun|]. split; [reflexivity|]. split; [exact Hdec|].
  split; [exact Hcalls | exact Hsends].
Defined.

(** ** The outcome of a failed payment *)

Lemma render_error_shown (w : world) :
  error w <> [] ->
  render_error w
  = Some {| css_class := js "error-msg";
            text := [9888; 65039; 32]%N ++ error w |}.
Proof.
  unfold render_error. destruct (error w); [congruence | reflexivity].
Qed.

(** C8, as the code has it: when the payment flow of [handlePayment]
    fails, the outcome is a text in [error]: the fixed sentence
    "You rejected the transaction." when the thrown value has the code
    ACTION_REJECTED, and else its message, or "Payment execution failed"
    when it has none.  The view shows that text in the one box it has for
    messages, of class [error-msg], after a warning sign, whichever the
    failure was; [loading] is cleared and no call follows the failure. *)
Theorem handlePayment_failure_outcome (env : Env) (plan : jsstring)
    (w w2 : world) (err payErr : js_error) (res402 : response)
    (Hfirst : answer env (history (entered w)) (api_get (payment_url plan) [])
              = Err err)
    (Hresp : err_response err = Some res402)
    (Hstatus : status res402 = 402%Z)
    (Hfail : run env (pay_and_retry plan res402) (requested plan w)
             = (Err payErr, w2)) :
  let shown :=
    if code_is_str (code payErr) (js "ACTION_REJECTED")
    then js "You rejected the transaction."
    else or_else (message payErr) (js "Payment execution failed") in
  exists w',
    run env (handlePayment plan) w = (Ok tt, w')
    /\ error w' = shown
    /\ render_error w'
       = Some {| css_class := js "error-msg";
                 text := [9888; 65039; 32]%N ++ shown |}
    /\ loading w' = false
    /\ history w' = history w2 ++ [Did (set_error shown);
                                   Did (set_loading false)].
Proof.
  intros shown.
  pose proof (handlePayment_run env plan w) as R. cbv zeta in R.
  fold (entered w) in R. rewrite Hfirst, (is_402_status _ _ Hresp Hstatus) in R.
  fold (requested plan w) in R. rewrite Hfail in R.
  fold shown in R. change (payment_error_text payErr) with shown in R.
  eexists. split; [exact R|].
  split; [reflexivity|]. split.
  - rewrite render_error_shown.
    + reflexivity.
    + cbn [error perform record]. apply payment_error_text_nonempty.
  - split; [reflexivity|].
    rewrite !history_perform, <- app_assoc. reflexivity.
Qed.

(** The user dismisses the signing prompt of the transfer. *)
Lemma handlePayment_failure_outcome_witness :
  let accepts := [usdc_option (js "base-sepolia")] in
  let env :=
    scenario 84532 2000000 accepts (Err user_rejection)
      (Ok resource_response) in
  exists w',
    run env (handlePayment basic) start_world = (Ok tt, w')
    /\ error w' = js "You rejected the transaction."
    /\ option_map css_class (render_error w') = Some (js "error-msg")
    /\ loading w' = false.
Proof.
  intros accepts env.
  destruct (handlePayment_failure_outcome env basic start_world _ _
              user_rejection _ eq_refl eq_refl eq_refl eq_refl)
    as (w' & Hrun & Herror & Hrender & Hloading & _).
  exists w'. split; [exact Hrun|]. split; [exact Herror|].
  split; [rewrite Hrender; reflexivity | exact Hloading].
Defined.

(** C8 as stated fails: after the user rejects the signing prompt the
    view shows the outcome in the error box, and a transfer that failed
    for another reason, with the same words as its message, leaves the
    very same view: the caller has the text and nothing else to tell the
    two apart. *)
Lemma user_rejection_not_calm_nor_typed :
  let accepts := [usdc_option (js "base-sepolia")] in
  let rejected :=
    snd (run (scenario 84532 2000000 accepts (Err user_rejection)
                (Ok resource_response))
           (handlePayment basic) start_world) in
  let failed :=
    snd (run (scenario 84532 2000000 accepts
                (Err (call_exception (js "You rejected the transaction.")))
                (Ok resource_response))
           (handlePayment basic) start_world) in
  option_map css_class (render_error rejected) = Some (js "error-msg")
  /\ code user_rejection
     <> code (call_exception (js "You rejected the transaction."))
  /\ rejected = failed.
Proof.
  cbv zeta. split; [reflexivity|]. split; [discriminate | reflexivity].
Qed.

(** ** Invocations in flight *)

Lemma quiet_bind {A B} (p : prog A) (f : A -> prog B) :
  quiet p -> (forall a, quiet (f a)) -> quiet (bind p f).
Proof.
  intros Hp Hf. induction p as [a|e|c k IH|k IH|a k IH]; simpl in *; auto.
  destruct a; auto.
Qed.

Lemma quiet_try_catch {A} (p : prog A) (h : js_error -> prog A) :
  quiet p -> (forall e, quiet (h e)) -> quiet (try_catch p h).
Proof.
  intros Hp Hh. induction p as [a|e|c k IH|k IH|a k IH]; simpl in *; auto.
  destruct a; auto.
Qed.

Lemma quiet_await (c : call) : quiet (await c).
Proof. intros [v|e]; exact I. Qed.

Lemma quiet_lift {A} (r : result A) : quiet (lift r).
Proof. destruct r; exact I. Qed.

Lemma quiet_ensureNetwork (config : registry_value) :
  quiet (ensureNetwork config).
Proof.
  unfold ensureNetwork. apply quiet_bind; [apply quiet_await|].
  intros chainId. destruct (same_chain _ _); [exact I|].
  apply quiet_try_catch; [apply quiet_await|].
  intros e. destruct (is_4902 e); [apply quiet_await | exact I].
Qed.

Lemma quiet_executePayment (option : X402Option) (config : registry_value) :
  quiet (executePayment option config).
Proof.
  unfold executePayment. intros present.
  destruct (negb present); [exact I|].
  repeat (apply quiet_bind;
          [first [apply quiet_ensureNetwork | apply quiet_await
                 | apply quiet_lift]|]; intros ?).
  destruct (_ <? _)%Z; [exact I|].
  repeat (apply quiet_bind; [apply quiet_await|]; intros ?).
  exact I.
Qed.

Lemma quiet_handleSuccess (res : response) : quiet (handleSuccess res).
Proof. unfold handleSuccess. destruct (url_of _); exact I. Qed.

Lemma quiet_pay_and_retry (plan : jsstring) (res402 : response) :
  quiet (pay_and_retry plan res402).
Proof.
  unfold pay_and_retry. destruct (accepts_of _); [|exact I].
  apply quiet_bind; [apply quiet_lift|]. intros [option config].
  apply quiet_bind; [apply quiet_executePayment|]. intros txHash.
  apply quiet_bind; [apply quiet_lift|]. intros paymentToken.
  apply quiet_bind; [apply quiet_await|]. intros retryRes.
  apply quiet_handleSuccess.
Qed.

Lemma releases_finally (p : prog unit) :
  quiet p -> releases (finally p (effect (set_loading false))).
Proof.
  induction p as [a|e|c k IH|k IH|a k IH]; simpl; auto.
  destruct a; simpl; auto. contradiction.
Qed.

(** After its first statement [handlePayment] writes [loading] once more,
    at its very end, to clear it. *)
Lemma handlePayment_releases (plan : jsstring) :
  exists rest,
    handlePayment plan = Do (set_loading true) rest /\ releases rest.
Proof.
  exists (Do (set_error [])
            (finally (request_resource plan) (effect (set_loading false)))).
  split; [reflexivity|].
  cbn [releases]. apply releases_finally.
  unfold request_resource. apply quiet_try_catch.
  - apply quiet_bind; [apply quiet_await | apply quiet_handleSuccess].
  - intros err. destruct (is_402 err) as [res402|].
    + apply quiet_try_catch; [apply quiet_pay_and_retry|].
      intros payErr. unfold on_payment_error.
      destruct (code_is_str _ _); exact I.
    + exact I.
Qed.

Lemma advance_immediate (eth : bool) (p : prog unit) (w : world) :
  immediate p -> fst (advance eth p w) = None.
Proof.
  revert w. induction p as [a|e|c k IH|k IH|a k IH]; intros w; simpl; auto.
  - contradiction.
  - destruct a; auto. contradiction.
Qed.

(** Running to completion is running from [await] to [await], each call
    settled as the environment answers it. *)
Lemma run_advance (env : Env) (p : prog unit) (w : world) :
  run env p w
  = match advance (ethereum env) p w with
    | (None, w') => (fst (run env p w), w')
    | (Some t, w') =>
        run env
          (continuation t
             (answer env (removelast (history w')) (waiting_for t)))
          w'
    end.
Proof.
  revert w. induction p as [a|e|c k IH|k IH|a k IH]; intros w;
    cbn [run advance fst]; auto.
  cbn [continuation waiting_for]. rewrite history_record, removelast_last.
  reflexivity.
Qed.

(** An invocation that waits again still holds [loading]. *)
Lemma advance_releases (eth : bool) (p : prog unit) (w w' : world)
    (t : task) :
  releases p -> advance eth p w = (Some t, w') ->
  loading w' = loading w /\ forall r, releases (continuation t r).
Proof.
  revert w. induction p as [a|e|c k IH|k IH|a k IH]; intros w; simpl.
  - contradiction.
  - contradiction.
  - intros Hk H. inversion H; subst. split; [reflexivity | exact Hk].
  - intros Hk. apply IH. apply Hk.
  - destruct a as [[|]|s|url|msg]; intros Hk H.
    + contradiction.
    + pose proof (advance_immediate eth k (perform (set_loading false) w) Hk)
        as E. rewrite H in E. discriminate.
    + apply (IH _ Hk) in H. exact H.
    + apply (IH _ Hk) in H. exact H.
    + apply (IH _ Hk) in H. exact H.
Qed.

Lemma start_releases (eth : bool) (p : prog unit) (w : world) :
  releases p -> loading w = true ->
  serialized (start eth p {| view := w; pending := [] |}).
Proof.
  intros Hp Hl. unfold start. cbn [view pending].
  destruct (advance eth p w) as [[t|] w'] eqn:E.
  - right. exists t. destruct (advance_releases eth p w w' t Hp E) as [Hl' Hr].
    cbn [view pending List.app]. rewrite Hl', Hl. auto.
  - left. reflexivity.
Qed.

Lemma step_serialized (eth : bool) (s s' : session) :
  serialized s -> step eth s s' -> serialized s'.
Proof.
  intros Hs Hstep. destruct Hstep as [plan s Hpanel | s before after t r Hp].
  - assert (Hl : loading (view s) = false).
    { unfold render_panel in Hpanel. destruct (loading (view s));
        [discriminate | reflexivity]. }
    assert (Hnone : pending s = []).
    { destruct Hs as [E | (t & _ & Ht & _)]; [exact E | congruence]. }
    destruct (handlePayment_releases plan) as (rest & -> & Hrest).
    destruct s as [w pend]. cbn [view pending] in *. subst pend.
    apply (start_releases eth rest (perform (set_loading true) w) Hrest).
    reflexivity.
  - destruct Hs as [E | (t0 & E & Hl & Hr)].
    + rewrite E in Hp. destruct before; discriminate.
    + rewrite E in Hp.
      destruct before as [|b before].
      * inversion Hp; subst. cbn [List.app].
        apply start_releases; [apply Hr | exact Hl].
      * inversion Hp as [[Hb Hrest]]. destruct before; discriminate.
Qed.

(** [handlePayment] begins by setting [loading] and sending its request:
    an invocation is in flight, with the flag set, from its first
    statement. *)
Lemma handlePayment_enters (eth : bool) (plan : jsstring) (s : session) :
  let s' := start eth (handlePayment plan) s in
  history (view s')
  = history (view s)
    ++ [Did (set_loading true); Did (set_error []);
        Called (api_get (payment_url plan) [])]
  /\ loading (view s') = true
  /\ List.length (pending s') = S (List.length (pending s)).
Proof.
  cbn. rewrite <- !app_assoc, length_app. cbn.
  repeat split. lia.
Qed.

(** C9: the payment flow is not re-entrant.  [loading] is the in-flight
    flag: the pay button, the one place from which [handlePayment] is
    called, is rendered only while [loading] is false, so the flag is
    tested before an invocation can begin; [handlePayment] sets it as its
    first statement, before the request goes out, and clears it as its
    last.  In every session of the view that begins with nothing in
    flight: at most one invocation is in flight; while one is, [loading]
    is set, the view shows the loading box and not the button, and all
    that can happen is that the call it waits for settles, so no second
    invocation begins; and a click on the button, which can only happen
    with nothing in flight, puts exactly one invocation in flight, with
    [loading] set. *)
Theorem pay_button_serializes (eth : bool) (s0 s : session)
    (Hidle : pending s0 = []) (Hsteps : steps eth s0 s) :
  (List.length (pending s) <= 1)%nat
  /\ (pending s <> [] ->
      loading (view s) = true
      /\ render_panel (view s) = LoadingBox
      /\ forall s',
           step eth s s' ->
           exists (t : task) (r : result (reply (waiting_for t))),
             pending s = [t]
             /\ s' = start eth (continuation t r)
                       {| view := view s; pending := [] |})
  /\ (forall plan,
        render_panel (view s) = ContentBox ->
        let s' := start eth (handlePayment plan) s in
        pending s = []
        /\ List.length (pending s') = 1%nat
        /\ loading (view s') = true).
Proof.
  assert (Hs : serialized s).
  { induction Hsteps as [s|s1 s2 s3 _ IH Hstep].
    - left. exact Hidle.
    - apply (step_serialized eth s2 s3 (IH Hidle) Hstep). }
  split; [|split].
  - destruct Hs as [-> | (t & -> & _)]; simpl; lia.
  - intros Hne. destruct Hs as [E | (t & Ht & Hl & _)]; [congruence|].
    assert (Hbox : render_panel (view s) = LoadingBox)
      by (unfold render_panel; rewrite Hl; reflexivity).
    split; [exact Hl|]. split; [exact Hbox|].
    intros s' Hstep. inversion Hstep as [plan s1 Hr | s1 before after t' r Hp];
      subst.
    + congruence.
    + rewrite Ht in Hp.
      assert (Hparts : before = [] /\ after = [] /\ t = t').
      { destruct before as [|x before]; simpl in Hp.
        - inversion Hp. auto.
        - assert (Hnil : [] = before ++ t' :: after) by congruence.
          destruct before; discriminate Hnil. }
      destruct Hparts as (-> & -> & ->).
      exists t', r. split; [exact Ht | reflexivity].
  - intros plan Hr s'.
    assert (Hl : loading (view s) = false).
    { unfold render_panel in Hr. destruct (loading (view s));
        [discriminate Hr | reflexivity]. }
    assert (Hnone : pending s = []).
    { destruct Hs as [E | (t & _ & Hl' & _)]; [exact E | congruence]. }
    destruct (handlePayment_enters eth plan s) as (_ & Hset & Hlen).
    fold s' in Hset, Hlen. rewrite Hnone in Hlen.
    split; [exact Hnone|]. split; [exact Hlen | exact Hset].
Qed.

(** A click on the pay button: one invocation in flight, the loading box
    on screen. *)
Lemma pay_button_serializes_witness :
  let s := start true (handlePayment basic) start_session in
  pending start_session = []
  /\ steps true start_session s
  /\ List.length (pending s) = 1%nat
  /\ loading (view s) = true
  /\ render_panel (view s) = LoadingBox.
Proof.
  intros s.
  assert (Hsteps : steps true start_session s)
    by (apply (steps_next true _ _ _ (steps_refl true start_session)
                 (step_click_pay true basic start_session eq_refl))).
  destruct (pay_button_serializes true start_session s eq_refl Hsteps)
    as (_ & Hheld & _).
  destruct (Hheld ltac:(discriminate)) as (Hl & Hbox & _).
  split; [reflexivity|]. split; [exact Hsteps|].
  split; [reflexivity|]. split; [exact Hl | exact Hbox].
Defined.

(** ** The end-to-end scenarios *)

(** Scenario A: the wallet is on the chain and holds twice the price; the
    resource is delivered, and the retried request carries a token that
    decodes to the hash and chain id 84532. *)
Example scenario_A :
  let w' :=
    snd (run (scenario 84532 2000000 [usdc_option (js "base-sepolia")]
                (Ok tx_hash) (Ok resource_response))
           (handlePayment basic) start_world) in
  calls (history w')
  = [ api_get (js "/payment/basic") [];
      provider_getNetwork; provider_getSigner; signer_getAddress;
      token_balanceOf (js "0xUSDC") (js "0xPayer");
      token_transfer (js "0xUSDC") (js "0xMerchant") (js "1000000");
      tx_wait (js "0xabc") 1;
      api_get (js "/payment/basic")
        [(js "X-Payment", js "eyJoYXNoIjoiMHhhYmMiLCJjaGFpbklkIjo4NDUzMn0=")] ]
  /\ decodePaymentToken (js "eyJoYXNoIjoiMHhhYmMiLCJjaGFpbklkIjo4NDUzMn0=")
     = Some (js "0xabc", Some 84532%Z)
  /\ error w' = [] /\ loading w' = false
  /\ last (history w') (Did (alert []))
     = Did (set_loading false).
Proof. cbv zeta. repeat split. Qed.

(** Scenario B: half the price in the wallet; the attempt fails before
    any transfer, and the request is not sent again. *)
Example scenario_B :
  let w' :=
    snd (run (scenario 84532 500000 [usdc_option (js "base-sepolia")]
                (Ok tx_hash) (Ok resource_response))
           (handlePayment basic) start_world) in
  calls (history w')
  = [ api_get (js "/payment/basic") [];
      provider_getNetwork; provider_getSigner; signer_getAddress;
      token_balanceOf (js "0xUSDC") (js "0xPayer") ]
  /\ error w'
     = js "Insufficient Token Balance. You need 1000000 units of the token, but you only have 500000."
  /\ loading w' = false.
Proof. cbv zeta. repeat split. Qed.

(** Scenario C: the server accepts payment on a network that the registry
    does not have; no wallet call is made. *)
Example scenario_C :
  let w' :=
    snd (run (scenario 84532 2000000 [usdc_option (js "polygon")]
                (Ok tx_hash) (Ok resource_response))
           (handlePayment basic) start_world) in
  calls (history w') = [ api_get (js "/payment/basic") [] ]
  /\ error w'
     = js "No supported payment network found. Server accepts: polygon"
  /\ loading w' = false.
Proof. cbv zeta. repeat split. Qed.

(** Scenario D: the wallet is on chain 1; the switch is requested, and
    the flow goes on to the payment without reading the chain again. *)
Example scenario_D :
  let w' :=
    snd (run (scenario 1 2000000 [usdc_option (js "base-sepolia")]
                (Ok tx_hash) (Ok resource_response))
           (handlePayment basic) start_world) in
  calls (history w')
  = [ api_get (js "/payment/basic") [];
      provider_getNetwork;
      provider_send (wallet_switchEthereumChain (Some (js "0x14a34")));
      provider_getSigner; signer_getAddress;
      token_balanceOf (js "0xUSDC") (js "0xPayer");
      token_transfer (js "0xUSDC") (js "0xMerchant") (js "1000000");
      tx_wait (js "0xabc") 1;
      api_get (js "/payment/basic")
        [(js "X-Payment", js "eyJoYXNoIjoiMHhhYmMiLCJjaGFpbklkIjo4NDUzMn0=")] ]
  /\ error w' = [].
Proof. cbv zeta. repeat split. Qed.

(** The server accepts payment on a network called [constructor], which
    the registry does not have, and the wallet answers the switch request
    for an undefined chain without an error: the matcher lets the option
    through, the transfer is made on whatever chain the wallet is on, and
    the token carries no chain id. *)
Example inherited_network_is_paid :
  let w' :=
    snd (run (scenario 1 2000000 [usdc_option (js "constructor")]
                (Ok tx_hash) (Ok resource_response))
           (handlePayment basic) start_world) in
  registry (js "constructor") = None
  /\ calls (history w')
     = [ api_get (js "/payment/basic") [];
         provider_getNetwork;
         provider_send (wallet_switchEthereumChain None);
         provider_getSigner; signer_getAddress;
         token_balanceOf (js "0xUSDC") (js "0xPayer");
         token_transfer (js "0xUSDC") (js "0xMerchant") (js "1000000");
         tx_wait (js "0xabc") 1;
         api_get (js "/payment/basic")
           [(js "X-Payment", js "eyJoYXNoIjoiMHhhYmMifQ==")] ]
  /\ decodePaymentToken (js "eyJoYXNoIjoiMHhhYmMifQ==")
     = Some (js "0xabc", None).
Proof. cbv zeta. repeat split. Qed.

(** * Further properties *)

(** ** The matcher *)

Lemma findBestPaymentOption_leftmost_witness :
  findBestPaymentOption
    ([usdc_option (js "polygon")]
     ++ usdc_option (js "base-sepolia") :: [usdc_option (js "sepolia")])
  = Ok (usdc_option (js "base-sepolia"), OwnConfig base_sepolia).
Proof.
  apply (findBestPaymentOption_leftmost [usdc_option (js "polygon")]
           [usdc_option (js "sepolia")] (usdc_option (js "base-sepolia"))
           base_sepolia).
  - intros o [<- | []]. vm_compute. intuition discriminate.
  - intros o [<- | []]. reflexivity.
  - reflexivity.
Defined.

Lemma findBestPaymentOption_unsupported_witness :
  findBestPaymentOption [usdc_option (js "polygon"); usdc_option (js "solana")]
  = Err (new_Error
           (js "No supported payment network found. Server accepts: polygon, solana")).
Proof.
  apply (findBestPaymentOption_unsupported
           [usdc_option (js "polygon"); usdc_option (js "solana")]).
  - intros o [<- | [<- | []]]; vm_compute; intuition discriminate.
  - intros o [<- | [<- | []]]; reflexivity.
Defined.

Lemma NETWORK_MAP_get_inherited (key name : jsstring) :
  NETWORK_MAP_get key = Some (Inherited name) ->
  name = key /\ In key Object_prototype_names /\ registry key = None.
Proof.
  unfold NETWORK_MAP_get, registry.
  destruct (own_lookup key NETWORK_MAP); [discriminate|].
  destruct (existsb (str_eqb key) Object_prototype_names) eqn:E;
    [|discriminate].
  intros H. inversion H; subst. split; [reflexivity|]. split; [|reflexivity].
  apply existsb_exists in E. destruct E as (n & Hin & Heq).
  apply str_eqb_eq in Heq. subst n. exact Hin.
Qed.

(** X3: whatever [findBestPaymentOption] returns is one of the offered
    options, no option before it reads anything from [NETWORK_MAP], and
    it is paired with what [NETWORK_MAP] holds under its token: the
    registry's ChainConfig, or, for a token without a registry entry that
    names a member of [Object.prototype], that member.  It throws exactly
    when no offered token reads anything. *)
Theorem findBestPaymentOption_sound (accepts : list X402Option) :
  (forall option config,
      findBestPaymentOption accepts = Ok (option, config) ->
      (exists before after,
          accepts = before ++ option :: after
          /\ forall o, In o before -> NETWORK_MAP_get (network o) = None)
      /\ ((exists c, config = OwnConfig c
                     /\ registry (network option) = Some c)
          \/ (config = Inherited (network option)
              /\ registry (network option) = None
              /\ In (network option) Object_prototype_names)))
  /\ ((exists e, findBestPaymentOption accepts = Err e)
      <-> forall o, In o accepts -> NETWORK_MAP_get (network o) = None).
Proof.
  split.
  - intros option config H. unfold findBestPaymentOption in H.
    destruct (first_supported accepts) as [[o v]|] eqn:E; [|discriminate].
    inversion H; subst.
    destruct (first_supported_sound accepts option config E)
      as (before & after & Hacc & Hb & Hget).
    split; [exists before, after; split; assumption|].
    destruct config as [c|name].
    + left. exists c. split; [reflexivity|].
      apply NETWORK_MAP_get_config. exact Hget.
    + right. destruct (NETWORK_MAP_get_inherited _ _ Hget) as (-> & Hin & Hr).
      repeat split; assumption.
  - unfold findBestPaymentOption. rewrite first_supported_none.
    destruct (first_supported accepts) as [[o v]|]; split.
    + intros [e H]. discriminate.
    + discriminate.
    + reflexivity.
    + intros _. eexists. reflexivity.
Qed.

(** ** The token *)

Lemma quote_unit_literal (u : N) :
  (255 < u)%N -> is_surrogate u = false -> quote_unit u = [u].
Proof.
  intros Hu Hs. unfold is_surrogate in Hs. apply orb_false_iff in Hs.
  destruct Hs as [Hl Ht]. unfold quote_unit. rewrite Hl, Ht.
  repeat match goal with
         | |- context [N.eqb u ?k] =>
             destruct (N.eqb_spec u k); [lia|]
         end.
  destruct (N.ltb_spec u 32); [lia | reflexivity].
Qed.

(** A character above Latin-1 that is no surrogate is written to the JSON
    text as it is. *)
Lemma quote_units_keeps (u : N) (s : jsstring) :
  (255 < u)%N -> is_surrogate u = false ->
  In u s -> In u (quote_units s).
Proof.
  intros Hu Hs.
  assert (G : forall n s, (List.length s <= n)%nat ->
                          In u s -> In u (quote_units s)).
  { clear s. induction n as [|n IH]; intros s Hlen Hin.
    - destruct s; [contradiction | simpl in Hlen; lia].
    - destruct s as [|a [|b rest]]; [contradiction| |].
      + destruct Hin as [<- | []]. cbn [quote_units].
        rewrite quote_unit_literal by assumption. left. reflexivity.
      + rewrite quote_units_pair.
        destruct (is_leading_surrogate a && is_trailing_surrogate b) eqn:E.
        * apply andb_true_iff in E. destruct E as [Ea Eb].
          unfold is_surrogate in Hs. apply orb_false_iff in Hs.
          destruct Hin as [<- | [<- | Hin]]; [intuition congruence..|].
          right. right. apply IH; [simpl in Hlen |- *; lia | exact Hin].
        * apply in_or_app. destruct Hin as [<- | Hin].
          -- left. rewrite quote_unit_literal by assumption.
             left. reflexivity.
          -- right. apply IH; [simpl in Hlen |- *; lia | exact Hin]. }
  apply (G (List.length s)). lia.
Qed.

(** X4: [createPaymentToken] throws whenever the hash holds a character
    above Latin-1 that is not a surrogate half, a Chinese character for
    one: [JSON.stringify] copies it to the text, and [btoa] refuses the
    text.  The comment above the call says otherwise. *)
Theorem createPaymentToken_throws_outside_latin1 (txHash : jsstring)
    (chainId : option Z) (u : N)
    (Hin : In u txHash) (Habove : (255 < u)%N)
    (Hchar : is_surrogate u = false) :
  exists e, createPaymentToken txHash chainId = Err e.
Proof.
  unfold createPaymentToken. apply btoa_throws. intros Hl.
  pose proof (quote_units_keeps u txHash Habove Hchar Hin) as Hq.
  assert (Hu : In u (stringify_payload txHash chainId)).
  { unfold stringify_payload, QuoteJSONString.
    destruct chainId; cbn [join]; rewrite !in_app_iff; tauto. }
  unfold latin1 in Hl. rewrite Forall_forall in Hl.
  specialize (Hl u Hu). lia.
Qed.

Lemma createPaymentToken_throws_outside_latin1_witness :
  exists e, createPaymentToken [20013%N] (Some 84532%Z) = Err e.
Proof.
  apply (createPaymentToken_throws_outside_latin1 [20013%N] (Some 84532%Z)
           20013%N).
  - left. reflexivity.
  - reflexivity.
  - reflexivity.
Defined.

(** ** Transfers *)



(** ** Outcomes of handlePayment *)

Lemma effectless_bind {A B} (p : prog A) (f : A -> prog B) :
  effectless p -> (forall a, effectless (f a)) -> effectless (bind p f).
Proof.
  intros Hp Hf. induction p as [a|e|c k IH|k IH|a k IH]; simpl in *; auto.
Qed.

Lemma effectless_try_catch {A} (p : prog A) (h : js_error -> prog A) :
  effectless p -> (forall e, effectless (h e)) -> effectless (try_catch p h).
Proof.
  intros Hp Hh. induction p as [a|e|c k IH|k IH|a k IH]; simpl in *; auto.
Qed.

Lemma effectless_await (c : call) : effectless (await c).
Proof. intros [v|e]; exact I. Qed.

Lemma effectless_lift {A} (r : result A) : effectless (lift r).
Proof. destruct r; exact I. Qed.

Lemma effectless_ensureNetwork (config : registry_value) :
  effectless (ensureNetwork config).
Proof.
  unfold ensureNetwork. apply effectless_bind; [apply effectless_await|].
  intros chainId. destruct (same_chain _ _); [exact I|].
  apply effectless_try_catch; [apply effectless_await|].
  intros e. destruct (is_4902 e); [apply effectless_await | exact I].
Qed.

Lemma effectless_executePayment (option : X402Option)
    (config : registry_value) :
  effectless (executePayment option config).
Proof.
  unfold executePayment. intros present.
  destruct (negb present); [exact I|].
  repeat (apply effectless_bind;
          [first [apply effectless_ensureNetwork | apply effectless_await
                 | apply effectless_lift]|]; intros ?).
  destruct (_ <? _)%Z; [exact I|].
  repeat (apply effectless_bind; [apply effectless_await|]; intros ?).
  exact I.
Qed.

(** A program without synchronous effects leaves the view as it is and
    adds calls to the history. *)
Lemma run_effectless {A} (env : Env) (p : prog A) (w w' : world)
    (r : result A) :
  effectless p -> run env p w = (r, w') ->
  exists cs,
    history w' = history w ++ map Called cs
    /\ loading w' = loading w /\ error w' = error w /\ user w' = user w.
Proof.
  revert w. induction p as [a|e|c k IH|k IH|a k IH]; intros w Hp Hrun;
    simpl in *.
  - inversion Hrun; subst. exists []. rewrite app_nil_r. auto.
  - inversion Hrun; subst. exists []. rewrite app_nil_r. auto.
  - destruct (IH _ _ (Hp _) Hrun) as (cs & Hh & Hl & He & Hu).
    exists (c :: cs). rewrite Hh, history_record, <- app_assoc.
    repeat split; assumption.
  - apply (IH _ _ (Hp _) Hrun).
  - contradiction.
Qed.

Lemma no_delivery_in_calls (cs : list call) :
  existsb is_delivery (map Called cs) = false.
Proof. induction cs; simpl; auto. Qed.

(** The payment flow leaves [loading] and [error] alone, and delivers
    the resource exactly when it returns. *)
Lemma pay_and_retry_outcome (env : Env) (plan : jsstring)
    (res402 : response) (w w' : world) (r : result unit) :
  run env (pay_and_retry plan res402) w = (r, w') ->
  exists evs,
    history w' = history w ++ evs
    /\ loading w' = loading w /\ error w' = error w /\ user w' = user w
    /\ existsb is_delivery evs
       = match r with Ok _ => true | Err _ => false end.
Proof.
  unfold pay_and_retry.
  destruct (accepts_of (data res402)) as [accepts|].
  2:{ intros H; inversion H; subst. exists []. rewrite app_nil_r. auto. }
  destruct (findBestPaymentOption accepts) as [[option config]|e].
  2:{ intros H; inversion H; subst. exists []. rewrite app_nil_r. auto. }
  cbn [lift bind]. rewrite run_bind.
  destruct (run env (executePayment option config) w) as [[txHash|e] w1]
    eqn:Hpay;
    destruct (run_effectless env _ w w1 _
                (effectless_executePayment option config) Hpay)
      as (cs & Hh & Hl & He & Hu).
  2:{ intros H; inversion H; subst. exists (map Called cs).
      rewrite no_delivery_in_calls. auto. }
  destruct (createPaymentToken txHash (get_chainIdDec config))
    as [token|e].
  2:{ intros H; inversion H; subst. exists (map Called cs).
      rewrite no_delivery_in_calls. auto. }
  cbn [lift bind]. rewrite run_bind. run_await.
  destruct (answer env (history w1) _) as [retryRes|e].
  - destruct (handleSuccess_run env retryRes
                (record (Called (api_get (payment_url plan)
                                   [(js "X-Payment", token)])) w1))
      as (a & -> & Ha).
    intros H; inversion H; subst.
    eexists (map Called cs ++ [Called _; Did a]).
    rewrite history_perform, history_record, Hh, <- !app_assoc.
    cbn [List.app]. split; [reflexivity|].
    rewrite existsb_app, no_delivery_in_calls.
    destruct a; try contradiction; cbn; auto.
  - intros H; inversion H; subst.
    eexists (map Called cs ++ [Called _]).
    rewrite history_record, Hh, <- !app_assoc.
    split; [reflexivity|].
    rewrite existsb_app, no_delivery_in_calls. cbn. auto.
Qed.

Lemma on_request_error_run (env : Env) (err : js_error) (w : world) :
  exists text,
    run env (on_request_error err) w = (Ok tt, perform (set_error text) w)
    /\ text <> [].
Proof.
  eexists. split; [reflexivity|].
  apply or_else_nonempty, or_else_nonempty. discriminate.
Qed.

(** X6: [handlePayment] never rejects.  Every run ends with [loading]
    cleared and the user untouched, and the run ends with an empty error
    text exactly when the resource was delivered, by navigation or by the
    alert: every failure, of the request, the matcher, the wallet, the
    transfer or the retried request, leaves a text in [error]. *)
Theorem handlePayment_always_settles (env : Env) (plan : jsstring)
    (w : world) :
  exists w' evs,
    run env (handlePayment plan) w = (Ok tt, w')
    /\ history w' = history w ++ evs
    /\ loading w' = false
    /\ user w' = user w
    /\ (error w' = [] <-> existsb is_delivery evs = true).
Proof.
  pose proof (handlePayment_run env plan w) as R. cbv zeta in R.
  fold (entered w) in R. fold (requested plan w) in R.
  assert (Hreq : history (requested plan w)
                 = history w ++ [Did (set_loading true); Did (set_error []);
                                 Called (api_get (payment_url plan) [])]).
  { unfold requested, entered.
    rewrite history_record, !history_perform, <- !app_assoc. reflexivity. }
  destruct (answer env (history (entered w)) (api_get (payment_url plan) []))
    as [res|err].
  - destruct (handleSuccess_run env res (requested plan w)) as (a & Hs & Ha).
    rewrite Hs in R. cbn [snd] in R.
    eexists. eexists. split; [exact R|].
    rewrite !history_perform, Hreq, <- !app_assoc. cbn [List.app].
    split; [reflexivity|]. split; [reflexivity|].
    split; [destruct a; reflexivity|].
    destruct a; try contradiction; cbn; split; auto.
  - destruct (is_402 err) as [res402|].
    + destruct (run env (pay_and_retry plan res402) (requested plan w))
        as [[[]|payErr] w2] eqn:Hpay;
        destruct (pay_and_retry_outcome env plan res402 _ w2 _ Hpay)
          as (evs & Hh & Hl & He & Hu & Hd).
      * eexists. eexists. split; [exact R|].
        rewrite history_perform, Hh, Hreq, <- !app_assoc. cbn [List.app].
        split; [reflexivity|]. split; [reflexivity|].
        split; [exact Hu|].
        cbn [existsb is_delivery orb]. rewrite existsb_app, Hd.
        cbn [error perform record]. rewrite He. cbn. split; auto.
      * eexists. eexists. split; [exact R|].
        rewrite !history_perform, Hh, Hreq, <- !app_assoc. cbn [List.app].
        split; [reflexivity|]. split; [reflexivity|].
        split; [exact Hu|].
        cbn [existsb is_delivery orb]. rewrite existsb_app, Hd.
        cbn [error perform record existsb is_delivery orb].
        split; [intros H; exfalso; revert H;
                apply payment_error_text_nonempty | discriminate].
    + destruct (on_request_error_run env err (requested plan w))
        as (text & Hs & Hne).
      rewrite Hs in R. cbn [snd] in R.
      eexists. eexists. split; [exact R|].
      rewrite !history_perform, Hreq, <- !app_assoc. cbn [List.app].
      split; [reflexivity|]. split; [reflexivity|].
      split; [reflexivity|].
      cbn. split; [intros H; contradiction | discriminate].
Qed.

(** X7: unless the first response is a 402 whose body has an [accepts]
    array from which the matcher selects an option, [handlePayment] makes
    one call and no more, the request for the resource: the wallet is not
    touched and the request is not repeated. *)
Theorem handlePayment_single_request (env : Env) (plan : jsstring)
    (w : world)
    (Hno : forall err res402 accepts found,
        answer env (history (entered w)) (api_get (payment_url plan) [])
        = Err err ->
        is_402 err = Some res402 ->
        accepts_of (data res402) = Some accepts ->
        findBestPaymentOption accepts <> Ok found) :
  calls (history (snd (run env (handlePayment plan) w)))
  = calls (history w) ++ [api_get (payment_url plan) []].
Proof.
  pose proof (handlePayment_run env plan w) as R. cbv zeta in R.
  fold (entered w) in R. fold (requested plan w) in R. rewrite R. clear R.
  destruct (answer env (history (entered w)) (api_get (payment_url plan) []))
    as [res|err] eqn:Hfirst.
  - destruct (handleSuccess_run env res (requested plan w)) as (a & -> & _).
    cbn [snd]. rewrite !calls_perform. apply calls_requested.
  - destruct (is_402 err) as [res402|] eqn:H402.
    + assert (Hfail : exists payErr,
                 run env (pay_and_retry plan res402) (requested plan w)
                 = (Err payErr, requested plan w)).
      { unfold pay_and_retry.
        destruct (accepts_of (data res402)) as [accepts|] eqn:Hacc;
          [|eexists; reflexivity].
        destruct (findBestPaymentOption accepts) as [found|e] eqn:Hf;
          [|eexists; reflexivity].
        exfalso. exact (Hno err res402 accepts found eq_refl H402 Hacc Hf). }
      destruct Hfail as (payErr & ->). cbn [snd].
      rewrite !calls_perform. apply calls_requested.
    + destruct (on_request_error_run env err (requested plan w))
        as (text & -> & _).
      cbn [snd]. rewrite !calls_perform. apply calls_requested.
Qed.

(** Scenario C: the only offered network is not in the registry. *)
Lemma handlePayment_single_request_witness :
  calls (history (snd (run (scenario 84532 2000000
                              [usdc_option (js "polygon")] (Ok tx_hash)
                              (Ok resource_response))
                         (handlePayment basic) start_world)))
  = [api_get (js "/payment/basic") []].
Proof.
  apply (handlePayment_single_request
           (scenario 84532 2000000 [usdc_option (js "polygon")] (Ok tx_hash)
              (Ok resource_response))
           basic start_world).
  intros err res402 accepts found Hfirst H402 Hacc.
  cbn in Hfirst. inversion Hfirst; subst. cbn in H402.
  inversion H402; subst. cbn in Hacc. inversion Hacc; subst.
  discriminate.
Defined.

(** ** Programs of the other components *)

Lemma exec_bind {C R S A B} (answer : Async.oracle C R)
    (p : Async.async C R S A) (f : A -> Async.async C R S B)
    (made : list C) (s : S) :
  Async.exec answer (Async.bind p f) made s
  = match Async.exec answer p made s with
    | (Ok a, (made1, s1)) => Async.exec answer (f a) made1 s1
    | (Err e, rest) => (Err e, rest)
    end.
Proof.
  revert made s. induction p as [a|e|c k IH|k IH|g k IH]; intros made s;
    simpl; auto.
Qed.

Lemma exec_try_catch {C R S A} (answer : Async.oracle C R)
    (p : Async.async C R S A) (h : js_error -> Async.async C R S A)
    (made : list C) (s : S) :
  Async.exec answer (Async.try_catch p h) made s
  = match Async.exec answer p made s with
    | (Ok a, rest) => (Ok a, rest)
    | (Err e, (made1, s1)) => Async.exec answer (h e) made1 s1
    end.
Proof.
  revert made s. induction p as [a|e|c k IH|k IH|g k IH]; intros made s;
    simpl; auto.
Qed.

Lemma exec_finally_write {C R S A} (answer : Async.oracle C R)
    (p : Async.async C R S A) (f : S -> S) (made : list C) (s : S) :
  Async.exec answer (Async.finally p (Async.write f)) made s
  = match Async.exec answer p made s with
    | (r, (made1, s1)) => (r, (made1, f s1))
    end.
Proof.
  revert made s. induction p as [a|e|c k IH|k IH|g k IH]; intros made s;
    simpl; auto.
Qed.

(** The calls made before are kept, in every run. *)
Lemma exec_extends {C R S A} (answer : Async.oracle C R)
    (p : Async.async C R S A) (made : list C) (s : S) :
  exists more, fst (snd (Async.exec answer p made s)) = made ++ more.
Proof.
  revert made s. induction p as [a|e|c k IH|k IH|g k IH]; intros made s;
    simpl; try (exists []; rewrite app_nil_r; reflexivity); auto.
  destruct (IH (answer made c) (made ++ [c]) s) as (more & ->).
  exists (c :: more). rewrite <- app_assoc. reflexivity.
Qed.

(** ** Masked secrets *)

Lemma bullets_length : List.length AccessKeyManager.bullets = 8%nat.
Proof. reflexivity. Qed.

Lemma maskSecret_short (s : jsstring) :
  (List.length s <= 8)%nat ->
  AccessKeyManager.maskSecret s = AccessKeyManager.bullets.
Proof.
  intros H. unfold AccessKeyManager.maskSecret.
  apply Nat.leb_le in H. rewrite H. reflexivity.
Qed.

Lemma maskSecret_long (s : jsstring) :
  (8 < List.length s)%nat ->
  AccessKeyManager.maskSecret s
  = AccessKeyManager.slice_head s ++ AccessKeyManager.bullets
    ++ AccessKeyManager.slice_tail s
  /\ List.length (AccessKeyManager.slice_head s) = 4%nat
  /\ List.length (AccessKeyManager.slice_tail s) = 4%nat.
Proof.
  intros H. unfold AccessKeyManager.maskSecret.
  destruct (Nat.leb_spec (List.length s) 8); [lia|].
  split; [reflexivity|].
  unfold AccessKeyManager.slice_head, AccessKeyManager.slice_tail.
  rewrite length_firstn, length_skipn. lia.
Qed.

(** X8: a masked secret is eight bullets, or sixteen characters of which
    the middle eight are bullets; masking what is already masked changes
    nothing. *)
Theorem maskSecret_idempotent (secret : jsstring) :
  AccessKeyManager.maskSecret (AccessKeyManager.maskSecret secret)
  = AccessKeyManager.maskSecret secret
  /\ (AccessKeyManager.maskSecret secret = AccessKeyManager.bullets
      \/ exists head tail,
           AccessKeyManager.maskSecret secret
           = head ++ AccessKeyManager.bullets ++ tail
           /\ List.length head = 4%nat /\ List.length tail = 4%nat).
Proof.
  destruct (Nat.le_gt_cases (List.length secret) 8) as [Hs|Hl].
  - rewrite (maskSecret_short secret Hs). split; [reflexivity | left; reflexivity].
  - destruct (maskSecret_long secret Hl) as (E & Hh & Ht).
    split.
    + rewrite E.
      set (h := AccessKeyManager.slice_head secret) in *.
      set (t := AccessKeyManager.slice_tail secret) in *.
      assert (Hlen : (8 < List.length (h ++ AccessKeyManager.bullets ++ t))%nat).
      { rewrite !length_app, bullets_length. lia. }
      destruct (maskSecret_long _ Hlen) as (E' & _ & _). rewrite E'.
      unfold AccessKeyManager.slice_head, AccessKeyManager.slice_tail.
      rewrite firstn_app, Hh, Nat.sub_diag, firstn_O, app_nil_r.
      rewrite <- Hh at 1. rewrite firstn_all.
      rewrite !length_app, bullets_length, Hh, Ht.
      rewrite skipn_app, Hh.
      rewrite (skipn_all2 h) by lia. cbn [List.app].
      rewrite skipn_app, bullets_length.
      rewrite (skipn_all2 AccessKeyManager.bullets)
        by (rewrite bullets_length; lia).
      cbn [List.app]. replace (4 + (8 + 4) - 4 - 4 - 8)%nat with 0%nat by lia.
      reflexivity.
    + right. eexists. eexists. split; [exact E | split; assumption].
Qed.

Lemma app_same_length {T} (a a' b b' : list T) :
  List.length a = List.length a' -> a ++ b = a' ++ b' -> a = a' /\ b = b'.
Proof.
  revert a'. induction a as [|x a IH]; intros [|x' a'] Hlen H;
    simpl in *; try discriminate.
  - split; [reflexivity | exact H].
  - inversion H; subst. destruct (IH a') as [-> ->]; auto.
Qed.

(** X9: what a masked secret gives away.  Secrets of up to eight
    characters all look the same.  Longer secrets look the same exactly
    when they start with the same four characters and end with the same
    four; the characters in between, all but eight of the secret, are
    the ones that the mask hides. *)
Theorem maskSecret_reveals (s s' : jsstring) :
  ((List.length s <= 8)%nat -> (List.length s' <= 8)%nat ->
   AccessKeyManager.maskSecret s = AccessKeyManager.maskSecret s')
  /\ ((8 < List.length s)%nat -> (8 < List.length s')%nat ->
      (AccessKeyManager.maskSecret s = AccessKeyManager.maskSecret s'
       <-> firstn 4 s = firstn 4 s'
           /\ skipn (List.length s - 4) s = skipn (List.length s' - 4) s'))
  /\ ((8 < List.length s)%nat ->
      exists hidden,
        s = firstn 4 s ++ hidden ++ skipn (List.length s - 4) s
        /\ List.length hidden = (List.length s - 8)%nat).
Proof.
  split; [|split].
  - intros H H'. rewrite !maskSecret_short by assumption. reflexivity.
  - intros H H'.
    destruct (maskSecret_long s H) as (E & Hh & Ht).
    destruct (maskSecret_long s' H') as (E' & Hh' & Ht').
    rewrite E, E'.
    unfold AccessKeyManager.slice_head, AccessKeyManager.slice_tail in *.
    split.
    + intros Heq.
      destruct (app_same_length _ _ _ _ (eq_trans Hh (eq_sym Hh')) Heq)
        as [Hhead Hrest].
      split; [exact Hhead|].
      apply app_inv_head in Hrest. exact Hrest.
    + intros [-> ->]. reflexivity.
  - intros H.
    exists (skipn 4 (firstn (List.length s - 4) s)).
    split.
    + rewrite app_assoc.
      replace (firstn 4 s) with (firstn 4 (firstn (List.length s - 4) s))
        by (rewrite firstn_firstn; f_equal; lia).
      rewrite (firstn_skipn 4 (firstn (List.length s - 4) s)).
      rewrite firstn_skipn. reflexivity.
    + rewrite length_skipn, length_firstn. lia.
Qed.

(** ** Visible secrets *)

Lemma set_has_In (x : jsstring) (s : list jsstring) :
  AccessKeyManager.set_has x s = true <-> In x s.
Proof.
  unfold AccessKeyManager.set_has. rewrite existsb_exists. split.
  - intros (y & Hin & E). apply str_eqb_eq in E. subst. exact Hin.
  - intros Hin. exists x. split; [exact Hin | apply str_eqb_refl].
Qed.

Lemma set_has_toggle_same (x : jsstring) (s : list jsstring) :
  AccessKeyManager.set_has x (AccessKeyManager.toggle x s)
  = negb (AccessKeyManager.set_has x s).
Proof.
  unfold AccessKeyManager.toggle.
  destruct (AccessKeyManager.set_has x s) eqn:E; cbn [negb].
  - destruct (AccessKeyManager.set_has x (AccessKeyManager.set_delete x s))
      eqn:E'; [|reflexivity].
    apply set_has_In in E'. unfold AccessKeyManager.set_delete in E'.
    apply filter_In in E'. destruct E' as [_ E'].
    rewrite str_eqb_refl in E'. discriminate.
  - unfold AccessKeyManager.set_add. rewrite E. apply set_has_In.
    apply in_or_app. right. left. reflexivity.
Qed.

Lemma set_has_toggle_other (x y : jsstring) (s : list jsstring) :
  y <> x ->
  AccessKeyManager.set_has y (AccessKeyManager.toggle x s)
  = AccessKeyManager.set_has y s.
Proof.
  intros Hne.
  assert (G : In y (AccessKeyManager.toggle x s) <-> In y s).
  { unfold AccessKeyManager.toggle, AccessKeyManager.set_add.
    destruct (AccessKeyManager.set_has x s).
    - unfold AccessKeyManager.set_delete. rewrite filter_In. split.
      + intros [H _]. exact H.
      + intros H. split; [exact H|].
        apply negb_true_iff, str_eqb_neq. congruence.
    - rewrite in_app_iff. split; [|auto].
      intros [H | [H | []]]; [exact H | congruence]. }
  destruct (AccessKeyManager.set_has y s) eqn:E.
  - apply set_has_In, G, set_has_In. exact E.
  - destruct (AccessKeyManager.set_has y (AccessKeyManager.toggle x s)) eqn:E';
      [|reflexivity].
    apply set_has_In, G, set_has_In in E'. congruence.
Qed.

Lemma NoDup_toggle (x : jsstring) (s : list jsstring) :
  NoDup s -> NoDup (AccessKeyManager.toggle x s).
Proof.
  intros Hs. unfold AccessKeyManager.toggle, AccessKeyManager.set_add.
  destruct (AccessKeyManager.set_has x s) eqn:E.
  - apply NoDup_filter. exact Hs.
  - apply NoDup_app; [exact Hs | repeat constructor; intros [] |].
    intros y Hy [<- | []].
    apply set_has_In in Hy. congruence.
Qed.

(** X10: a click on the eye button of a key flips whether that key's
    secret is visible, leaves every other key as it was, and keeps the
    set free of duplicates. *)
Theorem toggleSecretVisibility_flips_one (answer : Async.oracle _ _)
    (made : list AccessKeyManager.call) (s : AccessKeyManager.refs)
    (accessKey : jsstring) :
  exists s',
    Async.exec answer (AccessKeyManager.toggleSecretVisibility accessKey)
      made s
    = (Ok tt, (made, s'))
    /\ AccessKeyManager.set_has accessKey (AccessKeyManager.visibleSecrets s')
       = negb (AccessKeyManager.set_has accessKey
                 (AccessKeyManager.visibleSecrets s))
    /\ (forall other,
          other <> accessKey ->
          AccessKeyManager.set_has other (AccessKeyManager.visibleSecrets s')
          = AccessKeyManager.set_has other (AccessKeyManager.visibleSecrets s))
    /\ (NoDup (AccessKeyManager.visibleSecrets s) ->
        NoDup (AccessKeyManager.visibleSecrets s'))
    /\ AccessKeyManager.keys s' = AccessKeyManager.keys s.
Proof.
  eexists. split; [reflexivity|]. cbn.
  split; [apply set_has_toggle_same|].
  split; [intros other; apply set_has_toggle_other|].
  split; [apply NoDup_toggle | reflexivity].
Qed.

Lemma exec_clicks (answer : Async.oracle _ _)
    (made : list AccessKeyManager.call) (accessKeys : list jsstring)
    (s : AccessKeyManager.refs) :
  Async.exec answer (AccessKeyManager.clicks accessKeys) made s
  = (Ok tt,
     (made,
      AccessKeyManager.set_visibleSecrets
        (fold_left (fun v k => AccessKeyManager.toggle k v) accessKeys
           (AccessKeyManager.visibleSecrets s))
        s)).
Proof.
  revert s. induction accessKeys as [|k rest IH]; intros s.
  - destruct s; reflexivity.
  - cbn [AccessKeyManager.clicks]. rewrite exec_bind. cbn.
    rewrite IH. cbn. reflexivity.
Qed.

Lemma set_has_toggles (x : jsstring) (accessKeys v : list jsstring) :
  AccessKeyManager.set_has x
    (fold_left (fun v k => AccessKeyManager.toggle k v) accessKeys v)
  = xorb (AccessKeyManager.set_has x v)
      (Nat.odd (List.length (filter (str_eqb x) accessKeys))).
Proof.
  revert v. induction accessKeys as [|k rest IH]; intros v.
  - cbn. rewrite xorb_false_r. reflexivity.
  - cbn [fold_left filter]. rewrite IH.
    destruct (str_eqb x k) eqn:E.
    + apply str_eqb_eq in E. subst k. rewrite set_has_toggle_same.
      cbn [List.length]. rewrite Nat.odd_succ, <- Nat.negb_odd.
      destruct (AccessKeyManager.set_has x v), (Nat.odd _); reflexivity.
    + apply str_eqb_neq in E. rewrite set_has_toggle_other by exact E.
      reflexivity.
Qed.

(** X11: after any sequence of clicks on eye buttons, the cell of a key
    shows its secret in clear exactly when the key's visibility at the
    start, flipped once for every click on its own button, says so, and
    the mask of [maskSecret] otherwise; clicks on the buttons of other
    keys do not count.  In the initial state every cell shows the
    mask. *)
Theorem shown_secret_by_parity (answer : Async.oracle _ _)
    (made : list AccessKeyManager.call) (s : AccessKeyManager.refs)
    (accessKeys : list jsstring) (key : AccessKeyManager.AccessKey) :
  let s' :=
    snd (snd (Async.exec answer (AccessKeyManager.clicks accessKeys) made s))
  in
  let times :=
    List.length (filter (str_eqb (AccessKeyManager.accessKey key)) accessKeys)
  in
  AccessKeyManager.shown_secret s' key
  = (if xorb (AccessKeyManager.set_has (AccessKeyManager.accessKey key)
                (AccessKeyManager.visibleSecrets s))
          (Nat.odd times)
     then AccessKeyManager.secret key
     else AccessKeyManager.maskSecret (AccessKeyManager.secret key))
  /\ AccessKeyManager.shown_secret AccessKeyManager.initial key
     = AccessKeyManager.maskSecret (AccessKeyManager.secret key).
Proof.
  cbv zeta. rewrite exec_clicks. cbn [snd].
  unfold AccessKeyManager.shown_secret.
  cbn [AccessKeyManager.visibleSecrets AccessKeyManager.set_visibleSecrets].
  rewrite set_has_toggles. split; reflexivity.
Qed.

(** ** Trimming *)

Lemma trim_start_clean (s : jsstring) :
  match trim_start s with
  | [] => True
  | u :: _ => is_white_space u = false
  end.
Proof.
  induction s as [|u s IH]; cbn [trim_start]; [exact I|].
  destruct (is_white_space u) eqn:E; [exact IH | exact E].
Qed.

Lemma trim_start_suffix (s : jsstring) :
  exists spaces, s = spaces ++ trim_start s.
Proof.
  induction s as [|u s IH]; cbn [trim_start]; [exists []; reflexivity|].
  destruct (is_white_space u).
  - destruct IH as (spaces & E). exists (u :: spaces). cbn. f_equal. exact E.
  - exists []. reflexivity.
Qed.

(** [trim] leaves no white space at either end. *)
Lemma trim_trimmed (s : jsstring) : AccessKeyManager.trimmed (trim s).
Proof.
  unfold AccessKeyManager.trimmed, trim. split.
  - pose proof (trim_start_clean s) as Hc.
    destruct (trim_start_suffix (List.rev (trim_start s))) as (spaces & E).
    apply (f_equal (@List.rev N)) in E.
    rewrite rev_involutive, rev_app_distr in E.
    destruct (List.rev (trim_start (List.rev (trim_start s)))) as [|u t];
      [exact I|].
    rewrite E in Hc. exact Hc.
  - rewrite rev_involutive. apply trim_start_clean.
Qed.

Lemma is_empty_true (s : jsstring) :
  AccessKeyManager.is_empty s = true <-> s = [].
Proof. destruct s; split; (reflexivity || discriminate). Qed.

Lemma failure_text_nonempty (err : js_error) (fallback : jsstring) :
  fallback <> [] -> AccessKeyManager.failure_text err fallback <> [].
Proof.
  intros H. unfold AccessKeyManager.failure_text.
  apply or_else_nonempty, or_else_nonempty. exact H.
Qed.

(** ** The key list *)

Ltac exec_steps :=
  cbn [Async.exec Async.bind Async.try_catch Async.finally Async.write
       Async.wait Async.read fst snd].

(** The run of [fetchKeys], by what the server answers. *)
Lemma fetchKeys_exec (answer : Async.oracle _ _)
    (made : list AccessKeyManager.call) (s : AccessKeyManager.refs) :
  let get := AccessKeyManager.api_get (js "/access-key") in
  let s0 := AccessKeyManager.set_error []
              (AccessKeyManager.set_loading true s) in
  Async.exec answer AccessKeyManager.fetchKeys made s
  = (Ok tt,
     (made ++ [get],
      AccessKeyManager.set_loading false
        match answer made get with
        | Ok res =>
            AccessKeyManager.set_overview
              (Some (AccessKeyManager.overview_of
                       (AccessKeyManager.getResponseData res)))
              (AccessKeyManager.set_keys
                 (AccessKeyManager.keys_of
                    (AccessKeyManager.getResponseData res)) s0)
        | Err err =>
            AccessKeyManager.set_error
              (AccessKeyManager.failure_text err (js "Failed to fetch keys"))
              s0
        end)).
Proof.
  intros get s0. unfold AccessKeyManager.fetchKeys. exec_steps.
  fold get. destruct (answer made get) as [res|err]; reflexivity.
Qed.

(** X12: [fetchKeys] never rejects and makes one call, the GET of the
    list.  It ends with [loading] cleared.  When the server answers, the
    keys and the overview are those of the answer and the error text is
    empty; when the request fails, the keys and the overview stay as they
    were and the error text is set.  The success text, the dialogs, the
    forms and the visible secrets are not touched. *)
Theorem fetchKeys_outcome (answer : Async.oracle _ _)
    (made : list AccessKeyManager.call) (s : AccessKeyManager.refs) :
  let get := AccessKeyManager.api_get (js "/access-key") in
  exists s',
    Async.exec answer AccessKeyManager.fetchKeys made s
    = (Ok tt, (made ++ [get], s'))
    /\ AccessKeyManager.loading s' = false
    /\ AccessKeyManager.success s' = AccessKeyManager.success s
    /\ AccessKeyManager.visibleSecrets s' = AccessKeyManager.visibleSecrets s
    /\ AccessKeyManager.showCreateDialog s'
       = AccessKeyManager.showCreateDialog s
    /\ AccessKeyManager.newKeyName s' = AccessKeyManager.newKeyName s
    /\ (forall res,
          answer made get = Ok res ->
          AccessKeyManager.keys s'
          = AccessKeyManager.keys_of (AccessKeyManager.getResponseData res)
          /\ AccessKeyManager.overview s'
             = Some (AccessKeyManager.overview_of
                       (AccessKeyManager.getResponseData res))
          /\ AccessKeyManager.error s' = [])
    /\ (forall err,
          answer made get = Err err ->
          AccessKeyManager.keys s' = AccessKeyManager.keys s
          /\ AccessKeyManager.overview s' = AccessKeyManager.overview s
          /\ AccessKeyManager.error s'
             = AccessKeyManager.failure_text err (js "Failed to fetch keys")
          /\ AccessKeyManager.error s' <> []).
Proof.
  intros get. eexists. split; [apply fetchKeys_exec|]. fold get.
  destruct (answer made get) as [res|err]; cbn;
    repeat (split; [reflexivity|]); split.
  - intros res' H. inversion H; subst. repeat split.
  - intros err' H. discriminate.
  - intros res' H. discriminate.
  - intros err' H. inversion H; subst. repeat split.
    apply failure_text_nonempty. discriminate.
Qed.

(** ** Creating, renaming and deleting keys *)

(** The end of a mutation: the finally clause after the refetch. *)
Lemma refetch_exec (answer : Async.oracle _ _)
    (made : list AccessKeyManager.call) (s : AccessKeyManager.refs)
    (h : js_error -> AccessKeyManager.program unit) :
  Async.exec answer
    (Async.finally (Async.try_catch AccessKeyManager.fetchKeys h)
       (Async.write (AccessKeyManager.set_loading false)))
    made s
  = (Ok tt,
     (made ++ [AccessKeyManager.api_get (js "/access-key")],
      AccessKeyManager.set_loading false
        (snd (snd (Async.exec answer AccessKeyManager.fetchKeys made s))))).
Proof.
  rewrite exec_finally_write, exec_try_catch.
  pose proof (fetchKeys_exec answer made s) as E. cbv zeta in E.
  rewrite E. reflexivity.
Qed.

(** The run of [createKey] for a name that is not blank. *)
Lemma createKey_exec (answer : Async.oracle _ _)
    (made : list AccessKeyManager.call) (s : AccessKeyManager.refs) :
  trim (AccessKeyManager.newKeyName s) <> [] ->
  let post :=
    AccessKeyManager.api_post (js "/access-key")
      (AccessKeyManager.create_fields (trim (AccessKeyManager.newKeyName s))
         (AccessKeyManager.newKeyType s)) in
  let s0 := AccessKeyManager.set_error []
              (AccessKeyManager.set_loading true s) in
  Async.exec answer AccessKeyManager.createKey made s
  = match answer made post with
    | Err err =>
        (Ok tt,
         (made ++ [post],
          AccessKeyManager.set_loading false
            (AccessKeyManager.set_error
               (AccessKeyManager.failure_text err (js "Failed to create key"))
               s0)))
    | Ok _ =>
        let s1 :=
          AccessKeyManager.set_newKeyName []
            (AccessKeyManager.set_showCreateDialog false
               (AccessKeyManager.set_success (js "Key created successfully")
                  s0)) in
        (Ok tt,
         ((made ++ [post]) ++ [AccessKeyManager.api_get (js "/access-key")],
          AccessKeyManager.set_loading false
            (snd (snd (Async.exec answer AccessKeyManager.fetchKeys
                         (made ++ [post]) s1)))))
    end.
Proof.
  intros Hname post s0. unfold AccessKeyManager.createKey.
  cbn [Async.exec].
  destruct (AccessKeyManager.is_empty (trim (AccessKeyManager.newKeyName s)))
    eqn:E; [apply is_empty_true in E; contradiction|].
  exec_steps.
  change (AccessKeyManager.newKeyName
            (AccessKeyManager.set_error []
               (AccessKeyManager.set_loading true s)))
    with (AccessKeyManager.newKeyName s).
  change (AccessKeyManager.newKeyType
            (AccessKeyManager.set_error []
               (AccessKeyManager.set_loading true s)))
    with (AccessKeyManager.newKeyType s).
  fold post. destruct (answer made post) as [[]|err]; [|reflexivity].
  exec_steps. apply refetch_exec.
Qed.

(** X13: [createKey] never sends a blank or a padded name.  What it
    posts is the name of the form with the white space at both ends
    removed, and the type of the form; when nothing is left of the name
    it makes no call at all and asks for a name, leaving [loading] as it
    was. *)
Theorem createKey_posts_trimmed_name (answer : Async.oracle _ _)
    (made : list AccessKeyManager.call) (s : AccessKeyManager.refs) :
  let name := trim (AccessKeyManager.newKeyName s) in
  exists more s',
    Async.exec answer AccessKeyManager.createKey made s
    = (Ok tt, (made ++ more, s'))
    /\ (name = [] ->
        more = []
        /\ s' = AccessKeyManager.set_error (js "Please enter a key name") s)
    /\ (forall c,
          In c more ->
          c = AccessKeyManager.api_get (js "/access-key")
          \/ (c = AccessKeyManager.api_post (js "/access-key")
                    (AccessKeyManager.create_fields name
                       (AccessKeyManager.newKeyType s))
              /\ name <> []
              /\ AccessKeyManager.trimmed name)).
Proof.
  intros name. subst name.
  destruct (trim (AccessKeyManager.newKeyName s)) as [|u t] eqn:E.
  - exists [], (AccessKeyManager.set_error (js "Please enter a key name") s).
    split.
    + unfold AccessKeyManager.createKey. cbn [Async.exec]. rewrite E.
      cbn. rewrite app_nil_r. reflexivity.
    + split; [auto | intros c []].
  - assert (Hname : trim (AccessKeyManager.newKeyName s) <> [])
      by (rewrite E; discriminate).
    pose proof (createKey_exec answer made s Hname) as R. cbv zeta in R.
    pose proof (trim_trimmed (AccessKeyManager.newKeyName s)) as Ht.
    rewrite E in R, Ht.
    destruct (answer made _) as [[]|err] in R.
    + eexists [_; _]. eexists. rewrite <- app_assoc in R. split; [exact R|].
      split; [discriminate|].
      intros c [<- | [<- | []]]; [right | left; reflexivity].
      split; [reflexivity | split; [discriminate | exact Ht]].
    + eexists [_]. eexists. split; [exact R|].
      split; [discriminate|].
      intros c [<- | []]. right.
      split; [reflexivity | split; [discriminate | exact Ht]].
Qed.

(** X14: a [createKey] that passes the check of the name ends with
    [loading] cleared, whatever the server does.  When the POST fails,
    nothing else is called, the dialog stays open with the name in it,
    the list is as it was, and the error text is set.  When the POST
    succeeds, the success text is set, the dialog is closed, the name
    is emptied and the list is fetched once; if that fetch fails the
    error text is set beside the success text, and the list is the old
    one. *)
Theorem createKey_outcome (answer : Async.oracle _ _)
    (made : list AccessKeyManager.call) (s : AccessKeyManager.refs)
    (Hname : trim (AccessKeyManager.newKeyName s) <> []) :
  let post :=
    AccessKeyManager.api_post (js "/access-key")
      (AccessKeyManager.create_fields (trim (AccessKeyManager.newKeyName s))
         (AccessKeyManager.newKeyType s)) in
  let get := AccessKeyManager.api_get (js "/access-key") in
  exists more s',
    Async.exec answer AccessKeyManager.createKey made s
    = (Ok tt, (made ++ post :: more, s'))
    /\ AccessKeyManager.loading s' = false
    /\ (forall err,
          answer made post = Err err ->
          more = []
          /\ AccessKeyManager.error s'
             = AccessKeyManager.failure_text err (js "Failed to create key")
          /\ AccessKeyManager.error s' <> []
          /\ AccessKeyManager.success s' = AccessKeyManager.success s
          /\ AccessKeyManager.showCreateDialog s'
             = AccessKeyManager.showCreateDialog s
          /\ AccessKeyManager.newKeyName s' = AccessKeyManager.newKeyName s
          /\ AccessKeyManager.keys s' = AccessKeyManager.keys s)
    /\ (answer made post = Ok tt ->
        more = [get]
        /\ AccessKeyManager.success s' = js "Key created successfully"
        /\ AccessKeyManager.showCreateDialog s' = false
        /\ AccessKeyManager.newKeyName s' = []
        /\ (forall res,
              answer (made ++ [post]) get = Ok res ->
              AccessKeyManager.keys s'
              = AccessKeyManager.keys_of
                  (AccessKeyManager.getResponseData res)
              /\ AccessKeyManager.error s' = [])
        /\ (forall err,
              answer (made ++ [post]) get = Err err ->
              AccessKeyManager.keys s' = AccessKeyManager.keys s
              /\ AccessKeyManager.error s'
                 = AccessKeyManager.failure_text err
                     (js "Failed to fetch keys"))).
Proof.
  intros post get.
  pose proof (createKey_exec answer made s Hname) as R. cbv zeta in R.
  fold post get in R.
  destruct (answer made post) as [[]|err].
  - rewrite fetchKeys_exec in R. cbv zeta in R. fold get in R.
    cbn [snd] in R. rewrite <- app_assoc in R. cbn [List.app] in R.
    eexists. eexists. split; [exact R|].
    split; [reflexivity|]. split; [intros err H; discriminate|].
    intros _. split; [reflexivity|].
    destruct (answer (made ++ [post]) get) as [res|err]; cbn;
      repeat (split; [reflexivity|]); split.
    + intros res' H. inversion H; subst. split; reflexivity.
    + intros err' H. discriminate.
    + intros res' H. discriminate.
    + intros err' H. inversion H; subst. split; reflexivity.
  - exists [], (AccessKeyManager.set_loading false
                 (AccessKeyManager.set_error
                    (AccessKeyManager.failure_text err
                       (js "Failed to create key"))
                    (AccessKeyManager.set_error []
                       (AccessKeyManager.set_loading true s)))).
    split; [exact R|]. split; [reflexivity|].
    split; [|intros H; discriminate].
    intros err' H. inversion H; subst. cbn.
    repeat split. apply failure_text_nonempty. discriminate.
Qed.

(** The server takes the key, and then the list cannot be fetched: both
    messages are on screen. *)
Lemma createKey_outcome_witness :
  let s := AccessKeyManager.set_newKeyName (js "  My key ")
             AccessKeyManager.initial in
  let answer : Async.oracle AccessKeyManager.call AccessKeyManager.reply :=
    fun made c =>
      match c return result (AccessKeyManager.reply c) with
      | AccessKeyManager.api_get _ => Err (new_Error (js "Network Error"))
      | AccessKeyManager.api_post _ _ => Ok tt
      | AccessKeyManager.api_put _ _ => Ok tt
      | AccessKeyManager.api_delete _ => Ok tt
      end in
  exists s',
    Async.exec answer AccessKeyManager.createKey [] s
    = (Ok tt,
       ([AccessKeyManager.api_post (js "/access-key")
           (AccessKeyManager.create_fields (js "My key") (js "AI_ORACLE"));
         AccessKeyManager.api_get (js "/access-key")], s'))
    /\ AccessKeyManager.success s' = js "Key created successfully"
    /\ AccessKeyManager.error s' = js "Network Error"
    /\ AccessKeyManager.loading s' = false.
Proof.
  intros s answer.
  assert (Hname : trim (AccessKeyManager.newKeyName s) <> [])
    by (vm_compute; discriminate).
  destruct (createKey_outcome answer [] s Hname)
    as (more & s' & Hrun & Hloading & _ & Hok).
  destruct (Hok eq_refl) as (-> & Hsuccess & _ & _ & _ & Hfail).
  exists s'. split; [exact Hrun|]. split; [exact Hsuccess|].
  split; [exact (proj2 (Hfail _ eq_refl)) | exact Hloading].
Defined.

(** The run of [deleteKey] when a key is selected. *)
Lemma deleteKey_exec (answer : Async.oracle _ _)
    (made : list AccessKeyManager.call) (s : AccessKeyManager.refs)
    (key : AccessKeyManager.AccessKey) :
  AccessKeyManager.deletingKey s = Some key ->
  let del :=
    AccessKeyManager.api_delete
      (js "/access-key/" ++ Z_to_string (AccessKeyManager.id key)) in
  let s0 := AccessKeyManager.set_error []
              (AccessKeyManager.set_loading true s) in
  Async.exec answer AccessKeyManager.deleteKey made s
  = match answer made del with
    | Err err =>
        (Ok tt,
         (made ++ [del],
          AccessKeyManager.set_loading false
            (AccessKeyManager.set_error
               (AccessKeyManager.failure_text err (js "Failed to delete key"))
               s0)))
    | Ok _ =>
        let s1 :=
          AccessKeyManager.set_deletingKey None
            (AccessKeyManager.set_showDeleteConfirm false
               (AccessKeyManager.set_success (js "Key deleted successfully")
                  s0)) in
        (Ok tt,
         ((made ++ [del]) ++ [AccessKeyManager.api_get (js "/access-key")],
          AccessKeyManager.set_loading false
            (snd (snd (Async.exec answer AccessKeyManager.fetchKeys
                         (made ++ [del]) s1)))))
    end.
Proof.
  intros Hsel del s0. unfold AccessKeyManager.deleteKey.
  cbn [Async.exec]. rewrite Hsel. exec_steps.
  change (AccessKeyManager.deletingKey
            (AccessKeyManager.set_error []
               (AccessKeyManager.set_loading true s)))
    with (AccessKeyManager.deletingKey s).
  rewrite Hsel. exec_steps.
  fold del. destruct (answer made del) as [[]|err]; [|reflexivity].
  exec_steps. apply refetch_exec.
Qed.

(** X15: [deleteKey] with no key selected does nothing.  With a key
    selected whose id is a safe integer, it sends one DELETE, to
    [/access-key/] followed by the digits of that id.  When that
    fails nothing else is called, the key stays selected and the
    confirmation stays open, the list is as it was and the error text is
    set; when it succeeds the selection is dropped, the confirmation is
    closed, the success text is set and the list is fetched once.  In
    both cases [loading] ends cleared. *)
Theorem deleteKey_outcome (answer : Async.oracle _ _)
    (made : list AccessKeyManager.call) (s : AccessKeyManager.refs) :
  (AccessKeyManager.deletingKey s = None ->
   Async.exec answer AccessKeyManager.deleteKey made s = (Ok tt, (made, s)))
  /\ (forall key,
        AccessKeyManager.deletingKey s = Some key ->
        safe_integer (AccessKeyManager.id key) ->
        let del :=
          AccessKeyManager.api_delete
            (js "/access-key/" ++ Z_to_string (AccessKeyManager.id key)) in
        exists more s',
          Async.exec answer AccessKeyManager.deleteKey made s
          = (Ok tt, (made ++ del :: more, s'))
          /\ AccessKeyManager.loading s' = false
          /\ (forall err,
                answer made del = Err err ->
                more = []
                /\ AccessKeyManager.deletingKey s' = Some key
                /\ AccessKeyManager.showDeleteConfirm s'
                   = AccessKeyManager.showDeleteConfirm s
                /\ AccessKeyManager.keys s' = AccessKeyManager.keys s
                /\ AccessKeyManager.success s' = AccessKeyManager.success s
                /\ AccessKeyManager.error s'
                   = AccessKeyManager.failure_text err
                       (js "Failed to delete key"))
          /\ (answer made del = Ok tt ->
              more = [AccessKeyManager.api_get (js "/access-key")]
              /\ AccessKeyManager.deletingKey s' = None
              /\ AccessKeyManager.showDeleteConfirm s' = false
              /\ AccessKeyManager.success s' = js "Key deleted successfully")).
Proof.
  split.
  - intros Hnone. unfold AccessKeyManager.deleteKey. cbn [Async.exec].
    rewrite Hnone. reflexivity.
  - intros key Hsel Hsafe del.
    pose proof (deleteKey_exec answer made s key Hsel) as R. cbv zeta in R.
    fold del in R.
    destruct (answer made del) as [[]|err].
    + rewrite fetchKeys_exec in R. cbv zeta in R. cbn [snd] in R.
      rewrite <- app_assoc in R. cbn [List.app] in R.
      eexists. eexists. split; [exact R|].
      split; [reflexivity|]. split; [intros err H; discriminate|].
      intros _. split; [reflexivity|].
      destruct (answer (made ++ [del]) _); cbn; repeat split.
    + eexists []. eexists. split; [exact R|]. split; [reflexivity|].
      split; [|intros H; discriminate].
      intros err' H. inversion H; subst. cbn. rewrite Hsel.
      repeat split.
Qed.

(** Key 7 is selected for deletion and the server cannot be reached: one
    DELETE to [/access-key/7], and the confirmation stays open for that
    key, under the error text. *)
Lemma deleteKey_outcome_witness :
  let s := snd (snd (Async.exec AccessKeyManager.server_down
                       (AccessKeyManager.openDeleteConfirm
                          AccessKeyManager.sample_key)
                       [] AccessKeyManager.initial)) in
  AccessKeyManager.deletingKey s = Some AccessKeyManager.sample_key
  /\ safe_integer (AccessKeyManager.id AccessKeyManager.sample_key)
  /\ exists s',
       Async.exec AccessKeyManager.server_down AccessKeyManager.deleteKey [] s
       = (Ok tt, ([AccessKeyManager.api_delete (js "/access-key/7")], s'))
       /\ AccessKeyManager.loading s' = false
       /\ AccessKeyManager.deletingKey s' = Some AccessKeyManager.sample_key
       /\ AccessKeyManager.showDeleteConfirm s' = true
       /\ AccessKeyManager.error s' = js "Network Error".
Proof.
  intros s.
  assert (Hsafe : safe_integer
                    (AccessKeyManager.id AccessKeyManager.sample_key))
    by (unfold safe_integer; cbn; lia).
  split; [reflexivity|]. split; [exact Hsafe|].
  destruct (proj2 (deleteKey_outcome AccessKeyManager.server_down [] s)
              AccessKeyManager.sample_key eq_refl Hsafe)
    as (more & s' & Hrun & Hload & Herr & _).
  destruct (Herr _ eq_refl) as (-> & Hkey & Hopen & _ & _ & Htext).
  exists s'. split; [exact Hrun|]. split; [exact Hload|].
  split; [exact Hkey|]. split; [rewrite Hopen; reflexivity|].
  rewrite Htext. reflexivity.
Defined.

(** The run of [updateKey] when a key is being edited and the new name is
    not blank. *)
Lemma updateKey_exec (answer : Async.oracle _ _)
    (made : list AccessKeyManager.call) (s : AccessKeyManager.refs)
    (key : AccessKeyManager.AccessKey) :
  AccessKeyManager.editingKey s = Some key ->
  trim (AccessKeyManager.editKeyName s) <> [] ->
  let put :=
    AccessKeyManager.api_put (js "/access-key")
      (AccessKeyManager.update_fields (AccessKeyManager.id key)
         (trim (AccessKeyManager.editKeyName s))) in
  let s0 := AccessKeyManager.set_error []
              (AccessKeyManager.set_loading true s) in
  Async.exec answer AccessKeyManager.updateKey made s
  = match answer made put with
    | Err err =>
        (Ok tt,
         (made ++ [put],
          AccessKeyManager.set_loading false
            (AccessKeyManager.set_error
               (AccessKeyManager.failure_text err (js "Failed to update key"))
               s0)))
    | Ok _ =>
        let s1 :=
          AccessKeyManager.set_editKeyName []
            (AccessKeyManager.set_editingKey None
               (AccessKeyManager.set_showEditDialog false
                  (AccessKeyManager.set_success
                     (js "Key updated successfully") s0))) in
        (Ok tt,
         ((made ++ [put]) ++ [AccessKeyManager.api_get (js "/access-key")],
          AccessKeyManager.set_loading false
            (snd (snd (Async.exec answer AccessKeyManager.fetchKeys
                         (made ++ [put]) s1)))))
    end.
Proof.
  intros Hsel Hname put s0. unfold AccessKeyManager.updateKey.
  cbn [Async.exec]. rewrite Hsel.
  destruct (AccessKeyManager.is_empty (trim (AccessKeyManager.editKeyName s)))
    eqn:E; [apply is_empty_true in E; contradiction|].
  exec_steps.
  change (AccessKeyManager.editingKey
            (AccessKeyManager.set_error []
               (AccessKeyManager.set_loading true s)))
    with (AccessKeyManager.editingKey s).
  change (AccessKeyManager.editKeyName
            (AccessKeyManager.set_error []
               (AccessKeyManager.set_loading true s)))
    with (AccessKeyManager.editKeyName s).
  rewrite Hsel. exec_steps.
  fold put. destruct (answer made put) as [[]|err]; [|reflexivity].
  exec_steps. apply refetch_exec.
Qed.

(** X16: [updateKey] without a key being edited, or with a name of
    which trimming leaves nothing, makes no call and asks for a name.
    Otherwise it sends one PUT with the id of the key that the dialog
    was opened for and the trimmed name; when that fails the dialog
    keeps its key and its name and the list is not fetched, when it
    succeeds the dialog is closed and emptied and the list is fetched
    once.  Opening the dialog for a key makes that key the one
    renamed. *)
Theorem updateKey_outcome (answer : Async.oracle _ _)
    (made : list AccessKeyManager.call) (s : AccessKeyManager.refs) :
  (AccessKeyManager.editingKey s = None
   \/ trim (AccessKeyManager.editKeyName s) = [] ->
   Async.exec answer AccessKeyManager.updateKey made s
   = (Ok tt,
      (made, AccessKeyManager.set_error (js "Please enter a key name") s)))
  /\ (forall key,
        AccessKeyManager.editingKey s = Some key ->
        trim (AccessKeyManager.editKeyName s) <> [] ->
        let put :=
          AccessKeyManager.api_put (js "/access-key")
            (AccessKeyManager.update_fields (AccessKeyManager.id key)
               (trim (AccessKeyManager.editKeyName s))) in
        exists more s',
          Async.exec answer AccessKeyManager.updateKey made s
          = (Ok tt, (made ++ put :: more, s'))
          /\ AccessKeyManager.loading s' = false
          /\ (forall err,
                answer made put = Err err ->
                more = []
                /\ AccessKeyManager.editingKey s' = Some key
                /\ AccessKeyManager.editKeyName s'
                   = AccessKeyManager.editKeyName s
                /\ AccessKeyManager.showEditDialog s'
                   = AccessKeyManager.showEditDialog s
                /\ AccessKeyManager.error s'
                   = AccessKeyManager.failure_text err
                       (js "Failed to update key"))
          /\ (answer made put = Ok tt ->
              more = [AccessKeyManager.api_get (js "/access-key")]
              /\ AccessKeyManager.editingKey s' = None
              /\ AccessKeyManager.editKeyName s' = []
              /\ AccessKeyManager.showEditDialog s' = false
              /\ AccessKeyManager.success s' = js "Key updated successfully"))
  /\ (forall key,
        let opened :=
          snd (snd (Async.exec answer (AccessKeyManager.openEditDialog key)
                      made s)) in
        AccessKeyManager.editingKey opened = Some key
        /\ AccessKeyManager.editKeyName opened = AccessKeyManager.name key
        /\ AccessKeyManager.showEditDialog opened = true).
Proof.
  split; [|split].
  - intros H. unfold AccessKeyManager.updateKey. cbn [Async.exec].
    destruct (AccessKeyManager.editingKey s) as [key|]; [|reflexivity].
    destruct H as [H | H]; [discriminate|]. rewrite H. reflexivity.
  - intros key Hsel Hname put.
    pose proof (updateKey_exec answer made s key Hsel Hname) as R.
    cbv zeta in R. fold put in R.
    destruct (answer made put) as [[]|err].
    + rewrite fetchKeys_exec in R. cbv zeta in R. cbn [snd] in R.
      rewrite <- app_assoc in R. cbn [List.app] in R.
      eexists. eexists. split; [exact R|].
      split; [reflexivity|]. split; [intros err H; discriminate|].
      intros _. split; [reflexivity|].
      destruct (answer (made ++ [put]) _); cbn; repeat split.
    + eexists []. eexists. split; [exact R|]. split; [reflexivity|].
      split; [|intros H; discriminate].
      intros err' H. inversion H; subst. cbn. rewrite Hsel.
      repeat split.
  - intros key. cbn. repeat split.
Qed.

(** ** Holding the loading flag *)

Section Holding.

Context {C : Type} {R : C -> Type} {S : Type}.
Variable busy : S -> bool.

Lemma untouched_bind {A B} (p : Async.async C R S A)
    (f : A -> Async.async C R S B) :
  Async.untouched busy p -> (forall a, Async.untouched busy (f a)) ->
  Async.untouched busy (Async.bind p f).
Proof.
  intros Hp Hf. induction p as [a|e|c k IH|k IH|g k IH]; simpl in *; auto.
  destruct Hp as [Hg Hk]. split; auto.
Qed.

Lemma untouched_try_catch {A} (p : Async.async C R S A)
    (h : js_error -> Async.async C R S A) :
  Async.untouched busy p -> (forall e, Async.untouched busy (h e)) ->
  Async.untouched busy (Async.try_catch p h).
Proof.
  intros Hp Hh. induction p as [a|e|c k IH|k IH|g k IH]; simpl in *; auto.
  destruct Hp as [Hg Hk]. split; auto.
Qed.

Lemma untouched_wait (c : C) :
  Async.untouched busy (Async.wait (R:=R) (S:=S) c).
Proof. intros [v|e]; exact I. Qed.

Lemma untouched_lift {A} (r : result A) :
  Async.untouched busy (Async.lift (C:=C) (R:=R) (S:=S) r).
Proof. destruct r; exact I. Qed.

Lemma untouched_write (f : S -> S) :
  Async.keeps busy f -> Async.untouched busy (Async.write (C:=C) (R:=R) f).
Proof. intros H. split; [exact H | exact I]. Qed.

Lemma releasing_finally (p : Async.async C R S unit) (f : S -> S) :
  Async.untouched busy p -> Async.clears busy f ->
  Async.releasing busy (Async.finally p (Async.write f)).
Proof.
  intros Hp Hf. induction p as [a|e|c k IH|k IH|g k IH]; simpl in *; auto.
  destruct Hp as [Hg Hk]. left. split; auto.
Qed.

Lemma advance_untouched (p : Async.async C R S unit) (made : list C)
    (s : S) :
  Async.untouched busy p ->
  busy (snd (snd (Async.advance p made s))) = busy s
  /\ forall t, fst (Async.advance p made s) = Some t ->
               forall r, Async.untouched busy (Async.resume t r).
Proof.
  revert made s. induction p as [a|e|c k IH|k IH|g k IH]; intros made s Hp;
    simpl in *.
  - split; [reflexivity | discriminate].
  - split; [reflexivity | discriminate].
  - split; [reflexivity|]. intros t H. inversion H; subst. exact Hp.
  - apply IH. apply Hp.
  - destruct Hp as [Hg Hk]. destruct (IH made (g s) Hk) as [Hb Ht].
    split; [rewrite Hb; apply Hg | exact Ht].
Qed.

Lemma advance_finishing (p : Async.async C R S unit) (made : list C)
    (s : S) :
  Async.finishing busy p -> fst (Async.advance p made s) = None.
Proof.
  revert made s. induction p as [a|e|c k IH|k IH|g k IH]; intros made s Hp;
    simpl in *; auto.
  - contradiction.
  - destruct Hp as [_ Hk]. apply IH. exact Hk.
Qed.

Lemma advance_releasing (p : Async.async C R S unit) (made made' : list C)
    (s s' : S) (t : Async.suspended C R S) :
  Async.releasing busy p ->
  Async.advance p made s = (Some t, (made', s')) ->
  busy s' = busy s /\ forall r, Async.releasing busy (Async.resume t r).
Proof.
  revert made s. induction p as [a|e|c k IH|k IH|g k IH]; intros made s Hp H;
    simpl in *.
  - contradiction.
  - contradiction.
  - inversion H; subst. split; [reflexivity | exact Hp].
  - apply (IH _ _ _ (Hp s) H).
  - destruct Hp as [[Hg Hk] | [Hg Hk]].
    + destruct (IH _ _ Hk H) as [Hb Ht]. split; [rewrite Hb; apply Hg | exact Ht].
    + pose proof (advance_finishing k made (g s) Hk) as E.
      rewrite H in E. discriminate.
Qed.

Lemma advance_bracketing (p : Async.async C R S unit) (made made' : list C)
    (s s' : S) (t : Async.suspended C R S) :
  Async.bracketing busy p ->
  Async.advance p made s = (Some t, (made', s')) ->
  busy s' = true /\ forall r, Async.releasing busy (Async.resume t r).
Proof.
  revert made s. induction p as [a|e|c k IH|k IH|g k IH]; intros made s Hp H;
    simpl in *.
  - contradiction.
  - contradiction.
  - contradiction.
  - apply (IH _ _ _ (Hp s) H).
  - destruct Hp as [[Hg Hk] | [Hg Hk]].
    + apply (IH _ _ Hk H).
    + destruct (advance_releasing k made made' (g s) s' t Hk H) as [Hb Ht].
      split; [rewrite Hb; apply Hg | exact Ht].
Qed.

End Holding.

(** ** The handlers of the payment view *)

Lemma keeps_apply (a : action) :
  match a with set_loading _ => False | _ => True end ->
  Async.keeps PaymentView.loading (PaymentView.apply a).
Proof. destruct a; intros H p; try contradiction; reflexivity. Qed.

Lemma embed_quiet {A} (p : prog A) :
  quiet p -> Async.untouched PaymentView.loading (PaymentView.embed p).
Proof.
  induction p as [a|e|c k IH|k IH|a k IH]; simpl; auto.
  intros H. split.
  - apply keeps_apply. destruct a; auto.
  - apply IH. destruct a; auto. contradiction.
Qed.

Lemma embed_immediate (p : prog unit) :
  immediate p -> Async.finishing PaymentView.loading (PaymentView.embed p).
Proof.
  induction p as [a|e|c k IH|k IH|a k IH]; simpl; auto.
  intros H. split.
  - apply keeps_apply. destruct a; auto.
  - apply IH. destruct a; auto. contradiction.
Qed.

Lemma embed_releases (p : prog unit) :
  releases p -> Async.releasing PaymentView.loading (PaymentView.embed p).
Proof.
  induction p as [a|e|c k IH|k IH|a k IH]; simpl; auto.
  destruct a as [[|]|text|url|msg]; intros H.
  - contradiction.
  - right. split; [intros s; reflexivity | apply embed_immediate; exact H].
  - left. split; [intros s; reflexivity | apply IH; exact H].
  - left. split; [intros s; reflexivity | apply IH; exact H].
  - left. split; [intros s; reflexivity | apply IH; exact H].
Qed.

Lemma pay_bracketing : Async.bracketing PaymentView.loading PaymentView.pay.
Proof.
  unfold PaymentView.pay.
  destruct (handlePayment_releases basic) as (rest & -> & Hrest).
  cbn [PaymentView.embed Async.bracketing]. right.
  split; [intros s; reflexivity | apply embed_releases; exact Hrest].
Qed.

Lemma connectAndLogin_bracketing
    (prepareMessage : PaymentView.SiweFields -> result jsstring) :
  Async.bracketing PaymentView.loading
    (PaymentView.connectAndLogin prepareMessage).
Proof.
  unfold PaymentView.connectAndLogin.
  cbn [Async.bind Async.write Async.bracketing].
  left. split; [intros s; reflexivity|].
  right. split; [intros s; reflexivity|].
  apply releasing_finally; [|intros s; reflexivity].
  apply untouched_try_catch.
  - intros window. cbn [Async.bind].
    destruct (negb (PaymentView.ethereum window)); [exact I|].
    repeat (apply untouched_bind;
            [first [apply untouched_wait | apply untouched_lift
                   | intros ?; exact I]|]; intros ?).
    apply untouched_write. intros s; reflexivity.
  - intros err. apply untouched_write. intros s; reflexivity.
Qed.

Lemma checkSession_untouched :
  Async.untouched PaymentView.loading PaymentView.checkSession.
Proof.
  unfold PaymentView.checkSession. apply untouched_try_catch.
  - apply untouched_bind; [apply untouched_wait|].
    intros me. apply untouched_write. intros s; reflexivity.
  - intros _. apply untouched_write. intros s; reflexivity.
Qed.

Lemma logout_untouched :
  Async.untouched PaymentView.loading PaymentView.logout.
Proof.
  unfold PaymentView.logout. apply untouched_try_catch.
  - apply untouched_bind; [apply untouched_wait|].
    intros _. apply untouched_write. intros s; reflexivity.
  - intros _. exact I.
Qed.

(** ** Sessions of the payment view *)

Lemma start_bystander_serialized (p : PaymentView.program unit)
    (s : PaymentView.session) :
  PaymentView.serialized s ->
  Async.untouched PaymentView.loading p ->
  PaymentView.serialized (PaymentView.start PaymentView.bystander p s).
Proof.
  intros [Hby Hho] Hp. unfold PaymentView.start.
  destruct (advance_untouched PaymentView.loading p (PaymentView.made s)
              (PaymentView.now s) Hp) as [Hb Ht].
  destruct (Async.advance p (PaymentView.made s) (PaymentView.now s))
    as [[t|] [calls s']]; simpl in Hb, Ht; split; simpl.
  - intros i Hi Hr r. apply in_app_or in Hi. destruct Hi as [Hi|[<-|[]]].
    + apply Hby; assumption.
    + simpl. apply Ht. reflexivity.
  - rewrite filter_app. simpl. rewrite app_nil_r.
    destruct Hho as [H|(i & H & Hl & Hrel)]; [left; exact H|].
    right. exists i. rewrite Hb. auto.
  - exact Hby.
  - destruct Hho as [H|(i & H & Hl & Hrel)]; [left; exact H|].
    right. exists i. rewrite Hb. auto.
Qed.

Lemma start_holder_bracketing (p : PaymentView.program unit)
    (s : PaymentView.session) :
  (forall i, In i (PaymentView.pending s) ->
     PaymentView.role_of i = PaymentView.bystander ->
     forall r, Async.untouched PaymentView.loading
                 (Async.resume (PaymentView.waiting i) r)) ->
  filter PaymentView.is_holder (PaymentView.pending s) = [] ->
  Async.bracketing PaymentView.loading p ->
  PaymentView.serialized (PaymentView.start PaymentView.holder p s).
Proof.
  intros Hby Hno Hp. unfold PaymentView.start.
  destruct (Async.advance p (PaymentView.made s) (PaymentView.now s))
    as [[t|] [calls s']] eqn:E; split; simpl.
  - intros i Hi Hr r. apply in_app_or in Hi. destruct Hi as [Hi|[<-|[]]].
    + apply Hby; assumption.
    + discriminate Hr.
  - destruct (advance_bracketing PaymentView.loading p _ _ _ _ _ Hp E)
      as [Hb Ht].
    right. eexists. rewrite filter_app, Hno. simpl.
    split; [reflexivity|]. split; [exact Hb | exact Ht].
  - exact Hby.
  - left. exact Hno.
Qed.

Lemma start_holder_releasing (p : PaymentView.program unit)
    (s : PaymentView.session) :
  (forall i, In i (PaymentView.pending s) ->
     PaymentView.role_of i = PaymentView.bystander ->
     forall r, Async.untouched PaymentView.loading
                 (Async.resume (PaymentView.waiting i) r)) ->
  filter PaymentView.is_holder (PaymentView.pending s) = [] ->
  PaymentView.loading (PaymentView.now s) = true ->
  Async.releasing PaymentView.loading p ->
  PaymentView.serialized (PaymentView.start PaymentView.holder p s).
Proof.
  intros Hby Hno Hl Hp. unfold PaymentView.start.
  destruct (Async.advance p (PaymentView.made s) (PaymentView.now s))
    as [[t|] [calls s']] eqn:E; split; simpl.
  - intros i Hi Hr r. apply in_app_or in Hi. destruct Hi as [Hi|[<-|[]]].
    + apply Hby; assumption.
    + discriminate Hr.
  - destruct (advance_releasing PaymentView.loading p _ _ _ _ _ Hp E)
      as [Hb Ht].
    right. eexists. rewrite filter_app, Hno. simpl.
    split; [reflexivity|]. split; [rewrite Hb; exact Hl | exact Ht].
  - exact Hby.
  - left. exact Hno.
Qed.

Lemma render_button_idle (s : PaymentView.page) :
  PaymentView.render s <> LoadingBox -> PaymentView.loading s = false.
Proof.
  unfold PaymentView.render. destruct (PaymentView.loading s); congruence.
Qed.

Lemma serialized_idle (s : PaymentView.session) :
  PaymentView.serialized s ->
  PaymentView.loading (PaymentView.now s) = false ->
  filter PaymentView.is_holder (PaymentView.pending s) = [].
Proof.
  intros [_ [H|(i & _ & Hl & _)]] Hf; [exact H | congruence].
Qed.

Lemma view_step_serialized
    (prepareMessage : PaymentView.SiweFields -> result jsstring)
    (s s' : PaymentView.session) :
  PaymentView.serialized s -> PaymentView.step prepareMessage s s' ->
  PaymentView.serialized s'.
Proof.
  intros Hs Hstep.
  destruct Hstep as [s|s Hr|s Hr|s Hr|s before after i r Hp].
  - apply start_bystander_serialized;
      [exact Hs | apply checkSession_untouched].
  - apply start_holder_bracketing.
    + apply Hs.
    + apply serialized_idle; [exact Hs|].
      apply render_button_idle. congruence.
    + apply connectAndLogin_bracketing.
  - apply start_holder_bracketing.
    + apply Hs.
    + apply serialized_idle; [exact Hs|].
      apply render_button_idle. congruence.
    + apply pay_bracketing.
  - apply start_bystander_serialized;
      [exact Hs | apply logout_untouched].
  - destruct Hs as [Hby Hho]. rewrite Hp in Hby, Hho.
    assert (Hby' : forall j, In j (before ++ after) ->
              PaymentView.role_of j = PaymentView.bystander ->
              forall r, Async.untouched PaymentView.loading
                          (Async.resume (PaymentView.waiting j) r)).
    { intros j Hj. apply Hby. apply in_or_app. apply in_app_or in Hj.
      destruct Hj; [left | right; right]; assumption. }
    rewrite filter_app in Hho. simpl in Hho.
    destruct (PaymentView.role_of i) eqn:Hrole.
    + assert (Hi : PaymentView.is_holder i = true)
        by (unfold PaymentView.is_holder; rewrite Hrole; reflexivity).
      rewrite Hi in Hho.
      destruct Hho as [H|(i0 & H & Hl & Hrel)].
      { destruct (filter PaymentView.is_holder before); discriminate H. }
      assert (Hparts : filter PaymentView.is_holder before = []
                       /\ i = i0
                       /\ filter PaymentView.is_holder after = []).
      { destruct (filter PaymentView.is_holder before) as [|x l];
          simpl in H.
        - assert (i = i0) by congruence.
          assert (filter PaymentView.is_holder after = []) by congruence.
          auto.
        - assert (Hl' : l ++ i :: filter PaymentView.is_holder after = [])
            by congruence.
          destruct l; discriminate Hl'. }
      destruct Hparts as (Hb & <- & Ha).
      apply start_holder_releasing; simpl.
      * exact Hby'.
      * rewrite filter_app, Hb, Ha. reflexivity.
      * exact Hl.
      * apply Hrel.
    + assert (Hi : PaymentView.is_holder i = false)
        by (unfold PaymentView.is_holder; rewrite Hrole; reflexivity).
      rewrite Hi in Hho.
      apply start_bystander_serialized.
      * split; simpl; [exact Hby'|]. rewrite filter_app. exact Hho.
      * apply Hby; [|exact Hrole]. apply in_or_app. right. left.
        reflexivity.
Qed.

Lemma view_steps_serialized
    (prepareMessage : PaymentView.SiweFields -> result jsstring)
    (s s' : PaymentView.session) :
  PaymentView.serialized s -> PaymentView.steps prepareMessage s s' ->
  PaymentView.serialized s'.
Proof.
  intros Hs Hsteps. induction Hsteps as [s|s1 s2 s3 _ IH Hstep].
  - exact Hs.
  - eapply view_step_serialized; [apply IH; exact Hs | exact Hstep].
Qed.

(** X17: in the payment view as a whole ([checkSession] on mount, the
    Connect Wallet, Pay and Disconnect buttons, and calls that settle in
    any order with any result), starting with nothing in flight, at most
    one login or payment is in flight at any time, and while one is,
    [loading] is set and the template shows the loading box, so none of
    the three buttons is on screen. *)
Theorem view_one_login_or_payment
    (prepareMessage : PaymentView.SiweFields -> result jsstring)
    (s0 s : PaymentView.session) :
  PaymentView.pending s0 = [] ->
  PaymentView.steps prepareMessage s0 s ->
  (List.length (filter PaymentView.is_holder (PaymentView.pending s)) <= 1)%nat
  /\ (filter PaymentView.is_holder (PaymentView.pending s) <> [] ->
      PaymentView.loading (PaymentView.now s) = true
      /\ PaymentView.render (PaymentView.now s) = LoadingBox).
Proof.
  intros H0 Hsteps.
  assert (Hs0 : PaymentView.serialized s0).
  { split; rewrite H0; [intros i []|left; reflexivity]. }
  destruct (view_steps_serialized prepareMessage s0 s Hs0 Hsteps)
    as [_ [H|(i & H & Hl & _)]]; rewrite H; simpl.
  - split; [lia | congruence].
  - split; [lia|]. intros _. split; [exact Hl|].
    unfold PaymentView.render. rewrite Hl. reflexivity.
Qed.

Lemma view_one_login_or_payment_witness :
  PaymentView.pending PaymentView.fresh_session = []
  /\ (List.length
        (filter PaymentView.is_holder
           (PaymentView.pending
              (PaymentView.start PaymentView.holder
                 (PaymentView.connectAndLogin PaymentView.sample_message)
                 (PaymentView.start PaymentView.bystander
                    PaymentView.checkSession PaymentView.fresh_session))))
      <= 1)%nat
  /\ PaymentView.render
       (PaymentView.now
          (PaymentView.start PaymentView.holder
             (PaymentView.connectAndLogin PaymentView.sample_message)
             (PaymentView.start PaymentView.bystander
                PaymentView.checkSession PaymentView.fresh_session)))
     = LoadingBox.
Proof.
  split; [reflexivity|].
  destruct (view_one_login_or_payment PaymentView.sample_message
              PaymentView.fresh_session
              (PaymentView.start PaymentView.holder
                 (PaymentView.connectAndLogin PaymentView.sample_message)
                 (PaymentView.start PaymentView.bystander
                    PaymentView.checkSession PaymentView.fresh_session))
              eq_refl) as [Hone Hbox].
  - eapply PaymentView.steps_next.
    + eapply PaymentView.steps_next.
      * apply PaymentView.steps_refl.
      * apply PaymentView.step_mounted.
    + apply PaymentView.step_connect. reflexivity.
  - split; [exact Hone|]. apply Hbox. simpl. discriminate.
Defined.

(** ** Signing in *)


Ltac login_steps :=
  cbn [Async.exec Async.bind Async.try_catch Async.finally Async.write
       Async.wait Async.read Async.lift fst snd negb
       PaymentView.ethereum PaymentView.location_host
       PaymentView.location_origin PaymentView.with_loading
       PaymentView.with_error PaymentView.with_user].

Ltac next_answer answer :=
  match goal with
  | |- context [match answer ?m ?c with Ok _ => _ | Err _ => _ end] =>
      let E := fresh "E" in
      destruct (answer m c) eqn:E; login_steps
  end.

Ltac next_prepared prepareMessage :=
  match goal with
  | |- context [Async.lift (prepareMessage ?f)] =>
      let E := fresh "E" in
      destruct (prepareMessage f) eqn:E; login_steps
  end.

Ltac login_cases answer prepareMessage :=
  unfold PaymentView.connectAndLogin; login_steps;
  match goal with
  | |- context [if negb (PaymentView.ethereum ?s) then _ else _] =>
      let E := fresh "Heth" in
      destruct (PaymentView.ethereum s) eqn:E; login_steps
  end;
  repeat first [next_answer answer | next_prepared prepareMessage];
  rewrite <- ?app_assoc in *; cbn [List.app] in *.




(** X19: [connectAndLogin] never rejects and always ends with [loading]
    cleared, whatever the wallet and the server answer.  Either its last
    call is a [/user/verify] that resolved, and then [user] is what that
    call gave and no error is shown; or [user] is left as it was and a
    non-empty error text is shown. *)
Theorem connectAndLogin_outcome
    (prepareMessage : PaymentView.SiweFields -> result jsstring)
    (answer : Async.oracle PaymentView.request PaymentView.answer_of)
    (made : list PaymentView.request) (s : PaymentView.page) :
  exists (calls : list PaymentView.request) (s' : PaymentView.page),
    Async.exec answer (PaymentView.connectAndLogin prepareMessage) made s
    = (Ok tt, (made ++ calls, s'))
    /\ PaymentView.loading s' = false
    /\ ((exists (front : list PaymentView.request) (m sig : jsstring),
           calls = front ++ [PaymentView.user_verify m sig]
           /\ answer (made ++ front) (PaymentView.user_verify m sig)
              = Ok (PaymentView.user s')
           /\ PaymentView.error s' = [])
        \/ (PaymentView.user s' = PaymentView.user s
            /\ PaymentView.error s' <> [])).
Proof.
  login_cases answer prepareMessage;
    first [ eexists; eexists; split; [reflexivity|]
          | exists []; eexists; split; [rewrite app_nil_r; reflexivity|] ];
    (split; [reflexivity|]);
    first [ solve [ left; refine (ex_intro _ [_; _; _; _; _] _);
                    do 2 eexists; split; [reflexivity|];
                    split; [eassumption | reflexivity] ]
          | solve [ right; split; [reflexivity|];
                    cbn [PaymentView.error PaymentView.with_loading
                         PaymentView.with_error];
                    apply or_else_nonempty, or_else_nonempty;
                    discriminate ] ].
Qed.

(** X20: in a window without [ethereum], [connectAndLogin] makes no call
    at all, leaves [user] as it is, clears [loading] and shows
    "Please install MetaMask.". *)
Theorem connectAndLogin_without_wallet
    (prepareMessage : PaymentView.SiweFields -> result jsstring)
    (answer : Async.oracle PaymentView.request PaymentView.answer_of)
    (made : list PaymentView.request) (s : PaymentView.page) :
  PaymentView.ethereum s = false ->
  exists s' : PaymentView.page,
    Async.exec answer (PaymentView.connectAndLogin prepareMessage) made s
    = (Ok tt, (made, s'))
    /\ PaymentView.user s' = PaymentView.user s
    /\ PaymentView.loading s' = false
    /\ PaymentView.error s' = js "Please install MetaMask.".
Proof.
  intros Heth. unfold PaymentView.connectAndLogin. login_steps.
  rewrite Heth. login_steps. eexists. split; [reflexivity|].
  repeat split.
Qed.

Lemma connectAndLogin_without_wallet_witness :
  PaymentView.ethereum
    (PaymentView.with_loading false
       {| PaymentView.user := None; PaymentView.loading := false;
          PaymentView.error := []; PaymentView.ethereum := false;
          PaymentView.location_host := js "example.org";
          PaymentView.location_origin := js "https://example.org";
          PaymentView.shown := [] |}) = false
  /\ exists s' : PaymentView.page,
       Async.exec PaymentView.agreeable
         (PaymentView.connectAndLogin PaymentView.sample_message) []
         (PaymentView.with_loading false
            {| PaymentView.user := None; PaymentView.loading := false;
               PaymentView.error := []; PaymentView.ethereum := false;
               PaymentView.location_host := js "example.org";
               PaymentView.location_origin := js "https://example.org";
               PaymentView.shown := [] |})
       = (Ok tt, ([], s'))
       /\ PaymentView.user s' = None
       /\ PaymentView.loading s' = false
       /\ PaymentView.error s' = js "Please install MetaMask.".
Proof.
  split; [reflexivity|].
  apply (connectAndLogin_without_wallet PaymentView.sample_message
           PaymentView.agreeable []).
  reflexivity.
Defined.

(** ** The session check and the logout *)

(** X21: [checkSession] never rejects, asks [/user/me] once and writes
    nothing but [user]: the user that the server gave, and null when the
    request failed, also when a user was set before. *)
Theorem checkSession_outcome
    (answer : Async.oracle PaymentView.request PaymentView.answer_of)
    (made : list PaymentView.request) (s : PaymentView.page) :
  Async.exec answer PaymentView.checkSession made s
  = (Ok tt,
     (made ++ [PaymentView.user_me],
      PaymentView.with_user
        match answer made PaymentView.user_me with
        | Ok me => me
        | Err _ => None
        end s)).
Proof.
  unfold PaymentView.checkSession. login_steps.
  destruct (answer made PaymentView.user_me); reflexivity.
Qed.

(** X22: [logout] never rejects and posts [/user/logout] once; [user] is
    cleared when the server confirmed, and when the request failed the
    view is left exactly as it was: the user stays signed in on screen
    and no error is shown. *)
Theorem logout_outcome
    (answer : Async.oracle PaymentView.request PaymentView.answer_of)
    (made : list PaymentView.request) (s : PaymentView.page) :
  Async.exec answer PaymentView.logout made s
  = (Ok tt,
     (made ++ [PaymentView.user_logout],
      match answer made PaymentView.user_logout with
      | Ok _ => PaymentView.with_user None s
      | Err _ => s
      end)).
Proof.
  unfold PaymentView.logout. login_steps.
  destruct (answer made PaymentView.user_logout); reflexivity.
Qed.

(** ** The wallet client of the interceptor *)

Lemma last_cons {A} (a d : A) (l : list A) : last (a :: l) d = last l a.
Proof.
  revert a d. induction l as [|b l IH]; intros a d; [reflexivity|].
  change (last (a :: b :: l) d) with (last (b :: l) d).
  rewrite (IH b d), (IH b a). reflexivity.
Qed.

Lemma setups_from (calls : list (bool * jsstring))
    (v : Interceptor.variables) :
  Interceptor.setups calls v
  = {| Interceptor.walletClient :=
         last (map Some (map snd (filter fst calls)))
           (Interceptor.walletClient v);
       Interceptor.interceptorInstalled :=
         Interceptor.interceptorInstalled v
         || match map snd (filter fst calls) with
            | [] => false
            | _ :: _ => true
            end;
       Interceptor.intercepted :=
         if Interceptor.interceptorInstalled v
         then Interceptor.intercepted v
         else Interceptor.intercepted v
              ++ firstn 1 (map snd (filter fst calls)) |}.
Proof.
  revert v. induction calls as [|[eth addr] calls IH]; intros v.
  - destruct v as [w [|] l]; simpl; rewrite ?app_nil_r; reflexivity.
  - unfold Interceptor.setups in *. cbn [fold_left fst snd].
    rewrite IH. unfold Interceptor.setupWallet.
    destruct eth; cbn [negb filter fst snd map].
    + rewrite last_cons.
      destruct (Interceptor.interceptorInstalled v) eqn:Hi;
        cbn [Interceptor.walletClient Interceptor.interceptorInstalled
             Interceptor.intercepted orb firstn]; rewrite ?Hi;
        reflexivity.
    + reflexivity.
Qed.

(** X23: after any series of [setupWallet] calls, in windows with or
    without [ethereum], the payment interceptor has been installed at
    most once, with the wallet client of the first account that was set
    up in a window with a wallet, while [walletClient] is that of the
    last such account: after a change of account the interceptor still
    holds the first one. *)
Theorem setupWallet_intercepts_first_account
    (calls : list (bool * jsstring)) :
  Interceptor.intercepted (Interceptor.setups calls Interceptor.initial)
  = firstn 1 (map snd (filter fst calls))
  /\ Interceptor.walletClient (Interceptor.setups calls Interceptor.initial)
     = last (map Some (map snd (filter fst calls))) None
  /\ Interceptor.interceptorInstalled
       (Interceptor.setups calls Interceptor.initial)
     = negb (Nat.eqb (List.length
                        (Interceptor.intercepted
                           (Interceptor.setups calls Interceptor.initial)))
               0).
Proof.
  rewrite setups_from. cbn. repeat split.
  destruct (map snd (filter fst calls)); reflexivity.
Qed.
